(** * Bounding volume hierarchy of yt: a shallow embedding

    Source: [yt/utilities/lib/bounding_volume_hierarchy.pyx].

    Numbers.  [np.int64_t] is embedded as [Z]; every [np.int64_t] index
    handled here is bounded by the size of an allocated array, so wrap-around
    is not reachable.  The C [int] of [cast_rays] is embedded as [Z] with the
    range of [int] checked: a signed overflow is undefined behaviour and is
    the explicit result [Err IntOverflow].  [np.float64_t] is embedded as
    [float64] below: finite values are rationals, the two infinities and NaN
    follow the IEEE-754 rules for special values, and a sum, product or
    quotient whose magnitude reaches the overflow threshold of binary64 is
    an infinity.  Rounding of finite results (and with it underflow) and the
    sign of zero are not part of the model; the properties below use of a
    finite result only its sign and its order with other numbers.

    Memory.  The source is compiled with [boundscheck(False)] on raw C
    arrays, so a read or write outside an array is undefined behaviour.  The
    embedding makes it an explicit result, [Err OutOfBounds]. *)

From Stdlib Require Import ZArith QArith Lqa Lia List Bool Btauto Permutation.
Import ListNotations.

Open Scope Z_scope.

(** ** Results of fallible code *)

Inductive error : Type :=
| OutOfBounds   (* access outside an allocated array, or through an unset pointer *)
| OutOfFuel     (* the loop or the recursion did not finish within its fuel *)
| IntOverflow.  (* a computation in C [int] left the range of [int] *)

Inductive result (A : Type) : Type :=
| Ok (a : A)
| Err (e : error).

Arguments Ok {A} a.
Arguments Err {A} e.

Definition bind {A B : Type} (r : result A) (k : A -> result B) : result B :=
  match r with
  | Ok a => k a
  | Err e => Err e
  end.

Notation "'do' x <- r ; k" := (bind r (fun x => k))
  (at level 10, x pattern, r at level 100, k at level 200).

(** ** The model of [np.float64_t] *)

Inductive float64 : Type :=
| NaN
| NInf
| Fin (q : Q)
| PInf.

Definition Qltb (a b : Q) : bool := negb (Qle_bool b a).

Definition flt (x y : float64) : bool :=
  match x, y with
  | NaN, _ | _, NaN => false
  | NInf, NInf => false
  | NInf, _ => true
  | Fin a, Fin b => Qltb a b
  | Fin _, PInf => true
  | Fin _, NInf => false
  | PInf, _ => false
  end.

Definition fle (x y : float64) : bool :=
  match x, y with
  | NaN, _ | _, NaN => false
  | NInf, _ => true
  | Fin a, Fin b => Qle_bool a b
  | Fin _, PInf => true
  | Fin _, NInf => false
  | PInf, PInf => true
  | PInf, _ => false
  end.

Definition fgt (x y : float64) : bool := flt y x.
Definition fge (x y : float64) : bool := fle y x.

Definition fneg (x : float64) : float64 :=
  match x with
  | NaN => NaN
  | NInf => PInf
  | Fin a => Fin (- a)
  | PInf => NInf
  end.

(** The overflow threshold of binary64 under round-to-nearest: a result of
    magnitude [2^1024 - 2^970] or more is an infinity. *)
Definition OVERFLOW : Q := inject_Z (2 ^ 1024 - 2 ^ 970).

(** The finite result [q] of an operation, with overflow. *)
Definition overflow64 (q : Q) : float64 :=
  if Qle_bool OVERFLOW q then PInf
  else if Qle_bool q (- OVERFLOW) then NInf
  else Fin q.

Definition fadd (x y : float64) : float64 :=
  match x, y with
  | NaN, _ | _, NaN => NaN
  | PInf, NInf | NInf, PInf => NaN
  | PInf, _ | _, PInf => PInf
  | NInf, _ | _, NInf => NInf
  | Fin a, Fin b => overflow64 (a + b)
  end.

Definition fsub (x y : float64) : float64 := fadd x (fneg y).

(** An infinity scaled by a finite factor: NaN for zero, else by sign. *)
Definition scale_inf (pos : bool) (a : Q) : float64 :=
  if Qeq_bool a 0 then NaN
  else if Bool.eqb pos (Qltb 0 a) then PInf else NInf.

Definition fmul (x y : float64) : float64 :=
  match x, y with
  | NaN, _ | _, NaN => NaN
  | PInf, PInf | NInf, NInf => PInf
  | PInf, NInf | NInf, PInf => NInf
  | PInf, Fin a | Fin a, PInf => scale_inf true a
  | NInf, Fin a | Fin a, NInf => scale_inf false a
  | Fin a, Fin b => overflow64 (a * b)
  end.

Definition fdiv (x y : float64) : float64 :=
  match x, y with
  | NaN, _ | _, NaN => NaN
  | PInf, Fin b => if Qltb b 0 then NInf else PInf
  | NInf, Fin b => if Qltb b 0 then PInf else NInf
  | PInf, _ | NInf, _ => NaN
  | Fin _, PInf | Fin _, NInf => Fin 0
  | Fin a, Fin b =>
      if Qeq_bool b 0 then scale_inf true a else overflow64 (a / b)
  end.

Definition fabs (x : float64) : float64 :=
  match x with
  | NaN => NaN
  | NInf | PInf => PInf
  | Fin a => if Qltb a 0 then Fin (- a) else Fin a
  end.

Definition is_nan (x : float64) : bool :=
  match x with NaN => true | _ => false end.

(** C's [fmin] and [fmax]: a NaN operand is dropped in favour of the other. *)
Definition fmin (x y : float64) : float64 :=
  if is_nan x then y else if is_nan y then x
  else if flt y x then y else x.

Definition fmax (x y : float64) : float64 :=
  if is_nan x then y else if is_nan y then x
  else if flt x y then y else x.

Definition f0 : float64 := Fin 0.
Definition f1 : float64 := Fin 1.

(** ** Constants of the module *)

(** [1.0e-10] as the compiler reads it: the binary64 number nearest to
    [10^-10], which is [7737125245533627 / 2^86]. *)
Definition DETERMINANT_EPS : float64 :=
  Fin (7737125245533627 # 77371252455336267181195264).
Definition INF : float64 := PInf.
Definition LEAF_SIZE : Z := 16.

(** ** Geometric value types ([float64[3]] arrays and the structs) *)

Record vec3 : Type := Vec3 { c0 : float64; c1 : float64; c2 : float64 }.

(** [v[i]] for an axis index [i] in 0..2. *)
Definition vget (v : vec3) (i : Z) : float64 :=
  if i =? 0 then c0 v else if i =? 1 then c1 v else c2 v.

Definition vset (v : vec3) (i : Z) (x : float64) : vec3 :=
  if i =? 0 then Vec3 x (c1 v) (c2 v)
  else if i =? 1 then Vec3 (c0 v) x (c2 v)
  else Vec3 (c0 v) (c1 v) x.

(** Modelled from the spec: the struct [BBox] of the module's declaration
    file, which is not under src/: [left_edge[3]] and [right_edge[3]]. *)
Record BBox : Type := mkBBox { left_edge : vec3; right_edge : vec3 }.

(** Modelled from the spec: the struct [Triangle] of the module's declaration
    file, which is not under src/, with the fields the module reads and
    writes. *)
Record Triangle : Type := mkTriangle {
  p0 : vec3;
  p1 : vec3;
  p2 : vec3;
  tri_elem_id : Z;
  centroid : vec3;
  tri_bbox : BBox
}.

(** Modelled from the spec: the struct [Ray] of the module's declaration
    file, which is not under src/, with the fields the module reads and
    writes. *)
Record Ray : Type := mkRay {
  origin : vec3;
  direction : vec3;
  inv_dir : vec3;
  data_val : float64;
  t_near : float64;
  t_far : float64;
  elem_id : Z;
  near_boundary : Z
}.

(** [ray.t_far = t; ray.elem_id = id]. *)
Definition set_hit (ray : Ray) (t : float64) (id : Z) : Ray :=
  mkRay (origin ray) (direction ray) (inv_dir ray) (data_val ray)
        (t_near ray) t id (near_boundary ray).

(** [ray.data_val = val; ray.near_boundary = -1]. *)
Definition set_sample (ray : Ray) (val : float64) : Ray :=
  mkRay (origin ray) (direction ray) (inv_dir ray) val
        (t_near ray) (t_far ray) (elem_id ray) (-1).

(** Modelled from the spec: [dot] of [vec3_ops], which the module imports
    and which is not under src/. *)
Definition dot (a b : vec3) : float64 :=
  fadd (fadd (fmul (c0 a) (c0 b)) (fmul (c1 a) (c1 b))) (fmul (c2 a) (c2 b)).

(** Modelled from the spec: [subtract] of [vec3_ops], not under src/; the
    source passes the result array as a third argument. *)
Definition subtract (a b : vec3) : vec3 :=
  Vec3 (fsub (c0 a) (c0 b)) (fsub (c1 a) (c1 b)) (fsub (c2 a) (c2 b)).

(** Modelled from the spec: [cross] of [vec3_ops], not under src/; the
    source passes the result array as a third argument. *)
Definition cross (a b : vec3) : vec3 :=
  Vec3 (fsub (fmul (c1 a) (c2 b)) (fmul (c2 a) (c1 b)))
       (fsub (fmul (c2 a) (c0 b)) (fmul (c0 a) (c2 b)))
       (fsub (fmul (c0 a) (c1 b)) (fmul (c1 a) (c0 b))).

(** ** Intersection kernels *)

(** [ray_triangle_intersect]: the ray is passed by pointer and updated in
    place; here the updated ray is returned next to the hit flag. *)
Definition ray_triangle_intersect (ray : Ray) (tri : Triangle) : bool * Ray :=
  let e1 := subtract (p1 tri) (p0 tri) in
  let e2 := subtract (p2 tri) (p0 tri) in
  let P := cross (direction ray) e2 in
  let det := dot e1 P in
  if fgt det (fneg DETERMINANT_EPS) && flt det DETERMINANT_EPS then (false, ray)
  else
    let inv_det := fdiv f1 det in
    let T := subtract (origin ray) (p0 tri) in
    let u := fmul (dot T P) inv_det in
    if flt u f0 || fgt u f1 then (false, ray)
    else
      let Q := cross T e1 in
      let v := fmul (dot (direction ray) Q) inv_det in
      if flt v f0 || fgt (fadd u v) f1 then (false, ray)
      else
        let t := fmul (dot e2 Q) inv_det in
        if fgt t DETERMINANT_EPS && flt t (t_far ray)
        then (true, set_hit ray t (tri_elem_id tri))
        else (false, ray).

(** The quantities of the Moeller-Trumbore test, as the function computes
    them. *)
Definition mt_e1 (tri : Triangle) : vec3 := subtract (p1 tri) (p0 tri).
Definition mt_e2 (tri : Triangle) : vec3 := subtract (p2 tri) (p0 tri).
Definition mt_P (ray : Ray) (tri : Triangle) : vec3 :=
  cross (direction ray) (mt_e2 tri).
Definition mt_T (ray : Ray) (tri : Triangle) : vec3 :=
  subtract (origin ray) (p0 tri).
Definition mt_Q (ray : Ray) (tri : Triangle) : vec3 :=
  cross (mt_T ray tri) (mt_e1 tri).
Definition mt_det (ray : Ray) (tri : Triangle) : float64 :=
  dot (mt_e1 tri) (mt_P ray tri).
Definition mt_inv_det (ray : Ray) (tri : Triangle) : float64 :=
  fdiv f1 (mt_det ray tri).
Definition mt_u (ray : Ray) (tri : Triangle) : float64 :=
  fmul (dot (mt_T ray tri) (mt_P ray tri)) (mt_inv_det ray tri).
Definition mt_v (ray : Ray) (tri : Triangle) : float64 :=
  fmul (dot (direction ray) (mt_Q ray tri)) (mt_inv_det ray tri).
Definition mt_t (ray : Ray) (tri : Triangle) : float64 :=
  fmul (dot (mt_e2 tri) (mt_Q ray tri)) (mt_inv_det ray tri).

(** One pass of the slab loop of [ray_bbox_intersect] for axis [i]. *)
Definition slab_step (ray : Ray) (bbox : BBox) (acc : float64 * float64)
  (i : Z) : float64 * float64 :=
  let '(tmin, tmax) := acc in
  let t1 := fmul (fsub (vget (left_edge bbox) i) (vget (origin ray) i))
                 (vget (inv_dir ray) i) in
  let t2 := fmul (fsub (vget (right_edge bbox) i) (vget (origin ray) i))
                 (vget (inv_dir ray) i) in
  (fmax tmin (fmin t1 t2), fmin tmax (fmax t1 t2)).

(** The interval [(tmin, tmax)] after the loop [for i in range(3)]. *)
Definition slab_interval (ray : Ray) (bbox : BBox) : float64 * float64 :=
  fold_left (slab_step ray bbox) [0; 1; 2] (fneg INF, INF).

Definition ray_bbox_intersect (ray : Ray) (bbox : BBox) : bool :=
  let '(tmin, tmax) := slab_interval ray bbox in
  fge tmax (fmax tmin f0).

(** ** Raw arrays *)

(** [a[i]] on a C array of known allocation size. *)
Definition aget {A : Type} (a : list A) (i : Z) : result A :=
  if i <? 0 then Err OutOfBounds
  else match nth_error a (Z.to_nat i) with
       | Some x => Ok x
       | None => Err OutOfBounds
       end.

Fixpoint put {A : Type} (a : list A) (n : nat) (x : A) : list A :=
  match a with
  | [] => []
  | y :: a' => match n with
               | O => x :: a'
               | S n' => y :: put a' n' x
               end
  end.

(** [a[i] = x]. *)
Definition aset {A : Type} (a : list A) (i : Z) (x : A) : result (list A) :=
  if (i <? 0) || (Z.of_nat (length a) <=? i) then Err OutOfBounds
  else Ok (put a (Z.to_nat i) x).

(** The indices of [range(a, b)]. *)
Definition zrange (a b : Z) : list Z :=
  map (fun k => a + Z.of_nat k) (seq 0 (Z.to_nat (b - a))).

(** ** The tree *)

(** Modelled from the spec: the struct [BVHNode] of the module's declaration
    file, which is not under src/: [begin], [end], the box and the two child
    pointers.  A pointer that was never assigned is [None]. *)
#[warnings="-register-all"] Inductive BVHNode : Type :=
| mkNode (nbegin nend : Z) (nbbox : BBox) (nleft nright : option BVHNode).

Definition node_begin (n : BVHNode) : Z :=
  match n with mkNode b _ _ _ _ => b end.
Definition node_end (n : BVHNode) : Z :=
  match n with mkNode _ e _ _ _ => e end.
Definition node_bbox (n : BVHNode) : BBox :=
  match n with mkNode _ _ bb _ _ => bb end.
Definition node_left (n : BVHNode) : option BVHNode :=
  match n with mkNode _ _ _ l _ => l end.
Definition node_right (n : BVHNode) : option BVHNode :=
  match n with mkNode _ _ _ _ r => r end.

(** All nodes of a tree, the root first. *)
Fixpoint nodes_of (n : BVHNode) : list BVHNode :=
  match n with
  | mkNode _ _ _ l r =>
      n :: (match l with Some ln => nodes_of ln | None => [] end)
        ++ (match r with Some rn => nodes_of rn | None => [] end)
  end.

(** ** The builder *)

(** The loop of [BVH._partition]; [fuel] bounds the number of passes. *)
Fixpoint _partition_loop (fuel : nat) (triangles : list Triangle)
  (mid begin end_ ax : Z) (split : float64) : result (list Triangle * Z) :=
  match fuel with
  | O => Err OutOfFuel
  | S fuel' =>
      if begin =? end_ then Ok (triangles, mid)
      else
        do tm <- aget triangles mid;
        if fgt (vget (centroid tm) ax) split then
          _partition_loop fuel' triangles (mid + 1) (begin + 1) end_ ax split
        else
          do tb <- aget triangles begin;
          if fgt (vget (centroid tb) ax) split then
            do t1 <- aset triangles mid tb;
            do t2 <- aset t1 begin tm;
            _partition_loop fuel' t2 (mid + 1) (begin + 1) end_ ax split
          else
            _partition_loop fuel' triangles mid (begin + 1) end_ ax split
  end.

Definition _partition (triangles : list Triangle) (begin end_ ax : Z)
  (split : float64) : result (list Triangle * Z) :=
  _partition_loop (S (Z.to_nat (end_ - begin))) triangles begin begin end_ ax split.

(** The body of the inner loop [for j in range(3)] of [_get_node_bbox]. *)
Definition grow_axis (tb : BBox) (box : BBox) (j : Z) : BBox :=
  let box1 := mkBBox (vset (left_edge box) j
                        (fmin (vget (left_edge box) j) (vget (left_edge tb) j)))
                     (right_edge box) in
  mkBBox (left_edge box1)
         (vset (right_edge box1) j
            (fmax (vget (right_edge box1) j) (vget (right_edge tb) j))).

Definition grow_box (triangles : list Triangle) (acc : result BBox) (i : Z)
  : result BBox :=
  do box <- acc;
  do t <- aget triangles i;
  Ok (fold_left (grow_axis (tri_bbox t)) [0; 1; 2] box).

(** [BVH._get_node_bbox]: the box that is stored in the node. *)
Definition _get_node_bbox (triangles : list Triangle) (begin end_ : Z)
  : result BBox :=
  do t <- aget triangles begin;
  fold_left (grow_box triangles) (zrange (begin + 1) end_) (Ok (tri_bbox t)).

(** The choice of the split axis in [_recursive_build]. *)
Definition split_axis (bbox : BBox) : Z :=
  let ax := 0 in
  let d := fabs (fsub (vget (right_edge bbox) 0) (vget (left_edge bbox) 0)) in
  let ax :=
    if fgt (fabs (fsub (vget (right_edge bbox) 1) (vget (left_edge bbox) 1))) d
    then 1 else ax in
  let ax :=
    if fgt (fabs (fsub (vget (right_edge bbox) 2) (vget (left_edge bbox) 2))) d
    then 2 else ax in
  ax.

(** The boundary after the degenerate-partition test of [_recursive_build]. *)
Definition fix_mid (begin end_ mid : Z) : Z :=
  if (mid =? begin) || (mid =? end_) then begin + Z.quot (end_ - begin) 2
  else mid.

(** [BVH._recursive_build]: the triangle array is threaded through, the
    recursion is bounded by [fuel]. *)
Fixpoint _recursive_build_fuel (fuel : nat) (triangles : list Triangle)
  (begin end_ : Z) : result (list Triangle * BVHNode) :=
  match fuel with
  | O => Err OutOfFuel
  | S fuel' =>
      do bbox <- _get_node_bbox triangles begin end_;
      if end_ - begin <=? LEAF_SIZE then
        Ok (triangles, mkNode begin end_ bbox None None)
      else
        let ax := split_axis bbox in
        let split := fmul (Fin (1 # 2))
                          (fadd (vget (right_edge bbox) ax)
                                (vget (left_edge bbox) ax)) in
        do (tris1, mid0) <- _partition triangles begin end_ ax split;
        let mid := fix_mid begin end_ mid0 in
        do (tris2, l) <- _recursive_build_fuel fuel' tris1 begin mid;
        do (tris3, r) <- _recursive_build_fuel fuel' tris2 mid end_;
        Ok (tris3, mkNode begin end_ bbox (Some l) (Some r))
  end.

Definition _recursive_build (triangles : list Triangle) (begin end_ : Z)
  : result (list Triangle * BVHNode) :=
  _recursive_build_fuel (S (Z.to_nat (end_ - begin))) triangles begin end_.

(** ** Traversal *)

(** The leaf loop of [_recursive_intersect]: every triangle of the range is
    tested, the hit flag is dropped. *)
Definition leaf_step (triangles : list Triangle) (acc : result Ray) (i : Z)
  : result Ray :=
  do ray <- acc;
  do tri <- aget triangles i;
  Ok (snd (ray_triangle_intersect ray tri)).

Fixpoint _recursive_intersect (triangles : list Triangle) (ray : Ray)
  (node : BVHNode) : result Ray :=
  match node with
  | mkNode b e bbox l r =>
      if negb (ray_bbox_intersect ray bbox) then Ok ray
      else if e - b <=? LEAF_SIZE then
        fold_left (leaf_step triangles) (zrange b e) (Ok ray)
      else
        match l, r with
        | Some ln, Some rn =>
            do ray1 <- _recursive_intersect triangles ray ln;
            _recursive_intersect triangles ray1 rn
        | Some ln, None =>
            do ray1 <- _recursive_intersect triangles ray ln;
            Err OutOfBounds
        | None, _ => Err OutOfBounds
        end
  end.

(** ** The BVH object, the sampler and the driver *)

(** The three samplers the module instantiates: [Q1Sampler3D], [P1Sampler3D]
    and [W1Sampler3D] of [element_mappings]. *)
Inductive ElementSampler : Type := Q1Sampler | P1Sampler | W1Sampler.

(** Modelled from the spec: the attributes of the class [BVH], declared in
    the module's declaration file, which is not under src/. *)
Record BVH : Type := mkBVH {
  root : BVHNode;
  vertices : list float64;
  field_data : list float64;
  triangles : list Triangle;
  num_elem : Z;
  num_tri : Z;
  num_tri_per_elem : Z;
  num_verts_per_elem : Z;
  sampler : option ElementSampler
}.

(** One call of [sample_at_real_point]: the sampler and its three arguments. *)
Record SamplerCall : Type := mkCall {
  call_sampler : ElementSampler;
  call_vertex_ptr : list float64;
  call_field_ptr : list float64;
  call_position : vec3
}.

(** A two-dimensional typed memoryview. *)
Record mview (A : Type) : Type := mkView {
  shape0 : Z;
  shape1 : Z;
  rows : list (list A)
}.

Arguments mkView {A} shape0 shape1 rows.
Arguments shape0 {A} m.
Arguments shape1 {A} m.
Arguments rows {A} m.

Definition mget {A : Type} (m : mview A) (i j : Z) : result A :=
  do row <- aget (rows m) i; aget row j.

(** [for i in range(n)] collecting one result per pass. *)
Fixpoint for_each {A B : Type} (f : A -> result (list B)) (l : list A)
  : result (list B) :=
  match l with
  | [] => Ok []
  | x :: l' => do ys <- f x; do rest <- for_each f l'; Ok (ys ++ rest)
  end.

(** The range of C [int]. *)
Definition INT_MIN : Z := - 2 ^ 31.
Definition INT_MAX : Z := 2 ^ 31 - 1.

(** A value computed in [int]; outside the range of [int] the behaviour is
    undefined. *)
Definition cint (z : Z) : result Z :=
  if (INT_MIN <=? z) && (z <=? INT_MAX) then Ok z else Err IntOverflow.

(** [origins[N*j + i]], the index computed in [int] as [cast_rays] does
    with its [int N], [i] and [j]. *)
Definition oget (origins : list float64) (N j i : Z) : result float64 :=
  do m <- cint (N * j);
  do k <- cint (m + i);
  aget origins k.

Section Engine.

(** [sample_at_real_point] of the element samplers of [element_mappings],
    which is not under src/. *)
Variable sample_at_real_point :
  ElementSampler -> list float64 -> list float64 -> vec3 -> float64.

(** The constants and tables of [mesh_construction.h], which is not under
    src/. *)
Variables HEX_NT TETRA_NT WEDGE_NT : Z.
Variables triangulate_hex triangulate_tetra triangulate_wedge : list (list Z).

(** [BVH.intersect]; the second component lists the sampler calls made. *)
Definition intersect (bvh : BVH) (ray : Ray)
  : result (Ray * list SamplerCall) :=
  do ray1 <- _recursive_intersect (triangles bvh) ray (root bvh);
  if elem_id ray1 <? 0 then Ok (ray1, [])
  else
    let position :=
      Vec3 (fadd (c0 (origin ray1)) (fmul (t_far ray1) (c0 (direction ray1))))
           (fadd (c1 (origin ray1)) (fmul (t_far ray1) (c1 (direction ray1))))
           (fadd (c2 (origin ray1)) (fmul (t_far ray1) (c2 (direction ray1)))) in
    let vertex_ptr :=
      skipn (Z.to_nat (elem_id ray1 * num_verts_per_elem bvh * 3))
            (vertices bvh) in
    let field_ptr :=
      skipn (Z.to_nat (elem_id ray1 * num_verts_per_elem bvh))
            (field_data bvh) in
    match sampler bvh with
    | None => Err OutOfBounds
    | Some s =>
        Ok (set_sample ray1
              (sample_at_real_point s vertex_ptr field_ptr position),
            [mkCall s vertex_ptr field_ptr position])
    end.

(** The ray as [cast_rays] sets it up for pixel [i]; [ray] is the worker's
    ray struct as the previous pass left it. *)
Definition setup_ray (ray : Ray) (origins : list float64) (N i : Z)
  : result Ray :=
  do o0 <- oget origins N 0 i;
  do o1 <- oget origins N 1 i;
  do o2 <- oget origins N 2 i;
  Ok (mkRay (Vec3 o0 o1 o2) (direction ray) (inv_dir ray) f0 f0 INF (-1)
            (near_boundary ray)).

(** One pass of the loop of [cast_rays]. *)
Definition cast_step (bvh : BVH) (origins : list float64) (N : Z)
  (acc : result (Ray * list float64 * list SamplerCall)) (i : Z)
  : result (Ray * list float64 * list SamplerCall) :=
  do (ray, image, calls) <- acc;
  do ray1 <- setup_ray ray origins N i;
  do (ray2, made) <- intersect bvh ray1;
  do image1 <- aset image i (data_val ray2);
  Ok (ray2, image1, calls ++ made).

(** [cast_rays], one worker: [fresh] is the ray struct as allocated. *)
Definition cast_rays (fresh : Ray) (image origins direction : list float64)
  (N : Z) (bvh : BVH) : result (list float64 * list SamplerCall) :=
  do d0 <- aget direction 0;
  do d1 <- aget direction 1;
  do d2 <- aget direction 2;
  let ray := mkRay (origin fresh) (Vec3 d0 d1 d2)
                   (Vec3 (fdiv f1 d0) (fdiv f1 d1) (fdiv f1 d2))
                   (data_val fresh) (t_near fresh) (t_far fresh)
                   (elem_id fresh) (near_boundary fresh) in
  do (_, image1, calls) <-
     fold_left (cast_step bvh origins N) (zrange 0 N) (Ok (ray, image, []));
  Ok (image1, calls).

(** The triangle [j] of element [i] as [__cinit__] fills it in. *)
Definition make_triangle (verts : mview float64) (indices : mview Z)
  (tri_array : list (list Z)) (i j : Z) : result Triangle :=
  do row <- aget tri_array j;
  do k0 <- aget row 0;
  do k1 <- aget row 1;
  do k2 <- aget row 2;
  do v0 <- mget indices i k0;
  do v1 <- mget indices i k1;
  do v2 <- mget indices i k2;
  do a0 <- mget verts v0 0; do a1 <- mget verts v0 1; do a2 <- mget verts v0 2;
  do b0 <- mget verts v1 0; do b1 <- mget verts v1 1; do b2 <- mget verts v1 2;
  do d0 <- mget verts v2 0; do d1 <- mget verts v2 1; do d2 <- mget verts v2 2;
  let third x y z := fdiv (fadd (fadd x y) z) (Fin 3) in
  let lo x y z := fmin (fmin x y) z in
  let hi x y z := fmax (fmax x y) z in
  Ok (mkTriangle (Vec3 a0 a1 a2) (Vec3 b0 b1 b2) (Vec3 d0 d1 d2) i
        (Vec3 (third a0 b0 d0) (third a1 b1 d1) (third a2 b2 d2))
        (mkBBox (Vec3 (lo a0 b0 d0) (lo a1 b1 d1) (lo a2 b2 d2))
                (Vec3 (hi a0 b0 d0) (hi a1 b1 d1) (hi a2 b2 d2)))).

(** The loop of [__cinit__] that fills the array of triangles. *)
Definition fill_triangles (verts : mview float64) (indices : mview Z)
  (tri_array : list (list Z)) (num_elem num_tri_per_elem : Z)
  : result (list Triangle) :=
  for_each (fun i =>
    for_each (fun j =>
      do t <- make_triangle verts indices tri_array i j; Ok [t])
      (zrange 0 num_tri_per_elem))
    (zrange 0 num_elem).

(** [BVH.__cinit__].  The attributes of a fresh object are zero, so
    [num_tri_per_elem] is 0 and [sampler] is unset unless a branch assigns
    them; the local [tri_array] is then never read.  The source fills the
    field buffer and the vertex buffer in one pass over the elements; the two
    buffers are independent and are built here one after the other. *)
Definition __cinit__ (verts : mview float64) (indices : mview Z)
  (fdata : mview float64) : result BVH :=
  let num_elem := shape0 indices in
  let num_verts_per_elem := shape1 indices in
  let '(num_tri_per_elem, tri_array, smp) :=
    if num_verts_per_elem =? 8 then (HEX_NT, triangulate_hex, Some Q1Sampler)
    else if num_verts_per_elem =? 6 then
           (WEDGE_NT, triangulate_wedge, Some W1Sampler)
    else if num_verts_per_elem =? 4 then
           (TETRA_NT, triangulate_tetra, Some P1Sampler)
    else (0, [], None) in
  let num_tri := num_tri_per_elem * num_elem in
  do field_buf <-
     for_each (fun i =>
       for_each (fun j => do x <- mget fdata i j; Ok [x])
                (zrange 0 num_verts_per_elem))
       (zrange 0 num_elem);
  do vertex_buf <-
     for_each (fun i =>
       for_each (fun j =>
         do v <- mget indices i j;
         for_each (fun k => do x <- mget verts v k; Ok [x]) (zrange 0 3))
         (zrange 0 num_verts_per_elem))
       (zrange 0 num_elem);
  do tris <- fill_triangles verts indices tri_array num_elem num_tri_per_elem;
  do (tris1, node) <- _recursive_build tris 0 num_tri;
  Ok (mkBVH node vertex_buf field_buf tris1 num_elem num_tri
            num_tri_per_elem num_verts_per_elem smp).

End Engine.

(** ** A small mesh

    A box with corners (0,0,0) and (1,3,2) cut into five tetrahedra; vertex
    [i + 2j + 4k] is the corner [(i, 3j, 2k)]. *)

Definition fz (x : Z) : float64 := Fin (inject_Z x).

Definition box_vertices : mview float64 :=
  mkView 8 3
    [ [fz 0; fz 0; fz 0]; [fz 1; fz 0; fz 0]; [fz 0; fz 3; fz 0];
      [fz 1; fz 3; fz 0]; [fz 0; fz 0; fz 2]; [fz 1; fz 0; fz 2];
      [fz 0; fz 3; fz 2]; [fz 1; fz 3; fz 2] ].

Definition box_tets : mview Z :=
  mkView 5 4 [ [0; 1; 2; 4]; [1; 3; 2; 7]; [1; 4; 5; 7]; [2; 4; 6; 7];
               [1; 2; 4; 7] ].

Definition box_field : mview float64 :=
  mkView 5 4 [ [fz 0; fz 1; fz 2; fz 4]; [fz 1; fz 3; fz 2; fz 7];
               [fz 1; fz 4; fz 5; fz 7]; [fz 2; fz 4; fz 6; fz 7];
               [fz 1; fz 2; fz 4; fz 7] ].

(** The four faces of a tetrahedron, as local vertex triples. *)
Definition tetra_faces : list (list Z) :=
  [ [0; 1; 3]; [2; 3; 1]; [0; 3; 2]; [0; 2; 1] ].

(** The twenty triangles of the box mesh, in the order [__cinit__] stores
    them. *)
Definition box_triangles : list Triangle :=
  Eval vm_compute in
    match fill_triangles box_vertices box_tets tetra_faces 5 4 with
    | Ok l => l
    | Err _ => []
    end.

(** A sampler that returns the first field value it is handed. *)
Definition first_value (s : ElementSampler) (vertex_ptr field_ptr : list float64)
  (position : vec3) : float64 :=
  match field_ptr with
  | x :: _ => x
  | [] => f0
  end.

(** [__cinit__] with the tetrahedron table above; the other two tables are
    not consulted for this mesh and are left empty. *)
Definition box_cinit (verts : mview float64) (indices : mview Z)
  (fdata : mview float64) : result BVH :=
  __cinit__ 12 4 8 [] tetra_faces [] verts indices fdata.

(** A triangle in the plane [z = 0] with centroid [(x, 1, 0)]. *)
Definition flat_triangle (x id : Z) : Triangle :=
  mkTriangle (Vec3 (fz (x - 1)) (fz 0) (fz 0))
             (Vec3 (fz (x + 1)) (fz 0) (fz 0))
             (Vec3 (fz x) (fz 3) (fz 0))
             id
             (Vec3 (fz x) (fz 1) (fz 0))
             (mkBBox (Vec3 (fz (x - 1)) (fz 0) (fz 0))
                     (Vec3 (fz (x + 1)) (fz 3) (fz 0))).

(** One element with five vertices: not a supported topology. *)
Definition pyramid_indices : mview Z := mkView 1 5 [ [0; 1; 3; 2; 4] ].

Definition pyramid_field : mview float64 :=
  mkView 1 5 [ [fz 0; fz 1; fz 3; fz 2; fz 4] ].

(** The array and the tree the builder returns for the box mesh. *)
Definition box_built : list Triangle * BVHNode :=
  Eval vm_compute in
    match _recursive_build box_triangles 0 20 with
    | Ok x => x
    | Err _ => ([], mkNode 0 0 (mkBBox (Vec3 f0 f0 f0) (Vec3 f0 f0 f0)) None None)
    end.

(** The BVH that [__cinit__] returns for the box mesh. *)
Definition box_bvh : BVH :=
  Eval vm_compute in
    match box_cinit box_vertices box_tets box_field with
    | Ok bvh => bvh
    | Err _ =>
        mkBVH (mkNode 0 0 (mkBBox (Vec3 f0 f0 f0) (Vec3 f0 f0 f0)) None None)
              [] [] [] 0 0 0 0 None
    end.

(** A worker's ray struct with the direction (0, 0, 1) set, and a pixel
    whose origin (5, 5, 5) lies outside the box. *)
Definition upward_ray : Ray :=
  mkRay (Vec3 f0 f0 f0) (Vec3 f0 f0 f1)
        (Vec3 (fdiv f1 f0) (fdiv f1 f0) (fdiv f1 f1)) f0 f0 f0 0 0.

Definition outside_origins : list float64 := [fz 5; fz 5; fz 5].

(** ** Vocabulary for the intersection kernels *)

Definition non_nan (x : float64) : Prop := x <> NaN.

(** A finite value. *)
Definition is_fin (x : float64) : Prop :=
  match x with Fin _ => True | _ => False end.

(** The distance at which the ray meets the plane of [edge] on axis [i]. *)
Definition slab_t (ray : Ray) (edge : vec3) (i : Z) : float64 :=
  fmul (fsub (vget edge i) (vget (origin ray) i)) (vget (inv_dir ray) i).

(** Entry and exit distance of the ray for the slab of axis [i]. *)
Definition slab_entry (ray : Ray) (bbox : BBox) (i : Z) : float64 :=
  fmin (slab_t ray (left_edge bbox) i) (slab_t ray (right_edge bbox) i).

Definition slab_exit (ray : Ray) (bbox : BBox) (i : Z) : float64 :=
  fmax (slab_t ray (left_edge bbox) i) (slab_t ray (right_edge bbox) i).

(** [t] lies in the slab interval of axis [i]; a bound that is NaN does not
    constrain. *)
Definition in_slab (ray : Ray) (bbox : BBox) (i : Z) (t : float64) : bool :=
  (is_nan (slab_entry ray bbox i) || fle (slab_entry ray bbox i) t)
  && (is_nan (slab_exit ray bbox i) || fle t (slab_exit ray bbox i)).

(** The test the function performs, as one boolean. *)
Definition mt_accepts (ray : Ray) (tri : Triangle) : bool :=
  negb (fgt (mt_det ray tri) (fneg DETERMINANT_EPS)
        && flt (mt_det ray tri) DETERMINANT_EPS)
  && negb (flt (mt_u ray tri) f0 || fgt (mt_u ray tri) f1)
  && negb (flt (mt_v ray tri) f0
           || fgt (fadd (mt_u ray tri) (mt_v ray tri)) f1)
  && (fgt (mt_t ray tri) DETERMINANT_EPS && flt (mt_t ray tri) (t_far ray)).

(** ** Vocabulary for the tree invariants *)

Definition node_size (n : BVHNode) : Z := node_end n - node_begin n.

(** A node without children. *)
Definition is_leaf (n : BVHNode) : Prop :=
  node_left n = None /\ node_right n = None.

(** Two children whose ranges split the range of [n] at one boundary. *)
Definition splits_range (n : BVHNode) : Prop :=
  exists l r,
    node_left n = Some l /\ node_right n = Some r /\
    node_begin l = node_begin n /\
    node_end l = node_begin r /\
    node_end r = node_end n.

(** The children of [n] are non-empty and strictly smaller than [n]. *)
Definition children_shrink (n : BVHNode) : Prop :=
  forall c, node_left n = Some c \/ node_right n = Some c ->
            0 < node_size c < node_size n.

(** What the builder establishes at each node. *)
Definition node_ok (n : BVHNode) : Prop :=
  (node_size n <= LEAF_SIZE -> is_leaf n) /\
  (LEAF_SIZE < node_size n -> splits_range n /\ children_shrink n).

(** ** Vocabulary for the traversal *)

(** [r'] is [r] up to the hit record [(t_far, elem_id)]. *)
Definition same_query (r r' : Ray) : Prop :=
  origin r' = origin r /\ direction r' = direction r /\
  inv_dir r' = inv_dir r /\ data_val r' = data_val r /\
  t_near r' = t_near r /\ near_boundary r' = near_boundary r.

Definition on_child (P : BVHNode -> Prop) (c : option BVHNode) : Prop :=
  match c with
  | Some n => P n
  | None => True
  end.

(** Induction over a tree: a property that passes from the children that
    are set to their node holds of every node. *)
Fixpoint BVHNode_tree_ind (P : BVHNode -> Prop)
  (step : forall b e bb l r,
      on_child P l -> on_child P r -> P (mkNode b e bb l r))
  (n : BVHNode) : P n :=
  match n with
  | mkNode b e bb l r =>
      step b e bb l r
        (match l as c return on_child P c with
         | Some ln => BVHNode_tree_ind P step ln
         | None => I
         end)
        (match r as c return on_child P c with
         | Some rn => BVHNode_tree_ind P step rn
         | None => I
         end)
  end.

(** ** The destructor *)

(** [BVH._recursive_free]: the nodes handed to [free], in the order of the
    calls.  The children of a node are followed when its range is larger than
    [LEAF_SIZE]; a child pointer that was never assigned cannot be
    followed. *)
Fixpoint _recursive_free (node : BVHNode) : result (list BVHNode) :=
  match node with
  | mkNode b e bbox l r =>
      if LEAF_SIZE <? e - b then
        match l, r with
        | Some ln, Some rn =>
            do fl <- _recursive_free ln;
            do fr <- _recursive_free rn;
            Ok (fl ++ fr ++ [node])
        | Some ln, None =>
            do fl <- _recursive_free ln;
            Err OutOfBounds
        | None, _ => Err OutOfBounds
        end
      else Ok [node]
  end.

(** ** Vocabulary for the array of triangles and the boxes *)

(** Every triangle in the cells [b, e) of the array satisfies [P]. *)
Definition range_all (P : Triangle -> Prop) (tris : list Triangle) (b e : Z)
  : Prop :=
  forall i t, b <= i < e -> aget tris i = Ok t -> P t.

(** Every triangle in the cells [b, e) of [tris'] is in the cells [b, e) of
    [tris]. *)
Definition range_from (tris tris' : list Triangle) (b e : Z) : Prop :=
  forall i t, b <= i < e -> aget tris' i = Ok t ->
              exists i', b <= i' < e /\ aget tris i' = Ok t.

(** No coordinate of the vector, or of the box, is NaN. *)
Definition vec_real (v : vec3) : Prop :=
  non_nan (c0 v) /\ non_nan (c1 v) /\ non_nan (c2 v).

Definition box_real (box : BBox) : Prop :=
  vec_real (left_edge box) /\ vec_real (right_edge box).

(** [a <= b] in every coordinate. *)
Definition vec_le (a b : vec3) : bool :=
  fle (c0 a) (c0 b) && fle (c1 a) (c1 b) && fle (c2 a) (c2 b).

(** The box [inner] lies in the box [outer]. *)
Definition box_inside (inner outer : BBox) : bool :=
  vec_le (left_edge outer) (left_edge inner)
  && vec_le (right_edge inner) (right_edge outer).

(** The point [p] lies in the box. *)
Definition point_inside (p : vec3) (box : BBox) : bool :=
  vec_le (left_edge box) p && vec_le p (right_edge box).

(** The smallest box around two boxes, coordinate by coordinate. *)
Definition box_union (box tb : BBox) : BBox :=
  mkBBox (Vec3 (fmin (c0 (left_edge box)) (c0 (left_edge tb)))
               (fmin (c1 (left_edge box)) (c1 (left_edge tb)))
               (fmin (c2 (left_edge box)) (c2 (left_edge tb))))
         (Vec3 (fmax (c0 (right_edge box)) (c0 (right_edge tb)))
               (fmax (c1 (right_edge box)) (c1 (right_edge tb)))
               (fmax (c2 (right_edge box)) (c2 (right_edge tb)))).

(** Each coordinate of [box] is that coordinate of the box of a triangle in
    one of the cells [idxs]. *)
Definition attained (tris : list Triangle) (idxs : list Z) (box : BBox)
  : Prop :=
  forall j,
    (exists i t, In i idxs /\ aget tris i = Ok t /\
                 vget (left_edge box) j = vget (left_edge (tri_bbox t)) j) /\
    (exists i t, In i idxs /\ aget tris i = Ok t /\
                 vget (right_edge box) j = vget (right_edge (tri_bbox t)) j).

(** The hit record of [ray'] is that of [ray], or a hit closer than the
    [t_far] of [ray] on a triangle of the array. *)
Definition hit_from (tris : list Triangle) (ray ray' : Ray) : Prop :=
  same_query ray ray' /\
  ((t_far ray' = t_far ray /\ elem_id ray' = elem_id ray) \/
   (exists tri,
      In tri tris /\
      t_far ray' = mt_t ray tri /\ elem_id ray' = tri_elem_id tri /\
      flt DETERMINANT_EPS (t_far ray') = true /\
      flt (t_far ray') (t_far ray) = true)).

(** The nodes are sound for an array of [len] triangles: each is as the
    builder leaves it and its range lies in the array. *)
Definition tree_ok (len : Z) (n : BVHNode) : Prop :=
  Forall (fun m => node_ok m /\ 0 <= node_begin m /\ node_end m <= len)
         (nodes_of n).

(** The ray that [cast_rays] sets up for a pixel with origin (1/4, 1/2, -1)
    and the direction (0, 0, 1), towards the box mesh. *)
Definition box_ray : Ray :=
  mkRay (Vec3 (Fin (1 # 4)) (Fin (1 # 2)) (Fin (-1))) (Vec3 f0 f0 f1)
        (Vec3 (fdiv f1 f0) (fdiv f1 f0) (fdiv f1 f1)) f0 f0 INF (-1) 0.

(** The ray after the walk through the tree of the box mesh. *)
Definition box_ray_walked : Ray :=
  Eval vm_compute in
    match _recursive_intersect (triangles box_bvh) box_ray (root box_bvh) with
    | Ok r => r
    | Err _ => box_ray
    end.

(** ** Vocabulary for the driver *)

(** [ray] with another value in [near_boundary]. *)
Definition with_near_boundary (ray : Ray) (nb : Z) : Ray :=
  mkRay (origin ray) (direction ray) (inv_dir ray) (data_val ray)
        (t_near ray) (t_far ray) (elem_id ray) nb.

(** The ray of a pixel with origin [o], for the direction [d] and the
    reciprocal direction [inv], as the loop of [cast_rays] sets it up. *)
Definition pixel_ray (o d inv : vec3) : Ray :=
  mkRay o d inv f0 f0 INF (-1) 0.

(** The value of pixel [i] computed on its own: the ray of the pixel is set
    up from the origins and the direction, handed to [intersect], and its
    [data_val] is read. *)
Definition pixel_value
  (sample : ElementSampler -> list float64 -> list float64 -> vec3 -> float64)
  (bvh : BVH) (origins direction : list float64) (N i : Z) : result float64 :=
  do d0 <- aget direction 0;
  do d1 <- aget direction 1;
  do d2 <- aget direction 2;
  do o0 <- oget origins N 0 i;
  do o1 <- oget origins N 1 i;
  do o2 <- oget origins N 2 i;
  do (ray2, _) <-
     intersect sample bvh
       (pixel_ray (Vec3 o0 o1 o2) (Vec3 d0 d1 d2)
                  (Vec3 (fdiv f1 d0) (fdiv f1 d1) (fdiv f1 d2)));
  Ok (data_val ray2).

(** A sampler that returns the fourth field value it is handed. *)
Definition fourth_value (s : ElementSampler)
  (vertex_ptr field_ptr : list float64) (position : vec3) : float64 :=
  nth 3 field_ptr f0.

(** The origins of two pixels, (1/4, 1/2, -1) and (5, 5, 5), laid out as
    [cast_rays] reads them, and what [cast_rays] returns for them on the box
    mesh with the direction (0, 0, 1). *)
Definition two_origins : list float64 :=
  [Fin (1 # 4); fz 5; Fin (1 # 2); fz 5; Fin (-1); fz 5].

Definition box_cast : list float64 * list SamplerCall :=
  Eval vm_compute in
    match cast_rays fourth_value upward_ray [fz 9; fz 9] two_origins
                    [f0; f0; f1] 2 box_bvh with
    | Ok x => x
    | Err _ => ([], [])
    end.

(** ** Vocabulary for the constructor *)

(** The third of the sum of three coordinates. *)
Definition third (x y z : float64) : float64 :=
  fdiv (fadd (fadd x y) z) (Fin 3).

(** A triangle as [__cinit__] fills it in: the centroid is the mean of the
    three vertices, and the box is spanned by their smallest and greatest
    coordinates. *)
Definition triangle_filled (t : Triangle) : Prop :=
  centroid t = Vec3 (third (c0 (p0 t)) (c0 (p1 t)) (c0 (p2 t)))
                    (third (c1 (p0 t)) (c1 (p1 t)) (c1 (p2 t)))
                    (third (c2 (p0 t)) (c2 (p1 t)) (c2 (p2 t))) /\
  tri_bbox t =
  mkBBox (Vec3 (fmin (fmin (c0 (p0 t)) (c0 (p1 t))) (c0 (p2 t)))
               (fmin (fmin (c1 (p0 t)) (c1 (p1 t))) (c1 (p2 t)))
               (fmin (fmin (c2 (p0 t)) (c2 (p1 t))) (c2 (p2 t))))
         (Vec3 (fmax (fmax (c0 (p0 t)) (c0 (p1 t))) (c0 (p2 t)))
               (fmax (fmax (c1 (p0 t)) (c1 (p1 t))) (c1 (p2 t)))
               (fmax (fmax (c2 (p0 t)) (c2 (p1 t))) (c2 (p2 t)))).

(** No vertex coordinate of the triangle is NaN. *)
Definition triangle_real (t : Triangle) : Prop :=
  vec_real (p0 t) /\ vec_real (p1 t) /\ vec_real (p2 t).

(** No entry of the memoryview is NaN. *)
Definition mview_real (m : mview float64) : Prop :=
  Forall (Forall non_nan) (rows m).

(** The parts of a BVH fit together: the tree is sound for the array of
    triangles, every triangle carries the id of an element, the two buffers
    hold the data of every element, and a sampler is set. *)
Definition bvh_ok (bvh : BVH) : Prop :=
  tree_ok (Z.of_nat (length (triangles bvh))) (root bvh) /\
  Forall (fun t => 0 <= tri_elem_id t < num_elem bvh) (triangles bvh) /\
  0 < num_verts_per_elem bvh /\
  Z.of_nat (length (field_data bvh))
  = num_elem bvh * num_verts_per_elem bvh /\
  Z.of_nat (length (vertices bvh))
  = num_elem bvh * num_verts_per_elem bvh * 3 /\
  exists s, sampler bvh = Some s.

(** The pointers of a sampler call address the data of one whole element
    inside the two buffers. *)
Definition call_ok (bvh : BVH) (c : SamplerCall) : Prop :=
  exists id,
    0 <= id < num_elem bvh /\
    call_field_ptr c
    = skipn (Z.to_nat (id * num_verts_per_elem bvh)) (field_data bvh) /\
    call_vertex_ptr c
    = skipn (Z.to_nat (id * num_verts_per_elem bvh * 3)) (vertices bvh) /\
    num_verts_per_elem bvh <= Z.of_nat (length (call_field_ptr c)) /\
    3 * num_verts_per_elem bvh <= Z.of_nat (length (call_vertex_ptr c)).

(** ** Vocabulary for the cells the walk visits *)

(** The cells of the array of triangles under a node, in the order in which
    a walk without box tests would scan them. *)
Fixpoint all_cells (node : BVHNode) : list Z :=
  match node with
  | mkNode b e bbox l r =>
      if e - b <=? LEAF_SIZE then zrange b e
      else (match l with Some ln => all_cells ln | None => [] end)
           ++ (match r with Some rn => all_cells rn | None => [] end)
  end.

(** The cells the walk of [ray] scans: those of the leaves it reaches
    through nodes whose boxes pass the box test. *)
Fixpoint scanned_cells (ray : Ray) (node : BVHNode) : list Z :=
  match node with
  | mkNode b e bbox l r =>
      if negb (ray_bbox_intersect ray bbox) then []
      else if e - b <=? LEAF_SIZE then zrange b e
      else (match l with Some ln => scanned_cells ray ln | None => [] end)
           ++ (match r with Some rn => scanned_cells ray rn | None => [] end)
  end.

(** ** Vocabulary for the geometry of the kernels *)

(** Two finite numbers with the same value. *)
Definition feq (x y : float64) : bool :=
  match x, y with
  | Fin a, Fin b => Qeq_bool a b
  | _, _ => false
  end.

(** The point of the ray at distance [t], [origin + t * direction], as
    [intersect] computes the position it hands to the sampler. *)
Definition ray_point (ray : Ray) (t : float64) : vec3 :=
  Vec3 (fadd (c0 (origin ray)) (fmul t (c0 (direction ray))))
       (fadd (c1 (origin ray)) (fmul t (c1 (direction ray))))
       (fadd (c2 (origin ray)) (fmul t (c2 (direction ray)))).

(** The first triangle of the box mesh that the ray towards the box
    hits. *)
Definition box_hit_triangle : Triangle :=
  Eval vm_compute in
    match find (fun t => fst (ray_triangle_intersect box_ray t))
               (triangles box_bvh) with
    | Some t => t
    | None => flat_triangle 0 0
    end.

(** The unit box. *)
Definition unit_box : BBox := mkBBox (Vec3 f0 f0 f0) (Vec3 f1 f1 f1).

(** A triangle with the three vertices, its centroid and box filled in as
    [__cinit__] does. *)
Definition triangle_from (a b c : vec3) (id : Z) : Triangle :=
  mkTriangle a b c id
    (Vec3 (third (c0 a) (c0 b) (c0 c)) (third (c1 a) (c1 b) (c1 c))
          (third (c2 a) (c2 b) (c2 c)))
    (mkBBox (Vec3 (fmin (fmin (c0 a) (c0 b)) (c0 c))
                  (fmin (fmin (c1 a) (c1 b)) (c1 c))
                  (fmin (fmin (c2 a) (c2 b)) (c2 c)))
            (Vec3 (fmax (fmax (c0 a) (c0 b)) (c0 c))
                  (fmax (fmax (c1 a) (c1 b)) (c1 c))
                  (fmax (fmax (c2 a) (c2 b)) (c2 c)))).

(** A triangle and a ray with coordinates of the magnitude [2^700], all of
    them binary64 numbers: the triangle has the vertices [(0, 0, 0)],
    [(-3/2^700, -4/2^700, 0)] and [(-2^700, -2^700, 1/2)], the ray starts at
    [(2^700, 2^701, 0)] with the direction [(0, 0, 1)] and is set up as
    [cast_rays] does. *)
Definition big : Q := inject_Z (2 ^ 700).

Definition overflow_triangle : Triangle :=
  triangle_from (Vec3 f0 f0 f0)
                (Vec3 (Fin (- (3) / big)) (Fin (- (4) / big)) f0)
                (Vec3 (Fin (- big)) (Fin (- big)) (Fin (1 # 2))) 7.

Definition overflow_ray : Ray :=
  pixel_ray (Vec3 (Fin big) (Fin (2 * big)) f0) (Vec3 f0 f0 f1)
            (Vec3 (fdiv f1 f0) (fdiv f1 f0) (fdiv f1 f1)).

(** No box of the tree rejects the ray while the ray hits a triangle in the
    range of its node. *)
Definition boxes_pass (tris : list Triangle) (ray : Ray) (node : BVHNode)
  : Prop :=
  forall n i tri,
    In n (nodes_of node) -> node_begin n <= i < node_end n ->
    aget tris i = Ok tri ->
    fst (ray_triangle_intersect ray tri) = true ->
    ray_bbox_intersect ray (node_bbox n) = true.

(** [boxes_pass] as a test that can be run. *)
Definition boxes_pass_b (tris : list Triangle) (ray : Ray) (node : BVHNode)
  : bool :=
  forallb (fun n =>
    ray_bbox_intersect ray (node_bbox n)
    || forallb (fun i =>
         match aget tris i with
         | Ok tri => negb (fst (ray_triangle_intersect ray tri))
         | Err _ => true
         end) (zrange (node_begin n) (node_end n)))
    (nodes_of node).

(** What [intersect] returns for the ray towards the box mesh. *)
Definition box_sampled : Ray * list SamplerCall :=
  Eval vm_compute in
    match intersect fourth_value box_bvh box_ray with
    | Ok x => x
    | Err _ => (box_ray, [])
    end.

(** The hit record of [ray'] is that of [ray], or the distance and the
    element id of a triangle of the array that the test accepts for [ray]. *)
Definition won_from (tris : list Triangle) (ray ray' : Ray) : Prop :=
  same_query ray ray' /\
  ((t_far ray' = t_far ray /\ elem_id ray' = elem_id ray) \/
   (exists tri,
      In tri tris /\ mt_accepts ray tri = true /\
      t_far ray' = mt_t ray tri /\ elem_id ray' = tri_elem_id tri)).

(** The ray that [cast_rays] sets up for pixel [i]: the origin read from
    the origins, the direction, its reciprocal, and the hit record cleared. *)
Definition pixel_ray_at (origins direction : list float64) (N i : Z)
  : result Ray :=
  do d0 <- aget direction 0;
  do d1 <- aget direction 1;
  do d2 <- aget direction 2;
  do o0 <- oget origins N 0 i;
  do o1 <- oget origins N 1 i;
  do o2 <- oget origins N 2 i;
  Ok (pixel_ray (Vec3 o0 o1 o2) (Vec3 d0 d1 d2)
                (Vec3 (fdiv f1 d0) (fdiv f1 d1) (fdiv f1 d2))).

(** A ray that runs inside the face [x = 0] of the unit box: no motion
    along the first two axes, the origin on the left plane of the first. *)
Definition grazing_ray : Ray :=
  mkRay (Vec3 f0 (Fin (1 # 2)) (Fin (-1))) (Vec3 f0 f0 f1)
        (Vec3 (fdiv f1 f0) (fdiv f1 f0) (fdiv f1 f1)) f0 f0 INF (-1) 0.

(** The number of faces and the table of faces that [__cinit__] selects for
    elements with [n] vertices. *)
Definition faces_for (hex_nt tetra_nt wedge_nt : Z)
  (hex tetra wedge : list (list Z)) (n : Z) : Z * list (list Z) :=
  if n =? 8 then (hex_nt, hex)
  else if n =? 6 then (wedge_nt, wedge)
  else (tetra_nt, tetra).

(** Row [v] of the vertex array as a point. *)
Definition vertex_at (verts : mview float64) (v : Z) : result vec3 :=
  do a0 <- mget verts v 0;
  do a1 <- mget verts v 1;
  do a2 <- mget verts v 2;
  Ok (Vec3 a0 a1 a2).

(** [t] is face [j] of element [i]: it carries the id [i], and its vertices
    are the rows of the vertex array that the index row of the element names
    at the three local indices in row [j] of the table. *)
Definition is_face (verts : mview float64) (indices : mview Z)
  (tri_array : list (list Z)) (i j : Z) (t : Triangle) : Prop :=
  exists row k0 k1 k2 v0 v1 v2,
    aget tri_array j = Ok row /\
    aget row 0 = Ok k0 /\ aget row 1 = Ok k1 /\ aget row 2 = Ok k2 /\
    mget indices i k0 = Ok v0 /\ mget indices i k1 = Ok v1 /\
    mget indices i k2 = Ok v2 /\
    vertex_at verts v0 = Ok (p0 t) /\ vertex_at verts v1 = Ok (p1 t) /\
    vertex_at verts v2 = Ok (p2 t) /\
    tri_elem_id t = i.

(** * Properties *)

(** ** The order on [float64] *)

Lemma Qle_bool_false (a b : Q) : Qle_bool a b = false <-> (b < a)%Q.
Proof.
  rewrite <- not_true_iff_false, Qle_bool_iff.
  split; [apply Qnot_le_lt | apply Qlt_not_le].
Qed.

Lemma Qeq_bool_false (a b : Q) : Qeq_bool a b = false <-> ~ (a == b)%Q.
Proof.
  rewrite <- not_true_iff_false, Qeq_bool_iff. tauto.
Qed.

(** Case analysis on every rational test in sight, each turned into the
    order fact it decides. *)
Ltac qtest a b :=
  let E := fresh "E" in
  destruct (Qle_bool a b) eqn:E;
  [apply Qle_bool_iff in E | apply Qle_bool_false in E].

Ltac qzero a b :=
  let E := fresh "E" in
  destruct (Qeq_bool a b) eqn:E;
  [apply Qeq_bool_iff in E | apply Qeq_bool_false in E].

Ltac qcases :=
  repeat match goal with
    | |- context [Qle_bool ?a ?b] => qtest a b
    | H : context [Qle_bool ?a ?b] |- _ => qtest a b
    | |- context [Qeq_bool ?a ?b] => qzero a b
    | H : context [Qeq_bool ?a ?b] |- _ => qzero a b
    end.

Ltac fsolve :=
  unfold fge, fgt, fmin, fmax, fabs, fsub, fneg, fle, flt, is_nan,
         scale_inf, Qltb, f0, f1 in *;
  simpl in *; repeat (progress (qcases; simpl in *));
  try discriminate; try tauto; try congruence;
  try (exfalso; lra); try lra.

Lemma fmax_non_nan (x y : float64) : non_nan x -> non_nan (fmax x y).
Proof. unfold non_nan; destruct x, y; fsolve; congruence. Qed.

Lemma fmin_non_nan (x y : float64) : non_nan x -> non_nan (fmin x y).
Proof. unfold non_nan; destruct x, y; fsolve; congruence. Qed.

(** [t] is above [fmax a b] exactly when it is above [a] and above [b],
    a NaN [b] having been dropped. *)
Lemma fle_fmax_l (a b t : float64) :
  non_nan a ->
  fle (fmax a b) t = fle a t && (is_nan b || fle b t).
Proof.
  unfold non_nan; intros Ha; destruct a, b, t; try congruence; fsolve.
Qed.

Lemma fle_fmin_r (a b t : float64) :
  non_nan a ->
  fle t (fmin a b) = fle t a && (is_nan b || fle t b).
Proof.
  unfold non_nan; intros Ha; destruct a, b, t; try congruence; fsolve.
Qed.

(** ** The slab test *)

Lemma slab_interval_eq (ray : Ray) (bbox : BBox) :
  slab_interval ray bbox =
  (fmax (fmax (fmax (fneg INF) (slab_entry ray bbox 0)) (slab_entry ray bbox 1))
        (slab_entry ray bbox 2),
   fmin (fmin (fmin INF (slab_exit ray bbox 0)) (slab_exit ray bbox 1))
        (slab_exit ray bbox 2)).
Proof. reflexivity. Qed.

Lemma slab_interval_non_nan (ray : Ray) (bbox : BBox) :
  non_nan (fst (slab_interval ray bbox)) /\
  non_nan (snd (slab_interval ray bbox)).
Proof.
  rewrite slab_interval_eq; simpl; split.
  - do 3 apply fmax_non_nan. discriminate.
  - do 3 apply fmin_non_nan. discriminate.
Qed.

(** C6.  [ray_bbox_intersect] takes, for each axis, the entry and exit
    distances computed with the reciprocal direction, intersects the three
    axis intervals into [tmin, tmax] (a distance lies in [tmin, tmax] exactly
    when it lies in each of the three), and reports a hit exactly when
    [tmin <= tmax] and [tmax >= 0]. *)
Theorem ray_bbox_intersect_spec (ray : Ray) (bbox : BBox) :
  let tmin := fst (slab_interval ray bbox) in
  let tmax := snd (slab_interval ray bbox) in
  (forall i, slab_entry ray bbox i =
               fmin (fmul (fsub (vget (left_edge bbox) i) (vget (origin ray) i))
                          (vget (inv_dir ray) i))
                    (fmul (fsub (vget (right_edge bbox) i) (vget (origin ray) i))
                          (vget (inv_dir ray) i))) /\
  (forall i, slab_exit ray bbox i =
               fmax (fmul (fsub (vget (left_edge bbox) i) (vget (origin ray) i))
                          (vget (inv_dir ray) i))
                    (fmul (fsub (vget (right_edge bbox) i) (vget (origin ray) i))
                          (vget (inv_dir ray) i))) /\
  (forall t, fle tmin t && fle t tmax =
             negb (is_nan t) &&
             (in_slab ray bbox 0 t && in_slab ray bbox 1 t && in_slab ray bbox 2 t)) /\
  (ray_bbox_intersect ray bbox = true <->
   fle tmin tmax = true /\ fle f0 tmax = true).
Proof.
  intros tmin tmax.
  split; [reflexivity|]. split; [reflexivity|]. split.
  - intros t. subst tmin tmax. rewrite slab_interval_eq. simpl fst; simpl snd.
    unfold in_slab.
    rewrite !fle_fmax_l, !fle_fmin_r
      by (repeat first [apply fmax_non_nan | apply fmin_non_nan]; discriminate).
    change (fneg INF) with NInf. change INF with PInf.
    replace (fle NInf t) with (negb (is_nan t)) by (destruct t; reflexivity).
    replace (fle t PInf) with (negb (is_nan t)) by (destruct t; reflexivity).
    destruct (is_nan t); simpl; [reflexivity | btauto].
  - unfold ray_bbox_intersect.
    destruct (slab_interval_non_nan ray bbox) as [Hmin Hmax].
    subst tmin tmax.
    destruct (slab_interval ray bbox) as [lo hi]; simpl in *.
    unfold non_nan in *.
    destruct lo, hi; try congruence; fsolve.
Qed.

(** ** The triangle test *)

Lemma OVERFLOW_pos : (0 < OVERFLOW)%Q.
Proof. reflexivity. Qed.

(** The three outcomes of an operation with a finite exact result. *)
Lemma overflow64_cases (q : Q) :
  (overflow64 q = PInf /\ (OVERFLOW <= q)%Q) \/
  (overflow64 q = NInf /\ (q <= - OVERFLOW)%Q) \/
  (overflow64 q = Fin q /\ (- OVERFLOW < q)%Q /\ (q < OVERFLOW)%Q).
Proof.
  unfold overflow64.
  destruct (Qle_bool OVERFLOW q) eqn:E1.
  - left. apply Qle_bool_iff in E1. tauto.
  - apply Qle_bool_false in E1.
    destruct (Qle_bool q (- OVERFLOW)) eqn:E2.
    + right; left. apply Qle_bool_iff in E2. tauto.
    + right; right. apply Qle_bool_false in E2. tauto.
Qed.

(** A distance strictly between two bounds is finite. *)
Lemma between_fin (lo t hi : float64) :
  flt lo t = true -> flt t hi = true -> is_fin t.
Proof. destruct lo, t, hi; simpl; try discriminate; tauto. Qed.

(** The three guards of the test on values that are not NaN. *)
Lemma det_test (d : float64) :
  non_nan d ->
  (fgt d (fneg DETERMINANT_EPS) && flt d DETERMINANT_EPS = false <->
   fge (fabs d) DETERMINANT_EPS = true).
Proof.
  unfold non_nan. destruct d; simpl; try tauto; intros _;
    unfold DETERMINANT_EPS; fsolve.
Qed.

Lemma det_test_conv (d : float64) :
  fge (fabs d) DETERMINANT_EPS = true ->
  fgt d (fneg DETERMINANT_EPS) && flt d DETERMINANT_EPS = false.
Proof.
  destruct d; unfold DETERMINANT_EPS; fsolve.
Qed.

Lemma u_test (u : float64) :
  non_nan u ->
  (flt u f0 || fgt u f1 = false <-> fle f0 u = true /\ fle u f1 = true).
Proof. unfold non_nan. destruct u; simpl; try tauto; intros _; fsolve. Qed.

Lemma u_test_conv (u : float64) :
  fle f0 u = true -> fle u f1 = true -> flt u f0 || fgt u f1 = false.
Proof. destruct u; fsolve. Qed.

Lemma v_test (u v : float64) :
  non_nan v -> fle f0 u = true -> fle u f1 = true ->
  (flt v f0 || fgt (fadd u v) f1 = false <->
   fle f0 v = true /\ fle v f1 = true /\ fle (fadd u v) f1 = true).
Proof.
  unfold non_nan. intros Hv Hu0 Hu1.
  destruct u as [| |u|]; try discriminate Hu0; try discriminate Hu1.
  destruct v as [| |v|]; try congruence; cbn [fadd].
  - split; [discriminate | intros (H & _); discriminate H].
  - pose proof OVERFLOW_pos as Hpos.
    destruct (overflow64_cases (u + v)) as [[-> Ho] | [[-> Ho] | [-> Ho]]];
      revert Hpos Ho; generalize OVERFLOW; intros M Hpos Ho; fsolve.
  - split; [discriminate | intros (_ & H & _); discriminate H].
Qed.

Lemma v_test_conv (v s : float64) :
  fle f0 v = true -> fle s f1 = true -> flt v f0 || fgt s f1 = false.
Proof. destruct v, s; fsolve. Qed.

Lemma ray_triangle_intersect_eq (ray : Ray) (tri : Triangle) :
  ray_triangle_intersect ray tri =
  if mt_accepts ray tri
  then (true, set_hit ray (mt_t ray tri) (tri_elem_id tri))
  else (false, ray).
Proof.
  unfold ray_triangle_intersect, mt_accepts.
  fold (mt_e1 tri) (mt_e2 tri). fold (mt_P ray tri). fold (mt_T ray tri).
  fold (mt_Q ray tri). fold (mt_det ray tri). fold (mt_inv_det ray tri).
  fold (mt_u ray tri) (mt_v ray tri) (mt_t ray tri).
  destruct (fgt (mt_det ray tri) (fneg DETERMINANT_EPS)
            && flt (mt_det ray tri) DETERMINANT_EPS); [reflexivity|].
  destruct (flt (mt_u ray tri) f0 || fgt (mt_u ray tri) f1); [reflexivity|].
  destruct (flt (mt_v ray tri) f0
            || fgt (fadd (mt_u ray tri) (mt_v ray tri)) f1); [reflexivity|].
  destruct (fgt (mt_t ray tri) DETERMINANT_EPS
            && flt (mt_t ray tri) (t_far ray)); reflexivity.
Qed.

(** What the test accepts passes the test of the distance. *)
Lemma mt_accepts_distance (ray : Ray) (tri : Triangle) :
  mt_accepts ray tri = true ->
  flt DETERMINANT_EPS (mt_t ray tri) = true /\
  flt (mt_t ray tri) (t_far ray) = true.
Proof.
  intros H. unfold mt_accepts in H.
  apply andb_true_iff in H. destruct H as [_ Ht].
  apply andb_true_iff in Ht. exact Ht.
Qed.

(** A NaN determinant gives a NaN distance, which fails the last test. *)
Lemma mt_accepts_det (ray : Ray) (tri : Triangle) :
  mt_accepts ray tri = true -> non_nan (mt_det ray tri).
Proof.
  intros H. apply mt_accepts_distance in H. destruct H as [H _].
  unfold mt_t, mt_inv_det in H. intros Hd. rewrite Hd in H.
  destruct (dot (mt_e2 tri) (mt_Q ray tri)); discriminate H.
Qed.

(** For barycentric coordinates that are not NaN the guards of the test are
    the conditions on the determinant, the coordinates and the distance. *)
Lemma ray_triangle_intersect_ranges (ray : Ray) (tri : Triangle) :
  non_nan (mt_u ray tri) -> non_nan (mt_v ray tri) ->
  (fst (ray_triangle_intersect ray tri) = true <->
   fge (fabs (mt_det ray tri)) DETERMINANT_EPS = true /\
   fle f0 (mt_u ray tri) = true /\ fle (mt_u ray tri) f1 = true /\
   fle f0 (mt_v ray tri) = true /\ fle (mt_v ray tri) f1 = true /\
   fle (fadd (mt_u ray tri) (mt_v ray tri)) f1 = true /\
   flt DETERMINANT_EPS (mt_t ray tri) = true /\
   flt (mt_t ray tri) (t_far ray) = true).
Proof.
  intros Nu Nv. rewrite ray_triangle_intersect_eq.
  destruct (mt_accepts ray tri) eqn:Hacc; cbn [fst].
  - split; [intros _ | reflexivity].
    pose proof (mt_accepts_det ray tri Hacc) as Nd.
    unfold mt_accepts in Hacc.
    apply andb_true_iff in Hacc. destruct Hacc as [Hacc Ht].
    apply andb_true_iff in Hacc. destruct Hacc as [Hacc Hv].
    apply andb_true_iff in Hacc. destruct Hacc as [Hd Hu].
    apply negb_true_iff in Hd, Hu, Hv.
    apply andb_true_iff in Ht. destruct Ht as [Ht1 Ht2].
    apply (det_test _ Nd) in Hd.
    apply (u_test _ Nu) in Hu. destruct Hu as [Hu0 Hu1].
    apply (v_test _ _ Nv Hu0 Hu1) in Hv. destruct Hv as (Hv0 & Hv1 & Huv).
    unfold fgt in Ht1. tauto.
  - split; [discriminate|].
    intros (Hd & Hu0 & Hu1 & Hv0 & Hv1 & Huv & Ht1 & Ht2).
    exfalso. unfold mt_accepts in Hacc.
    rewrite (det_test_conv _ Hd), (u_test_conv _ Hu0 Hu1),
      (v_test_conv _ _ Hv0 Huv) in Hacc.
    unfold fgt in Hacc. rewrite Ht1, Ht2 in Hacc. discriminate.
Qed.

(** On a hit the ray gets the distance and the element id of the triangle;
    on a miss it is returned as it was. *)
Lemma ray_triangle_intersect_update (ray : Ray) (tri : Triangle) :
  (fst (ray_triangle_intersect ray tri) = true ->
   snd (ray_triangle_intersect ray tri)
   = set_hit ray (mt_t ray tri) (tri_elem_id tri)) /\
  (fst (ray_triangle_intersect ray tri) = false ->
   snd (ray_triangle_intersect ray tri) = ray).
Proof.
  rewrite ray_triangle_intersect_eq.
  destruct (mt_accepts ray tri); cbn [fst snd]; split;
    try reflexivity; discriminate.
Qed.

(** C1.  On a triangle and a ray with coordinates of the magnitude [2^700]
    the two products in [dot(T, P)] overflow to opposite infinities, [u] is
    NaN and fails neither [u < 0.0 or u > 1.0] nor [u + v > 1.0]:
    [ray_triangle_intersect] reports a hit at the distance 1 although [v]
    is 2 and [u] is not in [[0, 1]]. *)
Theorem ray_triangle_intersect_nan_hit :
  fst (ray_triangle_intersect overflow_ray overflow_triangle) = true /\
  feq (t_far (snd (ray_triangle_intersect overflow_ray overflow_triangle)))
      f1 = true /\
  elem_id (snd (ray_triangle_intersect overflow_ray overflow_triangle)) = 7 /\
  mt_u overflow_ray overflow_triangle = NaN /\
  feq (mt_v overflow_ray overflow_triangle) (Fin 2) = true /\
  fle (mt_v overflow_ray overflow_triangle) f1 = false /\
  feq (mt_det overflow_ray overflow_triangle) f1 = true.
Proof. vm_compute. repeat split; reflexivity. Qed.

(** ** Raw arrays *)

Lemma aget_in_bounds {A : Type} (a : list A) (i : Z) :
  0 <= i < Z.of_nat (length a) -> exists x, aget a i = Ok x.
Proof.
  intros Hi. unfold aget.
  destruct (i <? 0) eqn:E; [apply Z.ltb_lt in E; lia|].
  destruct (nth_error a (Z.to_nat i)) eqn:N; [eauto|].
  apply nth_error_None in N. lia.
Qed.

Lemma aget_Ok_bounds {A : Type} (a : list A) (i : Z) (x : A) :
  aget a i = Ok x -> 0 <= i < Z.of_nat (length a).
Proof.
  unfold aget. destruct (i <? 0) eqn:E; [discriminate|].
  apply Z.ltb_ge in E.
  destruct (nth_error a (Z.to_nat i)) eqn:N; [|discriminate].
  intros _. assert (Z.to_nat i < length a)%nat.
  { apply nth_error_Some. congruence. }
  lia.
Qed.

Lemma aget_out_of_bounds {A : Type} (a : list A) (i : Z) :
  i < 0 \/ Z.of_nat (length a) <= i -> aget a i = Err OutOfBounds.
Proof.
  intros Hi. unfold aget. destruct (i <? 0) eqn:E; [reflexivity|].
  apply Z.ltb_ge in E.
  destruct (nth_error a (Z.to_nat i)) eqn:N; [|reflexivity].
  assert (Z.to_nat i < length a)%nat by (apply nth_error_Some; congruence).
  lia.
Qed.

Lemma put_length {A : Type} (a : list A) (n : nat) (x : A) :
  length (put a n x) = length a.
Proof.
  revert n; induction a as [|y a IH]; intros [|n]; simpl; auto.
Qed.

Lemma aset_in_bounds {A : Type} (a : list A) (i : Z) (x : A) :
  0 <= i < Z.of_nat (length a) -> aset a i x = Ok (put a (Z.to_nat i) x).
Proof.
  intros Hi. unfold aset.
  destruct (i <? 0) eqn:E1; [apply Z.ltb_lt in E1; lia|].
  destruct (Z.of_nat (length a) <=? i) eqn:E2; [apply Z.leb_le in E2; lia|].
  reflexivity.
Qed.

Lemma aset_Ok_length {A : Type} (a a' : list A) (i : Z) (x : A) :
  aset a i x = Ok a' -> length a' = length a.
Proof.
  unfold aset. destruct ((i <? 0) || (Z.of_nat (length a) <=? i)); [discriminate|].
  intros H; inversion H; apply put_length.
Qed.

Lemma zrange_bounds (a b : Z) : Forall (fun i => a <= i < b) (zrange a b).
Proof.
  unfold zrange. apply Forall_forall. intros i Hi.
  apply in_map_iff in Hi. destruct Hi as (k & <- & Hk).
  apply in_seq in Hk. lia.
Qed.

(** ** [_partition] *)

(** What a finished run of the loop guarantees about sizes and the
    boundary. *)
Lemma _partition_loop_Ok (fuel : nat) :
  forall tris mid b e ax split tris' mid',
    b <= e ->
    _partition_loop fuel tris mid b e ax split = Ok (tris', mid') ->
    length tris' = length tris /\ mid <= mid' <= mid + (e - b).
Proof.
  induction fuel as [|fuel IH]; intros tris mid b e ax split tris' mid' Hbe H;
    simpl in H; [discriminate|].
  destruct (b =? e) eqn:Ebe.
  - inversion H; subst. apply Z.eqb_eq in Ebe. split; [reflexivity | lia].
  - apply Z.eqb_neq in Ebe.
    destruct (aget tris mid) as [tm|] eqn:Am; simpl in H; [|discriminate].
    destruct (fgt (vget (centroid tm) ax) split).
    + apply IH in H; [|lia]. split; [tauto | lia].
    + destruct (aget tris b) as [tb|] eqn:Ab; simpl in H; [|discriminate].
      destruct (fgt (vget (centroid tb) ax) split).
      * destruct (aset tris mid tb) as [t1|] eqn:S1; simpl in H; [|discriminate].
        destruct (aset t1 b tm) as [t2|] eqn:S2; simpl in H; [|discriminate].
        apply IH in H; [|lia].
        apply aset_Ok_length in S1, S2. split; [lia | lia].
      * apply IH in H; [|lia]. split; [tauto | lia].
Qed.

(** Within the array the loop finishes: no access leaves it and the fuel
    suffices. *)
Lemma _partition_loop_total (fuel : nat) :
  forall tris mid b e ax split,
    0 <= mid <= b -> b <= e <= Z.of_nat (length tris) ->
    (Z.to_nat (e - b) < fuel)%nat ->
    exists tris' mid',
      _partition_loop fuel tris mid b e ax split = Ok (tris', mid').
Proof.
  induction fuel as [|fuel IH]; intros tris mid b e ax split Hm Hb Hf; [lia|].
  simpl. destruct (b =? e) eqn:Ebe; [eauto|].
  apply Z.eqb_neq in Ebe.
  destruct (aget_in_bounds tris mid) as [tm ->]; [lia|]. simpl.
  destruct (fgt (vget (centroid tm) ax) split).
  - apply IH; lia.
  - destruct (aget_in_bounds tris b) as [tb ->]; [lia|]. simpl.
    destruct (fgt (vget (centroid tb) ax) split).
    + rewrite aset_in_bounds by lia. simpl.
      rewrite aset_in_bounds by (rewrite put_length; lia). simpl.
      apply IH; rewrite ?put_length; lia.
    + apply IH; lia.
Qed.

Lemma _partition_Ok (tris tris' : list Triangle) (b e ax mid : Z)
  (split : float64) :
  b <= e ->
  _partition tris b e ax split = Ok (tris', mid) ->
  length tris' = length tris /\ b <= mid <= e.
Proof.
  intros Hbe H. apply _partition_loop_Ok in H; [|exact Hbe]. lia.
Qed.

Lemma _partition_total (tris : list Triangle) (b e ax : Z) (split : float64) :
  0 <= b <= e -> e <= Z.of_nat (length tris) ->
  exists tris' mid, _partition tris b e ax split = Ok (tris', mid).
Proof.
  intros Hb He. apply _partition_loop_total; lia.
Qed.

(** ** [_get_node_bbox] *)

Lemma grow_box_total (tris : list Triangle) (l : list Z) :
  Forall (fun i => 0 <= i < Z.of_nat (length tris)) l ->
  forall box, exists box', fold_left (grow_box tris) l (Ok box) = Ok box'.
Proof.
  induction 1 as [|i l Hi _ IH]; intros box; simpl; [eauto|].
  destruct (aget_in_bounds tris i Hi) as [t ->]. simpl. apply IH.
Qed.

Lemma _get_node_bbox_total (tris : list Triangle) (b e : Z) :
  0 <= b < Z.of_nat (length tris) -> e <= Z.of_nat (length tris) ->
  exists box, _get_node_bbox tris b e = Ok box.
Proof.
  intros Hb He. unfold _get_node_bbox.
  destruct (aget_in_bounds tris b Hb) as [t ->]. simpl.
  apply grow_box_total.
  eapply Forall_impl; [|apply zrange_bounds]. simpl. intros i Hi. lia.
Qed.

(** The first statement of [_get_node_bbox] reads [triangles[begin]]
    whatever [end] is. *)
Lemma _get_node_bbox_reads_begin (tris : list Triangle) (b e : Z) :
  b < 0 \/ Z.of_nat (length tris) <= b ->
  _get_node_bbox tris b e = Err OutOfBounds.
Proof.
  intros Hb. unfold _get_node_bbox. rewrite aget_out_of_bounds by exact Hb.
  reflexivity.
Qed.

(** ** [_recursive_build] *)

Lemma fix_mid_forced (b e mid : Z) :
  mid = b \/ mid = e -> fix_mid b e mid = b + Z.quot (e - b) 2.
Proof.
  intros H. unfold fix_mid.
  destruct H as [-> | ->]; rewrite Z.eqb_refl, ?orb_true_r; reflexivity.
Qed.

Lemma fix_mid_kept (b e mid : Z) :
  mid <> b -> mid <> e -> fix_mid b e mid = mid.
Proof.
  intros H1 H2. unfold fix_mid.
  apply Z.eqb_neq in H1, H2. rewrite H1, H2. reflexivity.
Qed.

Lemma fix_mid_bounds (b e mid : Z) :
  2 <= e - b -> b <= mid <= e -> b < fix_mid b e mid < e.
Proof.
  intros Hs Hm. unfold fix_mid.
  destruct (mid =? b) eqn:E1; [|destruct (mid =? e) eqn:E2]; simpl.
  - rewrite Z.quot_div_nonneg by lia.
    pose proof (Z.div_mod (e - b) 2 ltac:(lia)).
    pose proof (Z.mod_pos_bound (e - b) 2 ltac:(lia)). lia.
  - rewrite Z.quot_div_nonneg by lia.
    pose proof (Z.div_mod (e - b) 2 ltac:(lia)).
    pose proof (Z.mod_pos_bound (e - b) 2 ltac:(lia)). lia.
  - apply Z.eqb_neq in E1, E2. lia.
Qed.

(** What a finished build guarantees, whatever the array holds. *)
Lemma _recursive_build_fuel_Ok (fuel : nat) :
  forall tris b e tris' n,
    _recursive_build_fuel fuel tris b e = Ok (tris', n) ->
    length tris' = length tris /\
    node_begin n = b /\ node_end n = e /\
    Forall (fun m => node_ok m /\ b <= node_begin m /\ node_end m <= e /\
                     (b < e -> node_begin m < node_end m))
           (nodes_of n).
Proof.
  induction fuel as [|fuel IH]; intros tris b e tris' n H; simpl in H;
    [discriminate|].
  destruct (_get_node_bbox tris b e) as [bbox|] eqn:Hbox; simpl in H;
    [|discriminate].
  destruct (e - b <=? LEAF_SIZE) eqn:Hleaf.
  - inversion H; subst; clear H. apply Z.leb_le in Hleaf.
    repeat split; simpl; try lia.
    constructor; [|constructor].
    unfold node_ok, node_size, is_leaf; simpl.
    repeat split; intros; lia.
  - apply Z.leb_gt in Hleaf. unfold LEAF_SIZE in Hleaf.
    destruct (_partition tris b e _ _) as [[tris1 mid0]|] eqn:Hp; simpl in H;
      [|discriminate].
    apply _partition_Ok in Hp; [|lia]. destruct Hp as [Hlen1 Hmid0].
    pose proof (fix_mid_bounds b e mid0 ltac:(lia) Hmid0) as Hmid.
    set (mid := fix_mid b e mid0) in *.
    destruct (_recursive_build_fuel fuel tris1 b mid) as [[tris2 l]|] eqn:Hl;
      simpl in H; [|discriminate].
    destruct (_recursive_build_fuel fuel tris2 mid e) as [[tris3 r]|] eqn:Hr;
      simpl in H; [|discriminate].
    inversion H; subst; clear H.
    apply IH in Hl. destruct Hl as (Ll & Lb & Le & Lall).
    apply IH in Hr. destruct Hr as (Rl & Rb & Re & Rall).
    repeat split; simpl; try lia.
    constructor.
    + split; [|simpl; lia].
      unfold node_ok. split.
      * unfold node_size, LEAF_SIZE; simpl. intros Hs. exfalso. lia.
      * intros _. split.
        -- exists l, r. simpl. repeat split; lia.
        -- intros c [E | E]; simpl in E; inversion E; subst c;
             unfold node_size; simpl; lia.
    + apply Forall_app; split.
      * eapply Forall_impl; [|exact Lall]. simpl.
        intros m (Hok & H1 & H2 & H3).
        split; [exact Hok|]. split; [lia|]. split; [lia|].
        intros _. apply H3. lia.
      * eapply Forall_impl; [|exact Rall]. simpl.
        intros m (Hok & H1 & H2 & H3).
        split; [exact Hok|]. split; [lia|]. split; [lia|].
        intros _. apply H3. lia.
Qed.

(** Within the array the build returns a tree: no access leaves the array
    and fuel above the size of the range suffices. *)
Lemma _recursive_build_fuel_total (fuel : nat) :
  forall tris b e,
    0 <= b < e -> e <= Z.of_nat (length tris) ->
    (Z.to_nat (e - b) < fuel)%nat ->
    exists tris' n, _recursive_build_fuel fuel tris b e = Ok (tris', n).
Proof.
  induction fuel as [|fuel IH]; intros tris b e Hb He Hf; [lia|].
  simpl.
  destruct (_get_node_bbox_total tris b e) as [bbox ->]; [lia | lia |]. simpl.
  destruct (e - b <=? LEAF_SIZE) eqn:Hleaf; [eauto|].
  apply Z.leb_gt in Hleaf. unfold LEAF_SIZE in Hleaf.
  match goal with
  | |- context [_partition tris b e ?ax ?sp] =>
      destruct (_partition_total tris b e ax sp) as (tris1 & mid0 & Hp);
      [lia | lia |]; rewrite Hp; simpl
  end.
  apply _partition_Ok in Hp; [|lia]. destruct Hp as [Hlen1 Hmid0].
  pose proof (fix_mid_bounds b e mid0 ltac:(lia) Hmid0) as Hmid.
  set (mid := fix_mid b e mid0) in *.
  destruct (IH tris1 b mid) as (tris2 & l & Hl); [lia | lia | lia |].
  rewrite Hl; simpl.
  apply _recursive_build_fuel_Ok in Hl. destruct Hl as (Hlen2 & _).
  destruct (IH tris2 mid e) as (tris3 & r & Hr); [lia | lia | lia |].
  rewrite Hr; simpl. eauto.
Qed.

(** More fuel does not change a result. *)
Lemma _recursive_build_fuel_mono (fuel : nat) :
  forall tris b e x,
    _recursive_build_fuel fuel tris b e = Ok x ->
    forall fuel', (fuel <= fuel')%nat ->
                  _recursive_build_fuel fuel' tris b e = Ok x.
Proof.
  induction fuel as [|fuel IH]; intros tris b e x H fuel' Hle; simpl in H;
    [discriminate|].
  destruct fuel' as [|fuel']; [lia|]. simpl.
  destruct (_get_node_bbox tris b e) as [bbox|]; simpl in *; [|discriminate].
  destruct (e - b <=? LEAF_SIZE); [exact H|].
  destruct (_partition tris b e _ _) as [[tris1 mid0]|]; simpl in *;
    [|discriminate].
  destruct (_recursive_build_fuel fuel tris1 b _) as [[tris2 l]|] eqn:Hl;
    simpl in H; [|discriminate].
  rewrite (IH _ _ _ _ Hl fuel') by lia. simpl.
  destruct (_recursive_build_fuel fuel tris2 _ e) as [[tris3 r]|] eqn:Hr;
    simpl in H; [|discriminate].
  rewrite (IH _ _ _ _ Hr fuel') by lia. simpl. exact H.
Qed.

Lemma _recursive_build_Ok (tris tris' : list Triangle) (b e : Z) (root : BVHNode) :
  _recursive_build tris b e = Ok (tris', root) ->
  length tris' = length tris /\
  node_begin root = b /\ node_end root = e /\
  Forall (fun m => node_ok m /\ b <= node_begin m /\ node_end m <= e /\
                   (b < e -> node_begin m < node_end m))
         (nodes_of root).
Proof. apply _recursive_build_fuel_Ok. Qed.

Lemma _recursive_build_total (tris : list Triangle) (b e : Z) :
  0 <= b < e -> e <= Z.of_nat (length tris) ->
  exists tris' root, _recursive_build tris b e = Ok (tris', root).
Proof.
  intros Hb He. apply _recursive_build_fuel_total; lia.
Qed.

Lemma root_in_nodes (n : BVHNode) : In n (nodes_of n).
Proof. destruct n; simpl; auto. Qed.

Lemma leaf_nodes (n : BVHNode) : is_leaf n -> nodes_of n = [n].
Proof.
  destruct n as [b e bb l r]. unfold is_leaf; simpl. intros [-> ->].
  reflexivity.
Qed.

(** C5.  Over a non-empty range of the triangle array the builder returns a
    tree in which every node that is not a leaf has exactly two children, and
    their half-open ranges split the node's range at one boundary:
    [left.begin = node.begin], [left.end = right.begin],
    [right.end = node.end]. *)
Theorem recursive_build_partitions_ranges (tris : list Triangle) (b e : Z) :
  0 <= b < e -> e <= Z.of_nat (length tris) ->
  exists tris' root,
    _recursive_build tris b e = Ok (tris', root) /\
    node_begin root = b /\ node_end root = e /\
    forall n, In n (nodes_of root) ->
      LEAF_SIZE < node_size n \/ node_left n <> None \/ node_right n <> None ->
      exists l r,
        node_left n = Some l /\ node_right n = Some r /\
        node_begin l = node_begin n /\
        node_end l = node_begin r /\
        node_end r = node_end n /\
        node_begin n <= node_begin r <= node_end n.
Proof.
  intros Hb He.
  destruct (_recursive_build_total tris b e Hb He) as (tris' & root & Hbuild).
  exists tris', root. split; [exact Hbuild|].
  apply _recursive_build_Ok in Hbuild.
  destruct Hbuild as (_ & Hrb & Hre & Hall).
  split; [exact Hrb|]. split; [exact Hre|].
  intros n Hn Hint.
  rewrite Forall_forall in Hall. destruct (Hall n Hn) as ([Hleaf Hsplit] & _).
  assert (Hbig : LEAF_SIZE < node_size n).
  { destruct (Z_lt_le_dec LEAF_SIZE (node_size n)) as [Hlt | Hle]; [exact Hlt|].
    destruct (Hleaf Hle) as [Hl Hr]. destruct Hint as [? | [? | ?]]; [lia | |];
      congruence. }
  destruct (Hsplit Hbig) as [(l & r & Hl & Hr & H1 & H2 & H3) Hshrink].
  exists l, r. repeat split; try assumption.
  - pose proof (Hshrink l (or_introl Hl)). unfold node_size in *. lia.
  - pose proof (Hshrink r (or_intror Hr)). unfold node_size in *. lia.
Qed.

Lemma recursive_build_partitions_ranges_witness :
  exists tris' root,
    _recursive_build box_triangles 0 20 = Ok (tris', root) /\
    node_begin root = 0 /\ node_end root = 20 /\
    forall n, In n (nodes_of root) ->
      LEAF_SIZE < node_size n \/ node_left n <> None \/ node_right n <> None ->
      exists l r,
        node_left n = Some l /\ node_right n = Some r /\
        node_begin l = node_begin n /\
        node_end l = node_begin r /\
        node_end r = node_end n /\
        node_begin n <= node_begin r <= node_end n.
Proof.
  apply (recursive_build_partitions_ranges box_triangles 0 20).
  - lia.
  - change (Z.of_nat (length box_triangles)) with 20. lia.
Defined.

(** C7.  The build of a non-empty range returns: every amount of fuel above
    the size of the range gives the same tree.  A boundary that the partition
    left at [begin] or at [end] is replaced by [begin + (end - begin)/2], and
    so both children of every node larger than [LEAF_SIZE] are non-empty and
    strictly smaller than the node. *)
Theorem recursive_build_terminates (tris : list Triangle) (b e : Z) :
  0 <= b < e -> e <= Z.of_nat (length tris) ->
  (forall mid, mid = b \/ mid = e ->
               fix_mid b e mid = b + Z.quot (e - b) 2) /\
  exists tris' root,
    _recursive_build tris b e = Ok (tris', root) /\
    (forall fuel, (Z.to_nat (e - b) < fuel)%nat ->
                  _recursive_build_fuel fuel tris b e = Ok (tris', root)) /\
    forall n, In n (nodes_of root) -> LEAF_SIZE < node_size n ->
      exists l r,
        node_left n = Some l /\ node_right n = Some r /\
        0 < node_size l < node_size n /\
        0 < node_size r < node_size n.
Proof.
  intros Hb He. split; [intros mid; apply fix_mid_forced|].
  destruct (_recursive_build_total tris b e Hb He) as (tris' & root & Hbuild).
  exists tris', root. split; [exact Hbuild|]. split.
  - intros fuel Hfuel.
    destruct (_recursive_build_fuel_total fuel tris b e Hb He Hfuel)
      as (tris2 & root2 & H2).
    rewrite H2.
    destruct (Nat.le_ge_cases fuel (S (Z.to_nat (e - b)))) as [Hle | Hge].
    + apply (_recursive_build_fuel_mono _ _ _ _ _ H2) in Hle.
      unfold _recursive_build in Hbuild. congruence.
    + apply (_recursive_build_fuel_mono _ _ _ _ _ Hbuild) in Hge. congruence.
  - apply _recursive_build_Ok in Hbuild.
    destruct Hbuild as (_ & _ & _ & Hall).
    rewrite Forall_forall in Hall.
    intros n Hn Hbig. destruct (Hall n Hn) as ([_ Hsplit] & _).
    destruct (Hsplit Hbig) as [(l & r & Hl & Hr & _) Hshrink].
    exists l, r. repeat split; try assumption;
      try apply (Hshrink l (or_introl Hl));
      try apply (Hshrink r (or_intror Hr)).
Qed.

Lemma recursive_build_terminates_witness :
  exists tris' root,
    _recursive_build box_triangles 0 20 = Ok (tris', root) /\
    (forall fuel, (Z.to_nat (20 - 0) < fuel)%nat ->
                  _recursive_build_fuel fuel box_triangles 0 20
                  = Ok (tris', root)) /\
    forall n, In n (nodes_of root) -> LEAF_SIZE < node_size n ->
      exists l r,
        node_left n = Some l /\ node_right n = Some r /\
        0 < node_size l < node_size n /\
        0 < node_size r < node_size n.
Proof.
  apply (recursive_build_terminates box_triangles 0 20).
  - lia.
  - change (Z.of_nat (length box_triangles)) with 20. lia.
Defined.

(** C8.  In a tree the builder returns, a node has no children exactly when
    [end - begin <= LEAF_SIZE], where [LEAF_SIZE] is 16; a leaf therefore
    holds at most [LEAF_SIZE] triangles, and a range of at most [LEAF_SIZE]
    triangles gives a tree that is a single leaf. *)
Theorem recursive_build_leaf_iff (tris tris' : list Triangle) (b e : Z)
  (root : BVHNode) :
  _recursive_build tris b e = Ok (tris', root) ->
  LEAF_SIZE = 16 /\
  (forall n, In n (nodes_of root) ->
     (is_leaf n <-> node_end n - node_begin n <= LEAF_SIZE) /\
     (node_left n = None \/ node_right n = None -> is_leaf n)) /\
  (e - b <= LEAF_SIZE -> is_leaf root /\ nodes_of root = [root]).
Proof.
  intros Hbuild. apply _recursive_build_Ok in Hbuild.
  destruct Hbuild as (_ & Hrb & Hre & Hall).
  rewrite Forall_forall in Hall.
  assert (Hiff : forall n, In n (nodes_of root) ->
            (is_leaf n <-> node_end n - node_begin n <= LEAF_SIZE) /\
            (node_left n = None \/ node_right n = None -> is_leaf n)).
  { intros n Hn. destruct (Hall n Hn) as ([Hleaf Hsplit] & _).
    unfold node_size in *.
    assert (Hno : (node_left n = None \/ node_right n = None) ->
                  node_end n - node_begin n <= LEAF_SIZE).
    { intros Hnone.
      destruct (Z_lt_le_dec LEAF_SIZE (node_end n - node_begin n))
        as [Hlt | Hle]; [|exact Hle].
      destruct (Hsplit Hlt) as [(l & r & Hl & Hr & _) _].
      destruct Hnone; congruence. }
    split; [split|].
    - intros [Hl _]. apply Hno. left; exact Hl.
    - exact Hleaf.
    - intros Hnone. apply Hleaf, Hno, Hnone. }
  split; [reflexivity|]. split; [exact Hiff|].
  intros Hsmall.
  assert (Hroot : is_leaf root).
  { destruct (Hiff root (root_in_nodes root)) as [[_ Hback] _].
    apply Hback. rewrite Hrb, Hre. exact Hsmall. }
  split; [exact Hroot | apply leaf_nodes; exact Hroot].
Qed.

Lemma recursive_build_leaf_iff_witness :
  LEAF_SIZE = 16 /\
  (forall n, In n (nodes_of (snd box_built)) ->
     (is_leaf n <-> node_end n - node_begin n <= LEAF_SIZE) /\
     (node_left n = None \/ node_right n = None -> is_leaf n)) /\
  (20 - 0 <= LEAF_SIZE ->
   is_leaf (snd box_built) /\ nodes_of (snd box_built) = [snd box_built]).
Proof.
  apply (recursive_build_leaf_iff box_triangles (fst box_built) 0 20
           (snd box_built)).
  vm_compute. reflexivity.
Defined.

(** C10.  [_get_node_bbox] starts by reading [triangles[begin]], whatever
    [end] is, so a [begin] outside the array is an access out of bounds.  A
    BVH over no triangle is built from the range [0, 0) of an empty array and
    makes that access; over one triangle or more, every range the builder
    hands to [_get_node_bbox] is non-empty and inside the array, and no access
    of the build leaves the array. *)
Theorem get_node_bbox_needs_nonempty_range :
  (forall tris b e,
     b < 0 \/ Z.of_nat (length tris) <= b ->
     _get_node_bbox tris b e = Err OutOfBounds) /\
  _recursive_build [] 0 0 = Err OutOfBounds /\
  (forall hex_nt tetra_nt wedge_nt hex tetra wedge verts indices fdata,
     shape0 indices = 0 ->
     __cinit__ hex_nt tetra_nt wedge_nt hex tetra wedge verts indices fdata
     = Err OutOfBounds) /\
  (forall tris,
     tris <> [] ->
     exists tris' root,
       _recursive_build tris 0 (Z.of_nat (length tris)) = Ok (tris', root) /\
       forall n, In n (nodes_of root) ->
         0 <= node_begin n < node_end n /\
         node_end n <= Z.of_nat (length tris) /\
         forall a, length a = length tris ->
                   exists box,
                     _get_node_bbox a (node_begin n) (node_end n) = Ok box).
Proof.
  split; [exact _get_node_bbox_reads_begin|].
  split; [reflexivity|]. split.
  - intros hex_nt tetra_nt wedge_nt hex tetra wedge verts indices fdata H0.
    unfold __cinit__, fill_triangles. rewrite H0.
    destruct (shape1 indices =? 8); [|destruct (shape1 indices =? 6);
      [|destruct (shape1 indices =? 4)]];
      rewrite Z.mul_0_r; reflexivity.
  - intros tris Hne.
    assert (Hlen : 0 < Z.of_nat (length tris)).
    { destruct tris; [congruence | simpl; lia]. }
    destruct (_recursive_build_total tris 0 (Z.of_nat (length tris)))
      as (tris' & root & Hbuild); [lia | lia |].
    exists tris', root. split; [exact Hbuild|].
    apply _recursive_build_Ok in Hbuild.
    destruct Hbuild as (_ & _ & _ & Hall). rewrite Forall_forall in Hall.
    intros n Hn. destruct (Hall n Hn) as (_ & H1 & H2 & H3).
    specialize (H3 Hlen).
    split; [lia|]. split; [lia|].
    intros a Ha. apply _get_node_bbox_total; rewrite Ha; lia.
Qed.

Lemma get_node_bbox_needs_nonempty_range_witness :
  box_triangles <> [] /\
  exists tris' root,
    _recursive_build box_triangles 0 (Z.of_nat (length box_triangles))
    = Ok (tris', root) /\
    forall n, In n (nodes_of root) ->
      0 <= node_begin n < node_end n /\
      node_end n <= Z.of_nat (length box_triangles) /\
      forall a, length a = length box_triangles ->
                exists box,
                  _get_node_bbox a (node_begin n) (node_end n) = Ok box.
Proof.
  assert (H : box_triangles <> []) by (unfold box_triangles; discriminate).
  split; [exact H|].
  exact (proj2 (proj2 (proj2 get_node_bbox_needs_nonempty_range))
           box_triangles H).
Defined.

(** ** Where the code leaves its description *)

(** C2.  On the two triangles with centroids 0 and 5 along x and the split
    value 2, [_partition] returns the boundary 1 with the triangle whose
    centroid is greater than the split in front of it and the other one
    behind it. *)
Theorem partition_moves_greater_left :
  _partition [flat_triangle 0 0; flat_triangle 5 1] 0 2 0 (fz 2)
  = Ok ([flat_triangle 5 1; flat_triangle 0 0], 1) /\
  fgt (vget (centroid (flat_triangle 5 1)) 0) (fz 2) = true /\
  fle (vget (centroid (flat_triangle 0 0)) 0) (fz 2) = true.
Proof. repeat split. Qed.

(** The axis the code selects, in closed form: the second test compares
    with the extent of axis 0, not with the greatest extent so far. *)
Lemma split_axis_eq (bbox : BBox) :
  let ext i := fabs (fsub (vget (right_edge bbox) i) (vget (left_edge bbox) i)) in
  split_axis bbox =
  if fgt (ext 2) (ext 0) then 2 else if fgt (ext 1) (ext 0) then 1 else 0.
Proof.
  unfold split_axis. cbv zeta.
  repeat match goal with
         | |- context [if ?c then _ else _] => destruct c
         end; reflexivity.
Qed.

(** C3.  The root box of the box mesh has extents 1, 3 and 2 along x, y and
    z, so the extent of axis 1 is strictly the greatest; the code selects
    axis 2. *)
Theorem split_axis_skips_longest :
  node_bbox (snd box_built)
  = mkBBox (Vec3 (fz 0) (fz 0) (fz 0)) (Vec3 (fz 1) (fz 3) (fz 2)) /\
  split_axis (node_bbox (snd box_built)) = 2.
Proof. split; reflexivity. Qed.

(** A returned BVH carries the configuration of the branch that the number
    of vertices per element selects. *)
Lemma cinit_selects (hex_nt tetra_nt wedge_nt : Z)
  (hex tetra wedge : list (list Z)) (verts : mview float64)
  (indices : mview Z) (fdata : mview float64) (bvh : BVH) :
  __cinit__ hex_nt tetra_nt wedge_nt hex tetra wedge verts indices fdata
  = Ok bvh ->
  num_verts_per_elem bvh = shape1 indices /\
  (shape1 indices = 8 ->
   num_tri_per_elem bvh = hex_nt /\ sampler bvh = Some Q1Sampler) /\
  (shape1 indices = 6 ->
   num_tri_per_elem bvh = wedge_nt /\ sampler bvh = Some W1Sampler) /\
  (shape1 indices = 4 ->
   num_tri_per_elem bvh = tetra_nt /\ sampler bvh = Some P1Sampler).
Proof.
  unfold __cinit__.
  destruct (Z.eqb_spec (shape1 indices) 8) as [E8 | E8];
    [|destruct (Z.eqb_spec (shape1 indices) 6) as [E6 | E6];
      [|destruct (Z.eqb_spec (shape1 indices) 4) as [E4 | E4]]];
    intros H;
    repeat match type of H with
           | bind ?r _ = Ok _ => destruct r as [?|?]; simpl in H;
                                 [|discriminate]
           | (let (_, _) := ?x in _) = Ok _ => destruct x
           end;
    inversion H; subst; simpl;
    repeat split; intros; try reflexivity; try lia.
Qed.

(** C4.  For an element array with five vertices per element no branch of
    [__cinit__] is taken and nothing is raised: zero triangles are filled in
    and the build is started on the range [0, 0) of the empty array, where it
    reads [triangles[0]]. *)
Theorem cinit_unsupported_topology :
  fill_triangles box_vertices pyramid_indices [] 1 0 = Ok [] /\
  box_cinit box_vertices pyramid_indices pyramid_field = Err OutOfBounds.
Proof. split; reflexivity. Qed.

(** ** Traversal and the driver *)

Lemma same_query_refl (r : Ray) : same_query r r.
Proof. unfold same_query; tauto. Qed.

Lemma same_query_trans (r1 r2 r3 : Ray) :
  same_query r1 r2 -> same_query r2 r3 -> same_query r1 r3.
Proof.
  unfold same_query. intros (A1 & A2 & A3 & A4 & A5 & A6) (B1 & B2 & B3 & B4 & B5 & B6).
  repeat split; congruence.
Qed.

Lemma ray_triangle_intersect_same_query (ray : Ray) (tri : Triangle) :
  same_query ray (snd (ray_triangle_intersect ray tri)).
Proof.
  rewrite ray_triangle_intersect_eq.
  destruct (mt_accepts ray tri); simpl; unfold same_query; simpl; tauto.
Qed.

Lemma leaf_fold_Err (tris : list Triangle) (l : list Z) (e : error) :
  fold_left (leaf_step tris) l (Err e) = Err e.
Proof. induction l as [|i l IH]; simpl; auto. Qed.

Lemma leaf_fold_same_query (tris : list Triangle) (l : list Z) :
  forall ray ray',
    fold_left (leaf_step tris) l (Ok ray) = Ok ray' -> same_query ray ray'.
Proof.
  induction l as [|i l IH]; intros ray ray' H; simpl in H.
  - inversion H. apply same_query_refl.
  - destruct (aget tris i) as [tri|] eqn:A; simpl in H.
    + apply IH in H. eapply same_query_trans; [|exact H].
      apply ray_triangle_intersect_same_query.
    + rewrite leaf_fold_Err in H. discriminate.
Qed.

(** The walk changes nothing of a ray but its hit record. *)
Lemma _recursive_intersect_same_query (tris : list Triangle) (node : BVHNode) :
  forall ray ray',
    _recursive_intersect tris ray node = Ok ray' -> same_query ray ray'.
Proof.
  induction node as [b e bb l r IHl IHr] using BVHNode_tree_ind.
  intros ray ray' H. simpl in H.
  destruct (negb (ray_bbox_intersect ray bb)).
  - inversion H. apply same_query_refl.
  - destruct (e - b <=? LEAF_SIZE).
    + eapply leaf_fold_same_query; exact H.
    + destruct l as [ln|]; [|discriminate].
      destruct r as [rn|].
      * destruct (_recursive_intersect tris ray ln) as [ray1|] eqn:H1;
          simpl in H; [|discriminate].
        eapply same_query_trans; [apply (IHl _ _ H1) | apply (IHr _ _ H)].
      * destruct (_recursive_intersect tris ray ln); discriminate.
Qed.

(** C9.  When the walk leaves the ray without a hit ([elem_id] still
    negative), [intersect] returns that ray as it is: no sampler call is
    made and [data_val] keeps its value; a sampler call is made only when the
    walk recorded a hit.  In [cast_rays] the ray of a pixel starts with
    [elem_id = -1] and [data_val = 0], so for a pixel without a hit the pass
    writes 0 to the pixel's slot of the image and adds no sampler call. *)
Theorem intersect_no_hit
  (sample : ElementSampler -> list float64 -> list float64 -> vec3 -> float64)
  (bvh : BVH) (ray ray1 : Ray) :
  _recursive_intersect (triangles bvh) ray (root bvh) = Ok ray1 ->
  elem_id ray1 < 0 ->
  intersect sample bvh ray = Ok (ray1, []) /\
  data_val ray1 = data_val ray /\
  (forall ray2 calls,
     intersect sample bvh ray = Ok (ray2, calls) -> calls = []) /\
  (forall worker origins N i image calls,
     setup_ray worker origins N i = Ok ray ->
     0 <= i < Z.of_nat (length image) ->
     elem_id ray = -1 /\ data_val ray = f0 /\
     cast_step sample bvh origins N (Ok (worker, image, calls)) i
     = Ok (ray1, put image (Z.to_nat i) f0, calls)).
Proof.
  intros Hwalk Hmiss.
  assert (Hint : intersect sample bvh ray = Ok (ray1, [])).
  { unfold intersect. rewrite Hwalk. simpl.
    apply Z.ltb_lt in Hmiss. rewrite Hmiss. reflexivity. }
  assert (Hval : data_val ray1 = data_val ray).
  { apply _recursive_intersect_same_query in Hwalk. apply Hwalk. }
  split; [exact Hint|]. split; [exact Hval|]. split.
  - intros ray2 calls H. rewrite Hint in H. inversion H. reflexivity.
  - intros worker origins N i image calls Hsetup Hi.
    assert (Hray : elem_id ray = -1 /\ data_val ray = f0).
    { unfold setup_ray in Hsetup.
      destruct (oget origins N 0 i); simpl in Hsetup; [|discriminate].
      destruct (oget origins N 1 i); simpl in Hsetup; [|discriminate].
      destruct (oget origins N 2 i); simpl in Hsetup; [|discriminate].
      inversion Hsetup. simpl. split; reflexivity. }
    split; [apply Hray|]. split; [apply Hray|].
    unfold cast_step. simpl. rewrite Hsetup. simpl. rewrite Hint. simpl.
    rewrite Hval, (proj2 Hray).
    rewrite aset_in_bounds by exact Hi. simpl.
    rewrite app_nil_r. reflexivity.
Qed.

(** A sampler call is made only for a ray on which the walk recorded a
    hit. *)
Lemma intersect_samples_only_hits
  (sample : ElementSampler -> list float64 -> list float64 -> vec3 -> float64)
  (bvh : BVH) (ray ray2 : Ray) (calls : list SamplerCall) :
  intersect sample bvh ray = Ok (ray2, calls) -> calls <> [] ->
  exists ray1,
    _recursive_intersect (triangles bvh) ray (root bvh) = Ok ray1 /\
    0 <= elem_id ray1.
Proof.
  unfold intersect. intros H Hcalls.
  destruct (_recursive_intersect (triangles bvh) ray (root bvh)) as [ray1|];
    simpl in H; [|discriminate].
  exists ray1. split; [reflexivity|].
  destruct (elem_id ray1 <? 0) eqn:E.
  - inversion H. congruence.
  - apply Z.ltb_ge in E. exact E.
Qed.

Lemma intersect_no_hit_witness :
  cast_step first_value box_bvh outside_origins 1
    (Ok (upward_ray, [fz 9], [])) 0
  = Ok (mkRay (Vec3 (fz 5) (fz 5) (fz 5)) (Vec3 f0 f0 f1)
              (Vec3 (fdiv f1 f0) (fdiv f1 f0) (fdiv f1 f1)) f0 f0 INF (-1) 0,
        [f0], []).
Proof.
  destruct (intersect_no_hit first_value box_bvh
              (mkRay (Vec3 (fz 5) (fz 5) (fz 5)) (Vec3 f0 f0 f1)
                     (Vec3 (fdiv f1 f0) (fdiv f1 f0) (fdiv f1 f1))
                     f0 f0 INF (-1) 0)
              (mkRay (Vec3 (fz 5) (fz 5) (fz 5)) (Vec3 f0 f0 f1)
                     (Vec3 (fdiv f1 f0) (fdiv f1 f0) (fdiv f1 f1))
                     f0 f0 INF (-1) 0))
    as (_ & _ & _ & W).
  - vm_compute. reflexivity.
  - simpl. lia.
  - apply (W upward_ray outside_origins 1 0 [fz 9] []).
    + vm_compute. reflexivity.
    + simpl. lia.
Defined.

(** ** What [_partition] does on every input *)

Lemma nth_error_put_same {A : Type} (a : list A) (n : nat) (x : A) :
  (n < length a)%nat -> nth_error (put a n x) n = Some x.
Proof.
  revert n; induction a as [|y a IH]; intros [|n] Hn; simpl in *;
    try lia; [reflexivity | apply IH; lia].
Qed.

Lemma nth_error_put_other {A : Type} (a : list A) (n m : nat) (x : A) :
  n <> m -> nth_error (put a n x) m = nth_error a m.
Proof.
  revert n m; induction a as [|y a IH]; intros [|n] [|m] Hnm; simpl;
    try reflexivity; [congruence | apply IH; congruence].
Qed.

Lemma aget_nth_error {A : Type} (a : list A) (i : Z) :
  0 <= i ->
  aget a i = match nth_error a (Z.to_nat i) with
             | Some x => Ok x
             | None => Err OutOfBounds
             end.
Proof.
  intros Hi. unfold aget.
  destruct (i <? 0) eqn:E; [apply Z.ltb_lt in E; lia | reflexivity].
Qed.

Lemma aget_put_same {A : Type} (a : list A) (i : Z) (x : A) :
  0 <= i < Z.of_nat (length a) -> aget (put a (Z.to_nat i) x) i = Ok x.
Proof.
  intros Hi. rewrite aget_nth_error by lia.
  rewrite nth_error_put_same by lia. reflexivity.
Qed.

Lemma aget_put_other {A : Type} (a : list A) (i j : Z) (x : A) :
  0 <= i -> i <> j -> aget (put a (Z.to_nat i) x) j = aget a j.
Proof.
  intros Hi Hij. unfold aget. destruct (j <? 0) eqn:E; [reflexivity|].
  apply Z.ltb_ge in E. rewrite nth_error_put_other by lia. reflexivity.
Qed.

(** Exchanging two cells of an array permutes it. *)
Lemma swap_Permutation {A : Type} (a : list A) (i j : nat) (x y : A) :
  nth_error a i = Some x -> nth_error a j = Some y ->
  Permutation a (put (put a i y) j x).
Proof.
  intros Hx Hy. apply Permutation_nth_error. split.
  - rewrite !put_length. reflexivity.
  - exists (fun n => if Nat.eqb n i then j else if Nat.eqb n j then i else n).
    split.
    + intros n m.
      destruct (Nat.eqb_spec n i), (Nat.eqb_spec n j),
        (Nat.eqb_spec m i), (Nat.eqb_spec m j); lia.
    + intros n.
      assert (Hi : (i < length a)%nat) by (apply nth_error_Some; congruence).
      assert (Hj : (j < length a)%nat) by (apply nth_error_Some; congruence).
      destruct (Nat.eqb_spec n j) as [-> | Hnj].
      * rewrite nth_error_put_same by (rewrite put_length; lia).
        destruct (Nat.eqb_spec j i) as [-> | _]; congruence.
      * rewrite nth_error_put_other by congruence.
        destruct (Nat.eqb_spec n i) as [-> | Hni].
        -- rewrite nth_error_put_same by lia. congruence.
        -- rewrite nth_error_put_other by congruence. reflexivity.
Qed.

(** The invariant of the loop: the cells from [mid] up to [begin] hold no
    centroid greater than the split.  A finished run leaves the array
    permuted, untouched outside [mid, end), with the centroids greater than
    the split in front of the returned boundary and the others behind it. *)
Lemma _partition_loop_spec (fuel : nat) :
  forall tris mid b e ax split tris' mid',
    0 <= mid <= b -> b <= e ->
    (forall i t, mid <= i < b -> aget tris i = Ok t ->
                 fgt (vget (centroid t) ax) split = false) ->
    _partition_loop fuel tris mid b e ax split = Ok (tris', mid') ->
    Permutation tris tris' /\
    (forall i, i < mid \/ e <= i -> aget tris' i = aget tris i) /\
    (forall i t, mid <= i < mid' -> aget tris' i = Ok t ->
                 fgt (vget (centroid t) ax) split = true) /\
    (forall i t, mid' <= i < e -> aget tris' i = Ok t ->
                 fgt (vget (centroid t) ax) split = false).
Proof.
  induction fuel as [|fuel IH];
    intros tris mid b e ax split tris' mid' Hm Hbe Hinv H; simpl in H;
    [discriminate|].
  destruct (b =? e) eqn:Ebe.
  - apply Z.eqb_eq in Ebe. inversion H; subst. repeat split.
    + apply Permutation_refl.
    + intros; lia.
    + intros i t Hi Hget. apply (Hinv i t); [lia | exact Hget].
  - apply Z.eqb_neq in Ebe.
    destruct (aget tris mid) as [tm|] eqn:Am; simpl in H; [|discriminate].
    destruct (fgt (vget (centroid tm) ax) split) eqn:Gm.
    + assert (mid = b).
      { destruct (Z.eq_dec mid b) as [|Hne]; [assumption|].
        rewrite (Hinv mid tm) in Gm; [discriminate | lia | exact Am]. }
      subst b.
      apply IH in H; [|lia | lia | intros; lia].
      destruct H as (Hperm & Hout & Hgt & Hle).
      repeat split; [exact Hperm | intros; apply Hout; lia | | exact Hle].
      intros i t Hi Hget.
      destruct (Z.eq_dec i mid) as [-> | Hne].
      * rewrite Hout in Hget by lia. congruence.
      * apply (Hgt i t); [lia | exact Hget].
    + destruct (aget tris b) as [tb|] eqn:Ab; simpl in H; [|discriminate].
      destruct (fgt (vget (centroid tb) ax) split) eqn:Gb.
      * destruct (aset tris mid tb) as [t1|] eqn:S1; simpl in H; [|discriminate].
        destruct (aset t1 b tm) as [t2|] eqn:S2; simpl in H; [|discriminate].
        pose proof (aget_Ok_bounds _ _ _ Am) as Bm.
        pose proof (aget_Ok_bounds _ _ _ Ab) as Bb.
        rewrite aset_in_bounds in S1 by lia. inversion S1; subst t1; clear S1.
        rewrite aset_in_bounds in S2 by (rewrite put_length; lia).
        inversion S2; subst t2; clear S2.
        assert (Hmb : mid <> b) by (intros ->; congruence).
        apply IH in H; [|lia | lia |].
        -- destruct H as (Hperm & Hout & Hgt & Hle).
           repeat split.
           ++ eapply Permutation_trans; [|exact Hperm].
              apply swap_Permutation.
              ** rewrite aget_nth_error in Am by lia.
                 destruct (nth_error tris (Z.to_nat mid)); congruence.
              ** rewrite aget_nth_error in Ab by lia.
                 destruct (nth_error tris (Z.to_nat b)); congruence.
           ++ intros i Hi. rewrite Hout by lia.
              rewrite !aget_put_other by lia. reflexivity.
           ++ intros i t Hi Hget.
              destruct (Z.eq_dec i mid) as [-> | Hne].
              ** rewrite Hout in Hget by lia.
                 rewrite aget_put_other in Hget by lia.
                 rewrite aget_put_same in Hget by lia. congruence.
              ** apply (Hgt i t); [lia | exact Hget].
           ++ exact Hle.
        -- intros i t Hi Hget.
           destruct (Z.eq_dec i b) as [-> | Hne].
           ++ rewrite aget_put_same in Hget by (rewrite put_length; lia).
              congruence.
           ++ rewrite !aget_put_other in Hget by lia.
              apply (Hinv i t); [lia | exact Hget].
      * apply IH in H; [|lia | lia |].
        -- destruct H as (Hperm & Hout & Hgt & Hle).
           repeat split; [exact Hperm | intros; apply Hout; lia
                         | exact Hgt | exact Hle].
        -- intros i t Hi Hget.
           destruct (Z.eq_dec i b) as [-> | Hne]; [congruence|].
           apply (Hinv i t); [lia | exact Hget].
Qed.

(** X1.  On every range, [_partition] permutes the array inside [begin, end) and
    returns a boundary [mid] with the centroids greater than the split in
    [begin, mid) and the centroids not greater than it in [mid, end). *)
Lemma _partition_spec (tris tris' : list Triangle) (b e ax mid : Z)
  (split : float64) :
  0 <= b <= e ->
  _partition tris b e ax split = Ok (tris', mid) ->
  b <= mid <= e /\
  Permutation tris tris' /\
  (forall i, i < b \/ e <= i -> aget tris' i = aget tris i) /\
  (forall i t, b <= i < mid -> aget tris' i = Ok t ->
               fgt (vget (centroid t) ax) split = true) /\
  (forall i t, mid <= i < e -> aget tris' i = Ok t ->
               fgt (vget (centroid t) ax) split = false).
Proof.
  intros Hb H. split.
  - apply _partition_Ok in H; [tauto | lia].
  - apply _partition_loop_spec in H; [exact H | lia | lia | intros; lia].
Qed.

(** * Further properties of the module *)

(** ** [_partition] on its own *)

Lemma partition_spec_witness :
  0 <= 1 <= 2 /\
  Permutation [flat_triangle 0 0; flat_triangle 5 1]
              [flat_triangle 5 1; flat_triangle 0 0].
Proof.
  destruct (_partition_spec [flat_triangle 0 0; flat_triangle 5 1]
              [flat_triangle 5 1; flat_triangle 0 0] 0 2 0 1 (fz 2))
    as (Hmid & Hperm & _).
  - lia.
  - reflexivity.
  - split; [exact Hmid | exact Hperm].
Defined.

(** X2.  On a range inside the array, [_partition] finishes without an
    access outside the array; the array keeps its length and the boundary
    lies in the range. *)
Theorem partition_in_bounds (tris : list Triangle) (b e ax : Z)
  (split : float64) :
  0 <= b <= e -> e <= Z.of_nat (length tris) ->
  exists tris' mid,
    _partition tris b e ax split = Ok (tris', mid) /\
    length tris' = length tris /\ b <= mid <= e.
Proof.
  intros Hb He.
  destruct (_partition_total tris b e ax split Hb He) as (tris' & mid & H).
  exists tris', mid. split; [exact H|].
  apply _partition_Ok in H; [exact H | lia].
Qed.

Lemma partition_in_bounds_witness :
  exists tris' mid,
    _partition box_triangles 0 20 2 (fz 1) = Ok (tris', mid) /\
    length tris' = length box_triangles /\ 0 <= mid <= 20.
Proof.
  apply (partition_in_bounds box_triangles 0 20 2 (fz 1)).
  - lia.
  - change (Z.of_nat (length box_triangles)) with 20. lia.
Defined.

(** The other side of the range: outside the array the loop stops at its
    first comparison. *)
Lemma _partition_out_of_bounds (tris : list Triangle) (b e ax : Z)
  (split : float64) :
  b <> e -> b < 0 \/ Z.of_nat (length tris) <= b ->
  _partition tris b e ax split = Err OutOfBounds.
Proof.
  intros Hbe Hb. unfold _partition. simpl.
  apply Z.eqb_neq in Hbe. rewrite Hbe.
  rewrite aget_out_of_bounds by exact Hb. reflexivity.
Qed.

(** ** The array of triangles through the build *)

Lemma range_from_refl (tris : list Triangle) (b e : Z) :
  range_from tris tris b e.
Proof. intros i t Hi H. exists i. auto. Qed.

Lemma range_from_trans (t1 t2 t3 : list Triangle) (b e : Z) :
  range_from t1 t2 b e -> range_from t2 t3 b e -> range_from t1 t3 b e.
Proof.
  intros H12 H23 i t Hi H.
  destruct (H23 i t Hi H) as (i2 & Hi2 & H2). exact (H12 i2 t Hi2 H2).
Qed.

Lemma range_from_all (P : Triangle -> Prop) (tris tris' : list Triangle)
  (b e : Z) :
  range_from tris tris' b e -> range_all P tris b e -> range_all P tris' b e.
Proof.
  intros Hfrom Hall i t Hi H.
  destruct (Hfrom i t Hi H) as (i' & Hi' & H'). exact (Hall i' t Hi' H').
Qed.

(** A finished run of the loop of [_partition] takes every triangle of an
    enclosing range from that range. *)
Lemma _partition_loop_range_from (fuel : nat) :
  forall tris mid b e ax split tris' mid' B E,
    B <= mid <= b -> b <= e <= E ->
    _partition_loop fuel tris mid b e ax split = Ok (tris', mid') ->
    range_from tris tris' B E.
Proof.
  induction fuel as [|fuel IH];
    intros tris mid b e ax split tris' mid' B E Hm Hb H; simpl in H;
    [discriminate|].
  destruct (b =? e) eqn:Ebe.
  - inversion H; subst. apply range_from_refl.
  - apply Z.eqb_neq in Ebe.
    destruct (aget tris mid) as [tm|] eqn:Am; simpl in H; [|discriminate].
    destruct (fgt (vget (centroid tm) ax) split).
    + apply (IH _ _ _ _ _ _ _ _ B E) in H; [exact H | lia | lia].
    + destruct (aget tris b) as [tb|] eqn:Ab; simpl in H; [|discriminate].
      destruct (fgt (vget (centroid tb) ax) split).
      * destruct (aset tris mid tb) as [t1|] eqn:S1; simpl in H; [|discriminate].
        destruct (aset t1 b tm) as [t2|] eqn:S2; simpl in H; [|discriminate].
        pose proof (aget_Ok_bounds _ _ _ Am) as Bm.
        pose proof (aget_Ok_bounds _ _ _ Ab) as Bb.
        rewrite aset_in_bounds in S1 by lia. inversion S1; subst t1; clear S1.
        rewrite aset_in_bounds in S2 by (rewrite put_length; lia).
        inversion S2; subst t2; clear S2.
        apply (IH _ _ _ _ _ _ _ _ B E) in H; [|lia | lia].
        eapply range_from_trans; [|exact H].
        intros i t Hi Hget.
        destruct (Z.eq_dec i b) as [-> | Hnb].
        -- rewrite aget_put_same in Hget by (rewrite put_length; lia).
           exists mid. split; [lia | congruence].
        -- rewrite aget_put_other in Hget by lia.
           destruct (Z.eq_dec i mid) as [-> | Hnm].
           ++ rewrite aget_put_same in Hget by lia.
              exists b. split; [lia | congruence].
           ++ rewrite aget_put_other in Hget by lia.
              exists i. split; [lia | exact Hget].
      * apply (IH _ _ _ _ _ _ _ _ B E) in H; [exact H | lia | lia].
Qed.

(** What a finished build does to the array: a permutation, nothing changed
    outside the range, and every triangle of an enclosing range taken from
    that range. *)
Lemma _recursive_build_fuel_array (fuel : nat) :
  forall tris b e tris' n,
    0 <= b ->
    _recursive_build_fuel fuel tris b e = Ok (tris', n) ->
    Permutation tris tris' /\
    (forall i, i < b \/ e <= i -> aget tris' i = aget tris i) /\
    (forall B E, B <= b -> e <= E -> range_from tris tris' B E).
Proof.
  induction fuel as [|fuel IH]; intros tris b e tris' n Hb0 H; simpl in H;
    [discriminate|].
  destruct (_get_node_bbox tris b e) as [bbox|]; simpl in H; [|discriminate].
  destruct (e - b <=? LEAF_SIZE) eqn:Hleaf.
  - inversion H; subst. repeat split; auto using Permutation_refl.
    intros; apply range_from_refl.
  - apply Z.leb_gt in Hleaf. unfold LEAF_SIZE in Hleaf.
    destruct (_partition tris b e _ _) as [[tris1 mid0]|] eqn:Hp; simpl in H;
      [|discriminate].
    pose proof Hp as Hp2.
    apply _partition_Ok in Hp2; [|lia]. destruct Hp2 as [_ Hmid0].
    pose proof (fix_mid_bounds b e mid0 ltac:(lia) Hmid0) as Hmid.
    set (mid := fix_mid b e mid0) in *.
    destruct (_recursive_build_fuel fuel tris1 b mid) as [[tris2 l]|] eqn:Hl;
      simpl in H; [|discriminate].
    destruct (_recursive_build_fuel fuel tris2 mid e) as [[tris3 r]|] eqn:Hr;
      simpl in H; [|discriminate].
    inversion H; subst; clear H.
    apply IH in Hl; [|lia]. apply IH in Hr; [|lia].
    destruct Hl as (Pl & Ol & Fl). destruct Hr as (Pr & Or & Fr).
    pose proof Hp as Hp2.
    unfold _partition in Hp.
    apply _partition_loop_spec in Hp; [|lia | lia | intros; lia].
    destruct Hp as (Pp & Op & _).
    repeat split.
    + eapply Permutation_trans; [exact Pp|].
      eapply Permutation_trans; [exact Pl | exact Pr].
    + intros i Hi. rewrite Or by lia. rewrite Ol by lia. apply Op. lia.
    + intros B E HB HE.
      eapply range_from_trans;
        [|eapply range_from_trans; [apply Fl | apply Fr]]; try lia.
      unfold _partition in Hp2.
      eapply _partition_loop_range_from; [| |exact Hp2]; lia.
Qed.

Lemma recursive_build_perm_helper (tris tris' : list Triangle) (b e : Z)
  (root : BVHNode) :
  0 <= b ->
  _recursive_build tris b e = Ok (tris', root) -> Permutation tris tris'.
Proof.
  intros Hb H. apply _recursive_build_fuel_array in H; [tauto | exact Hb].
Qed.

(** X3.  A finished build leaves the array of triangles a permutation of
    what it was, and changes no cell outside the range it was given. *)
Theorem recursive_build_permutes (tris tris' : list Triangle) (b e : Z)
  (root : BVHNode) :
  0 <= b ->
  _recursive_build tris b e = Ok (tris', root) ->
  Permutation tris tris' /\
  (forall i, i < b \/ e <= i -> aget tris' i = aget tris i).
Proof.
  intros Hb H. apply _recursive_build_fuel_array in H; [tauto | exact Hb].
Qed.

Lemma recursive_build_permutes_witness :
  Permutation box_triangles (fst box_built) /\
  (forall i, i < 0 \/ 20 <= i ->
             aget (fst box_built) i = aget box_triangles i).
Proof.
  apply (recursive_build_permutes box_triangles (fst box_built) 0 20
           (snd box_built)).
  - lia.
  - vm_compute. reflexivity.
Defined.

(** ** Boxes *)

Lemma fle_refl (a : float64) : non_nan a -> fle a a = true.
Proof. unfold non_nan; destruct a; fsolve. Qed.

Lemma fle_trans (a b c : float64) :
  fle a b = true -> fle b c = true -> fle a c = true.
Proof. destruct a, b, c; fsolve. Qed.

Lemma flt_trans (a b c : float64) :
  flt a b = true -> flt b c = true -> flt a c = true.
Proof. destruct a, b, c; fsolve. Qed.

Lemma fmin_le (a b : float64) :
  non_nan a -> non_nan b ->
  fle (fmin a b) a = true /\ fle (fmin a b) b = true.
Proof. unfold non_nan; destruct a, b; fsolve. Qed.

Lemma fmax_ge (a b : float64) :
  non_nan a -> non_nan b ->
  fle a (fmax a b) = true /\ fle b (fmax a b) = true.
Proof. unfold non_nan; destruct a, b; fsolve. Qed.

Lemma fmin_cases (a b : float64) : fmin a b = a \/ fmin a b = b.
Proof. unfold fmin. destruct (is_nan a), (is_nan b), (flt b a); auto. Qed.

Lemma fmax_cases (a b : float64) : fmax a b = a \/ fmax a b = b.
Proof. unfold fmax. destruct (is_nan a), (is_nan b), (flt a b); auto. Qed.

Lemma vec_le_refl (a : vec3) : vec_real a -> vec_le a a = true.
Proof.
  intros (H0 & H1 & H2). unfold vec_le. rewrite !fle_refl by assumption.
  reflexivity.
Qed.

Lemma vec_le_trans (a b c : vec3) :
  vec_le a b = true -> vec_le b c = true -> vec_le a c = true.
Proof.
  unfold vec_le. rewrite !andb_true_iff.
  intros [[A0 A1] A2] [[B0 B1] B2].
  repeat split; eapply fle_trans; eassumption.
Qed.

Lemma box_inside_refl (box : BBox) : box_real box -> box_inside box box = true.
Proof.
  intros [Hl Hr]. unfold box_inside. rewrite !vec_le_refl by assumption.
  reflexivity.
Qed.

Lemma box_inside_trans (a b c : BBox) :
  box_inside a b = true -> box_inside b c = true -> box_inside a c = true.
Proof.
  unfold box_inside. rewrite !andb_true_iff. intros [A1 A2] [B1 B2].
  split; eapply vec_le_trans; eassumption.
Qed.

(** The three passes of the inner loop of [_get_node_bbox] widen the box to
    the union with the box of the triangle. *)
Lemma grow_axis_fold (tb box : BBox) :
  fold_left (grow_axis tb) [0; 1; 2] box = box_union box tb.
Proof. destruct box as [[? ? ?] [? ? ?]]. reflexivity. Qed.

Lemma box_union_real (box tb : BBox) :
  box_real box -> box_real (box_union box tb).
Proof.
  intros [(L0 & L1 & L2) (R0 & R1 & R2)]. unfold box_union, box_real, vec_real.
  simpl. repeat split; first [apply fmin_non_nan | apply fmax_non_nan];
    assumption.
Qed.

Lemma box_union_inside (box tb : BBox) :
  box_real box -> box_real tb ->
  box_inside box (box_union box tb) = true /\
  box_inside tb (box_union box tb) = true.
Proof.
  intros [(L0 & L1 & L2) (R0 & R1 & R2)] [(M0 & M1 & M2) (S0 & S1 & S2)].
  unfold box_inside, vec_le, box_union. simpl.
  destruct (fmin_le _ _ L0 M0) as [-> ->]. destruct (fmin_le _ _ L1 M1) as [-> ->].
  destruct (fmin_le _ _ L2 M2) as [-> ->]. destruct (fmax_ge _ _ R0 S0) as [-> ->].
  destruct (fmax_ge _ _ R1 S1) as [-> ->]. destruct (fmax_ge _ _ R2 S2) as [-> ->].
  split; reflexivity.
Qed.

Lemma vget_cases (v : vec3) (j : Z) :
  vget v j = c0 v \/ vget v j = c1 v \/ vget v j = c2 v.
Proof. unfold vget. destruct (j =? 0), (j =? 1); auto. Qed.

Lemma grow_box_Err (tris : list Triangle) (l : list Z) (e : error) :
  fold_left (grow_box tris) l (Err e) = Err e.
Proof. induction l as [|i l IH]; simpl; auto. Qed.

Lemma grow_box_step (tris : list Triangle) (box : BBox) (k : Z) :
  grow_box tris (Ok box) k =
  match aget tris k with
  | Ok t => Ok (box_union box (tri_bbox t))
  | Err e => Err e
  end.
Proof.
  unfold grow_box, bind. destruct (aget tris k); [|reflexivity].
  rewrite grow_axis_fold. reflexivity.
Qed.

(** The scan of [_get_node_bbox] over the cells [l], started from [box]. *)
Lemma grow_box_fold_inv (tris : list Triangle) (l : list Z) :
  forall box box',
    fold_left (grow_box tris) l (Ok box) = Ok box' ->
    (forall i t, In i l -> aget tris i = Ok t -> box_real (tri_bbox t)) ->
    box_real box ->
    box_real box' /\ box_inside box box' = true /\
    forall i t, In i l -> aget tris i = Ok t ->
                box_inside (tri_bbox t) box' = true.
Proof.
  induction l as [|k l IH]; intros box box' H Hreal Hbox.
  - inversion H; subst. split; [exact Hbox|].
    split; [apply box_inside_refl; exact Hbox | intros i t []].
  - cbn [fold_left] in H. rewrite grow_box_step in H.
    destruct (aget tris k) as [tk|] eqn:Ak;
      [|rewrite grow_box_Err in H; discriminate].
    assert (Hk : box_real (tri_bbox tk)) by (apply (Hreal k); simpl; auto).
    destruct (box_union_inside box (tri_bbox tk) Hbox Hk) as [U1 U2].
    apply IH in H; [|intros i t Hi; apply Hreal; simpl; auto
                    |apply box_union_real; exact Hbox].
    destruct H as (R & I & A).
    split; [exact R|]. split; [eapply box_inside_trans; eassumption|].
    intros i t [<- | Hi] Hget.
    + assert (t = tk) by congruence. subst t.
      eapply box_inside_trans; eassumption.
    + apply (A i t Hi Hget).
Qed.

Lemma grow_box_fold_attained (tris : list Triangle) (l : list Z) :
  forall box box' seen,
    fold_left (grow_box tris) l (Ok box) = Ok box' ->
    attained tris seen box ->
    attained tris (seen ++ l) box'.
Proof.
  induction l as [|k l IH]; intros box box' seen H Hatt.
  - inversion H; subst. rewrite app_nil_r. exact Hatt.
  - cbn [fold_left] in H. rewrite grow_box_step in H.
    destruct (aget tris k) as [tk|] eqn:Ak;
      [|rewrite grow_box_Err in H; discriminate].
    apply (IH _ _ (seen ++ [k])) in H.
    + rewrite <- app_assoc in H. exact H.
    + intros j. destruct (Hatt j) as [(il & tl & Il & Al & El)
                                       (ir & tr & Ir & Ar & Er)].
      assert (Hk : In k (seen ++ [k])) by (apply in_or_app; simpl; auto).
      split.
      * unfold box_union, vget in *; simpl.
        destruct (j =? 0); [|destruct (j =? 1)];
          match goal with
          | |- context [fmin ?a ?b] => destruct (fmin_cases a b) as [-> | ->]
          end;
          solve [ exists il, tl; split; [apply in_or_app; auto | auto]
                | exists k, tk; split; [exact Hk | auto] ].
      * unfold box_union, vget in *; simpl.
        destruct (j =? 0); [|destruct (j =? 1)];
          match goal with
          | |- context [fmax ?a ?b] => destruct (fmax_cases a b) as [-> | ->]
          end;
          solve [ exists ir, tr; split; [apply in_or_app; auto | auto]
                | exists k, tk; split; [exact Hk | auto] ].
Qed.

Lemma in_zrange (a b i : Z) : In i (zrange a b) <-> a <= i < b.
Proof.
  unfold zrange. rewrite in_map_iff. split.
  - intros (k & <- & Hk). apply in_seq in Hk. lia.
  - intros Hi. exists (Z.to_nat (i - a)). split; [lia|].
    apply in_seq. lia.
Qed.

(** The box of a non-empty range contains the box of every triangle of the
    range. *)
Lemma _get_node_bbox_contains (tris : list Triangle) (b e : Z) (box : BBox) :
  b < e ->
  range_all (fun t => box_real (tri_bbox t)) tris b e ->
  _get_node_bbox tris b e = Ok box ->
  box_real box /\
  range_all (fun t => box_inside (tri_bbox t) box = true) tris b e.
Proof.
  intros Hbe Hreal H. unfold _get_node_bbox in H.
  destruct (aget tris b) as [tb|] eqn:Ab; simpl in H; [|discriminate].
  assert (Hb : box_real (tri_bbox tb)) by (apply (Hreal b); [lia | exact Ab]).
  apply grow_box_fold_inv in H; [|intros i t Hi; apply in_zrange in Hi;
                                   apply Hreal; lia | exact Hb].
  destruct H as (R & I & A).
  split; [exact R|].
  intros i t Hi Hget.
  destruct (Z.eq_dec i b) as [-> | Hne].
  - assert (t = tb) by congruence. subst t. exact I.
  - apply (A i t); [apply in_zrange; lia | exact Hget].
Qed.

(** X4.  The box [_get_node_bbox] returns for a non-empty range whose
    triangle boxes hold no NaN contains the box of every triangle of the
    range, and each of its six coordinates is that coordinate of the box of
    some triangle of the range: it is the smallest such box. *)
Theorem get_node_bbox_is_union (tris : list Triangle) (b e : Z) (box : BBox) :
  b < e ->
  range_all (fun t => box_real (tri_bbox t)) tris b e ->
  _get_node_bbox tris b e = Ok box ->
  box_real box /\
  range_all (fun t => box_inside (tri_bbox t) box = true) tris b e /\
  forall j,
    (exists i t, b <= i < e /\ aget tris i = Ok t /\
                 vget (left_edge box) j = vget (left_edge (tri_bbox t)) j) /\
    (exists i t, b <= i < e /\ aget tris i = Ok t /\
                 vget (right_edge box) j = vget (right_edge (tri_bbox t)) j).
Proof.
  intros Hbe Hreal H.
  destruct (_get_node_bbox_contains tris b e box Hbe Hreal H) as [R A].
  split; [exact R|]. split; [exact A|].
  unfold _get_node_bbox in H.
  destruct (aget tris b) as [tb|] eqn:Ab; simpl in H; [|discriminate].
  apply (grow_box_fold_attained _ _ _ _ [b]) in H.
  - intros j. destruct (H j) as [(il & tl & Il & Al & El)
                                  (ir & tr & Ir & Ar & Er)].
    assert (Hin : forall i, In i ([b] ++ zrange (b + 1) e) -> b <= i < e).
    { intros i Hi. apply in_app_or in Hi. destruct Hi as [[<- | []] | Hi];
        [lia | apply in_zrange in Hi; lia]. }
    split; [exists il, tl | exists ir, tr]; auto.
  - intros j. split; exists b, tb; simpl; auto.
Qed.

Lemma box_triangles_real :
  range_all (fun t => box_real (tri_bbox t)) box_triangles 0 20.
Proof.
  assert (H : Forall (fun t => box_real (tri_bbox t)) box_triangles).
  { unfold box_triangles.
    repeat constructor; simpl; unfold non_nan; discriminate. }
  intros i t Hi Hget. rewrite Forall_forall in H. apply H.
  rewrite aget_nth_error in Hget by lia.
  destruct (nth_error box_triangles (Z.to_nat i)) eqn:N; [|discriminate].
  inversion Hget; subst. eapply nth_error_In; exact N.
Qed.

Lemma get_node_bbox_is_union_witness :
  box_real (node_bbox (snd box_built)) /\
  range_all (fun t => box_inside (tri_bbox t) (node_bbox (snd box_built)) = true)
            box_triangles 0 20.
Proof.
  destruct (get_node_bbox_is_union box_triangles 0 20
              (node_bbox (snd box_built))) as (R & A & _).
  - lia.
  - exact box_triangles_real.
  - vm_compute. reflexivity.
  - split; [exact R | exact A].
Defined.

(** The boxes of a finished build over a non-empty range, against the array
    the build returns. *)
Lemma _recursive_build_fuel_boxes (fuel : nat) :
  forall tris b e tris' n,
    0 <= b < e ->
    range_all (fun t => box_real (tri_bbox t)) tris b e ->
    _recursive_build_fuel fuel tris b e = Ok (tris', n) ->
    Forall (fun m =>
              box_real (node_bbox m) /\
              range_all (fun t => box_inside (tri_bbox t) (node_bbox m) = true)
                        tris' (node_begin m) (node_end m))
           (nodes_of n).
Proof.
  induction fuel as [|fuel IH]; intros tris b e tris' n Hb Hreal H;
    [discriminate|].
  pose proof H as Hall. apply _recursive_build_fuel_array in Hall; [|lia].
  destruct Hall as (_ & _ & Hfrom).
  simpl in H.
  destruct (_get_node_bbox tris b e) as [bbox|] eqn:Hbox; simpl in H;
    [|discriminate].
  destruct (_get_node_bbox_contains tris b e bbox ltac:(lia) Hreal Hbox)
    as [Rbox Abox].
  assert (Hroot : range_all (fun t => box_inside (tri_bbox t) bbox = true)
                            tris' b e).
  { eapply range_from_all; [apply Hfrom; lia | exact Abox]. }
  destruct (e - b <=? LEAF_SIZE) eqn:Hleaf.
  - inversion H; subst. constructor; [|constructor]. simpl. auto.
  - apply Z.leb_gt in Hleaf. unfold LEAF_SIZE in Hleaf.
    destruct (_partition tris b e _ _) as [[tris1 mid0]|] eqn:Hp; simpl in H;
      [|discriminate].
    pose proof Hp as Hp2.
    apply _partition_Ok in Hp2; [|lia]. destruct Hp2 as [_ Hmid0].
    pose proof (fix_mid_bounds b e mid0 ltac:(lia) Hmid0) as Hmid.
    set (mid := fix_mid b e mid0) in *.
    destruct (_recursive_build_fuel fuel tris1 b mid) as [[tris2 l]|] eqn:Hl;
      simpl in H; [|discriminate].
    destruct (_recursive_build_fuel fuel tris2 mid e) as [[tris3 r]|] eqn:Hr;
      simpl in H; [|discriminate].
    inversion H; subst; clear H.
    assert (F1 : range_from tris tris1 b e).
    { unfold _partition in Hp.
      eapply _partition_loop_range_from; [| |exact Hp]; lia. }
    pose proof (_recursive_build_fuel_array fuel tris1 b mid tris2 l
                  ltac:(lia) Hl) as (_ & _ & F2).
    pose proof (_recursive_build_fuel_array fuel tris2 mid e tris' r
                  ltac:(lia) Hr) as (_ & O3 & _).
    assert (R1 : range_all (fun t => box_real (tri_bbox t)) tris1 b e).
    { eapply range_from_all; [exact F1 | exact Hreal]. }
    assert (R2 : range_all (fun t => box_real (tri_bbox t)) tris2 b e).
    { eapply range_from_all; [apply F2; lia | exact R1]. }
    pose proof (_recursive_build_fuel_Ok _ _ _ _ _ _ Hl) as (_ & _ & _ & Nl).
    apply IH in Hl; [|lia | intros i t Hi; apply R1; lia].
    apply IH in Hr; [|lia | intros i t Hi; apply R2; lia].
    simpl. constructor; [simpl; auto|].
    apply Forall_app. split; [|exact Hr].
    rewrite Forall_forall in *. intros m Hm.
    destruct (Hl m Hm) as [Rm Am]. destruct (Nl m Hm) as (_ & Nb & Ne & _).
    split; [exact Rm|].
    intros i t Hi Hget. rewrite O3 in Hget by lia. exact (Am i t Hi Hget).
Qed.

(** X5.  In the tree a build returns over a non-empty range whose triangle
    boxes hold no NaN, the box of every node contains the box of every
    triangle that the returned array holds in the range of the node. *)
Theorem recursive_build_boxes_bound (tris tris' : list Triangle) (b e : Z)
  (root : BVHNode) :
  0 <= b < e ->
  range_all (fun t => box_real (tri_bbox t)) tris b e ->
  _recursive_build tris b e = Ok (tris', root) ->
  forall n, In n (nodes_of root) ->
    box_real (node_bbox n) /\
    forall i t, node_begin n <= i < node_end n -> aget tris' i = Ok t ->
                box_inside (tri_bbox t) (node_bbox n) = true.
Proof.
  intros Hb Hreal H n Hn.
  apply _recursive_build_fuel_boxes in H; [|exact Hb | exact Hreal].
  rewrite Forall_forall in H. exact (H n Hn).
Qed.

Lemma recursive_build_boxes_bound_witness :
  0 <= 0 < 20 /\
  forall n, In n (nodes_of (snd box_built)) ->
    box_real (node_bbox n) /\
    forall i t, node_begin n <= i < node_end n ->
                aget (fst box_built) i = Ok t ->
                box_inside (tri_bbox t) (node_bbox n) = true.
Proof.
  split; [lia|].
  apply (recursive_build_boxes_bound box_triangles (fst box_built) 0 20
           (snd box_built)).
  - lia.
  - exact box_triangles_real.
  - vm_compute. reflexivity.
Defined.

(** ** The walk and the destructor on a tree of the builder *)

Lemma tree_ok_children (len b e : Z) (bb : BBox) (l r : option BVHNode) :
  tree_ok len (mkNode b e bb l r) ->
  node_ok (mkNode b e bb l r) /\ 0 <= b /\ e <= len /\
  on_child (tree_ok len) l /\ on_child (tree_ok len) r.
Proof.
  unfold tree_ok. simpl. intros H. inversion H as [|? ? Hn Hrest]; subst.
  apply Forall_app in Hrest. destruct Hrest as [Hl Hr].
  simpl in Hn. destruct Hn as (Hok & Hb & He).
  split; [exact Hok|]. split; [exact Hb|]. split; [exact He|]. split.
  - destruct l; simpl; [exact Hl | exact I].
  - destruct r; simpl; [exact Hr | exact I].
Qed.

Lemma _recursive_build_tree_ok (tris tris' : list Triangle) (b e : Z)
  (root : BVHNode) :
  0 <= b -> e <= Z.of_nat (length tris) ->
  _recursive_build tris b e = Ok (tris', root) ->
  length tris' = length tris /\ tree_ok (Z.of_nat (length tris')) root.
Proof.
  intros Hb He H. apply _recursive_build_Ok in H.
  destruct H as (Hlen & _ & _ & Hall). split; [exact Hlen|].
  unfold tree_ok. rewrite Hlen. eapply Forall_impl; [|exact Hall].
  simpl. intros m (Hok & H1 & H2 & _). split; [exact Hok | lia].
Qed.

Lemma leaf_fold_total (tris : list Triangle) (l : list Z) :
  Forall (fun i => 0 <= i < Z.of_nat (length tris)) l ->
  forall ray, exists ray', fold_left (leaf_step tris) l (Ok ray) = Ok ray'.
Proof.
  induction 1 as [|i l Hi _ IH]; intros ray; simpl; [eauto|].
  destruct (aget_in_bounds tris i Hi) as [t ->]. simpl. apply IH.
Qed.

(** On a sound tree the walk returns a ray: it reads no cell outside the
    array and follows no pointer that was not set. *)
Lemma _recursive_intersect_total (tris : list Triangle) (node : BVHNode) :
  tree_ok (Z.of_nat (length tris)) node ->
  forall ray, exists ray', _recursive_intersect tris ray node = Ok ray'.
Proof.
  induction node as [b e bb l r IHl IHr] using BVHNode_tree_ind.
  intros Hok ray.
  apply tree_ok_children in Hok.
  destruct Hok as ([Hleaf Hsplit] & Hb & He & Hl & Hr).
  simpl. destruct (negb (ray_bbox_intersect ray bb)); [eauto|].
  destruct (e - b <=? LEAF_SIZE) eqn:E.
  - apply leaf_fold_total.
    eapply Forall_impl; [|apply zrange_bounds]. simpl. intros i Hi. lia.
  - apply Z.leb_gt in E.
    destruct (Hsplit E) as [(ln & rn & Hln & Hrn & _) _].
    simpl in Hln, Hrn. subst l r. simpl in *.
    destruct (IHl Hl ray) as [ray1 ->]. simpl. apply (IHr Hr).
Qed.

(** X6.  On the array and the tree that a build returns for a range inside
    the array, the walk of every ray returns a ray: it makes no access
    outside the array of triangles and follows no child pointer that was not
    set. *)
Theorem recursive_intersect_in_bounds (tris tris' : list Triangle) (b e : Z)
  (root : BVHNode) :
  0 <= b -> e <= Z.of_nat (length tris) ->
  _recursive_build tris b e = Ok (tris', root) ->
  forall ray, exists ray', _recursive_intersect tris' ray root = Ok ray'.
Proof.
  intros Hb He H.
  destruct (_recursive_build_tree_ok tris tris' b e root Hb He H) as [_ Hok].
  apply _recursive_intersect_total. exact Hok.
Qed.

Lemma recursive_intersect_in_bounds_witness :
  0 <= 0 /\
  forall ray, exists ray',
    _recursive_intersect (fst box_built) ray (snd box_built) = Ok ray'.
Proof.
  split; [lia|].
  apply (recursive_intersect_in_bounds box_triangles (fst box_built) 0 20
           (snd box_built)).
  - lia.
  - change (Z.of_nat (length box_triangles)) with 20. lia.
  - vm_compute. reflexivity.
Defined.

Lemma _recursive_free_sound (node : BVHNode) :
  Forall node_ok (nodes_of node) ->
  exists freed,
    _recursive_free node = Ok freed /\ Permutation freed (nodes_of node).
Proof.
  induction node as [b e bb l r IHl IHr] using BVHNode_tree_ind.
  intros Hall. simpl in Hall. inversion Hall as [|? ? Hn Hrest]; subst.
  apply Forall_app in Hrest. destruct Hrest as [Hl Hr].
  destruct Hn as [Hleaf Hsplit]. unfold node_size in *. simpl in *.
  destruct (LEAF_SIZE <? e - b) eqn:E.
  - apply Z.ltb_lt in E.
    destruct (Hsplit E) as [(ln & rn & Hln & Hrn & _) _].
    simpl in Hln, Hrn. subst l r. simpl in *.
    destruct (IHl Hl) as (fl & -> & Pl). destruct (IHr Hr) as (fr & -> & Pr).
    simpl. eexists. split; [reflexivity|].
    rewrite app_assoc. eapply Permutation_trans.
    + apply Permutation_sym, Permutation_cons_append.
    + apply perm_skip. apply Permutation_app; assumption.
  - apply Z.ltb_ge in E. destruct (Hleaf E) as [Hl0 Hr0].
    simpl in Hl0, Hr0. subst l r. simpl.
    eexists. split; [reflexivity | apply Permutation_refl].
Qed.

(** X7.  On the tree that a build returns, [_recursive_free] follows no
    child pointer that was not set and frees the nodes of the tree, each one
    once: the test of the destructor for a node with children is the test of
    the builder. *)
Theorem recursive_free_frees_tree (tris tris' : list Triangle) (b e : Z)
  (root : BVHNode) :
  _recursive_build tris b e = Ok (tris', root) ->
  exists freed,
    _recursive_free root = Ok freed /\
    Permutation freed (nodes_of root) /\
    length freed = length (nodes_of root).
Proof.
  intros H. apply _recursive_build_Ok in H. destruct H as (_ & _ & _ & Hall).
  destruct (_recursive_free_sound root) as (freed & Hfree & Hperm).
  - eapply Forall_impl; [|exact Hall]. simpl. tauto.
  - exists freed. split; [exact Hfree|]. split; [exact Hperm|].
    apply Permutation_length. exact Hperm.
Qed.

Lemma recursive_free_frees_tree_witness :
  exists freed,
    _recursive_free (snd box_built) = Ok freed /\
    Permutation freed (nodes_of (snd box_built)) /\
    length freed = length (nodes_of (snd box_built)).
Proof.
  apply (recursive_free_frees_tree box_triangles (fst box_built) 0 20
           (snd box_built)).
  vm_compute. reflexivity.
Defined.

(** ** The hit the walk reports *)

Lemma mt_t_same_query (r r' : Ray) (tri : Triangle) :
  same_query r r' -> mt_t r' tri = mt_t r tri.
Proof.
  intros (Ho & Hd & _).
  unfold mt_t, mt_Q, mt_T, mt_inv_det, mt_det, mt_P. rewrite Ho, Hd.
  reflexivity.
Qed.

Lemma hit_from_refl (tris : list Triangle) (r : Ray) : hit_from tris r r.
Proof. split; [apply same_query_refl | left; auto]. Qed.

Lemma hit_from_trans (tris : list Triangle) (r1 r2 r3 : Ray) :
  hit_from tris r1 r2 -> hit_from tris r2 r3 -> hit_from tris r1 r3.
Proof.
  intros [Q12 H12] [Q23 H23].
  split; [eapply same_query_trans; eassumption|].
  destruct H23 as [[Ht Hi] | (tri & Hin & Ht & Hi & Heps & Hlt)].
  - rewrite Ht, Hi. exact H12.
  - right. exists tri. rewrite (mt_t_same_query r1 r2 tri Q12) in Ht.
    repeat split; try assumption.
    destruct H12 as [[Ht2 _] | (_ & _ & _ & _ & _ & Hlt2)].
    + rewrite <- Ht2. exact Hlt.
    + eapply flt_trans; eassumption.
Qed.

Lemma ray_triangle_intersect_hit_from (tris : list Triangle) (ray : Ray)
  (tri : Triangle) :
  In tri tris -> hit_from tris ray (snd (ray_triangle_intersect ray tri)).
Proof.
  intros Hin. split; [apply ray_triangle_intersect_same_query|].
  rewrite ray_triangle_intersect_eq.
  destruct (mt_accepts ray tri) eqn:Hacc; simpl; [|left; auto].
  right. exists tri. unfold mt_accepts in Hacc.
  apply andb_true_iff in Hacc. destruct Hacc as [_ Ht].
  apply andb_true_iff in Ht. destruct Ht as [Ht1 Ht2].
  repeat split; assumption.
Qed.

Lemma aget_In {A : Type} (a : list A) (i : Z) (x : A) :
  aget a i = Ok x -> In x a.
Proof.
  unfold aget. destruct (i <? 0); [discriminate|].
  destruct (nth_error a (Z.to_nat i)) eqn:N; [|discriminate].
  intros H; inversion H; subst. eapply nth_error_In; exact N.
Qed.

Lemma leaf_fold_hit_from (tris : list Triangle) (l : list Z) :
  forall ray ray',
    fold_left (leaf_step tris) l (Ok ray) = Ok ray' -> hit_from tris ray ray'.
Proof.
  induction l as [|i l IH]; intros ray ray' H; simpl in H.
  - inversion H. apply hit_from_refl.
  - destruct (aget tris i) as [tri|] eqn:A; simpl in H.
    + apply IH in H. eapply hit_from_trans; [|exact H].
      apply ray_triangle_intersect_hit_from. eapply aget_In; exact A.
    + rewrite leaf_fold_Err in H. discriminate.
Qed.

Lemma _recursive_intersect_hit_from (tris : list Triangle) (node : BVHNode) :
  forall ray ray',
    _recursive_intersect tris ray node = Ok ray' -> hit_from tris ray ray'.
Proof.
  induction node as [b e bb l r IHl IHr] using BVHNode_tree_ind.
  intros ray ray' H. simpl in H.
  destruct (negb (ray_bbox_intersect ray bb)).
  - inversion H. apply hit_from_refl.
  - destruct (e - b <=? LEAF_SIZE).
    + eapply leaf_fold_hit_from; exact H.
    + destruct l as [ln|]; [|discriminate].
      destruct r as [rn|].
      * destruct (_recursive_intersect tris ray ln) as [ray1|] eqn:H1;
          simpl in H; [|discriminate].
        eapply hit_from_trans; [apply (IHl _ _ H1) | apply (IHr _ _ H)].
      * destruct (_recursive_intersect tris ray ln); discriminate.
Qed.

(** X8.  The walk only ever moves the hit closer: the ray it returns has
    either the hit record it came with, or the element id of a triangle of
    the array together with the distance of the ray to that triangle, which
    is above the epsilon and strictly below the [t_far] the ray came with;
    origin, direction and [data_val] are as they were. *)
Theorem recursive_intersect_reports_triangle (tris : list Triangle)
  (node : BVHNode) (ray ray' : Ray) :
  _recursive_intersect tris ray node = Ok ray' ->
  origin ray' = origin ray /\ direction ray' = direction ray /\
  data_val ray' = data_val ray /\
  ((t_far ray' = t_far ray /\ elem_id ray' = elem_id ray) \/
   (exists tri,
      In tri tris /\
      t_far ray' = mt_t ray tri /\ elem_id ray' = tri_elem_id tri /\
      flt DETERMINANT_EPS (t_far ray') = true /\
      flt (t_far ray') (t_far ray) = true)).
Proof.
  intros H. apply _recursive_intersect_hit_from in H.
  destruct H as [(Ho & Hd & _ & Hv & _) Hhit]. auto.
Qed.

Lemma recursive_intersect_reports_triangle_witness :
  origin box_ray_walked = origin box_ray /\
  direction box_ray_walked = direction box_ray /\
  data_val box_ray_walked = data_val box_ray /\
  ((t_far box_ray_walked = t_far box_ray /\
    elem_id box_ray_walked = elem_id box_ray) \/
   (exists tri,
      In tri (triangles box_bvh) /\
      t_far box_ray_walked = mt_t box_ray tri /\
      elem_id box_ray_walked = tri_elem_id tri /\
      flt DETERMINANT_EPS (t_far box_ray_walked) = true /\
      flt (t_far box_ray_walked) (t_far box_ray) = true)).
Proof.
  apply (recursive_intersect_reports_triangle (triangles box_bvh)
           (root box_bvh) box_ray box_ray_walked).
  vm_compute. reflexivity.
Defined.

(** ** The slab test for a ray that starts in the box *)

(** Overflow keeps the sign of a result. *)
Lemma overflow64_sign (q : Q) :
  ((q < 0)%Q -> flt (overflow64 q) f0 = true) /\
  ((0 < q)%Q -> flt f0 (overflow64 q) = true) /\
  ((q == 0)%Q -> overflow64 q = Fin q).
Proof.
  pose proof OVERFLOW_pos as Hpos.
  destruct (overflow64_cases q) as [[-> Ho] | [[-> Ho] | [-> Ho]]];
    revert Hpos Ho; generalize OVERFLOW; intros M Hpos Ho;
    unfold flt, f0, Qltb;
    (split; [|split]); intros Hq; try reflexivity; try (exfalso; lra);
    qcases; try reflexivity; exfalso; lra.
Qed.

Lemma fsub_below (l o : float64) :
  flt l o = true -> flt (fsub l o) f0 = true.
Proof.
  destruct l as [| |a|], o as [| |b|]; simpl; try discriminate;
    try reflexivity.
  intros H. unfold fsub. cbn [fneg fadd].
  apply (proj1 (overflow64_sign (a + - b))).
  unfold Qltb in H. apply negb_true_iff in H. apply Qle_bool_false in H. lra.
Qed.

Lemma fsub_above (o r : float64) :
  flt o r = true -> flt f0 (fsub r o) = true.
Proof.
  destruct o as [| |b|], r as [| |a|]; simpl; try discriminate;
    try reflexivity.
  intros H. unfold fsub. cbn [fneg fadd].
  apply (proj1 (proj2 (overflow64_sign (a + - b)))).
  unfold Qltb in H. apply negb_true_iff in H. apply Qle_bool_false in H. lra.
Qed.

(** The sign of a product. *)
Lemma fmul_sign (x y : float64) :
  (flt x f0 = true -> flt f0 y = true -> flt (fmul x y) f0 = true) /\
  (flt f0 x = true -> flt f0 y = true -> flt f0 (fmul x y) = true) /\
  (flt x f0 = true -> flt y f0 = true -> flt f0 (fmul x y) = true) /\
  (flt f0 x = true -> flt y f0 = true -> flt (fmul x y) f0 = true).
Proof.
  destruct x as [| |a|], y as [| |b|]; cbn [fmul];
    try (repeat split; intros H1 H2; try discriminate H1;
         try discriminate H2; reflexivity).
  - (* -inf * b *)
    unfold scale_inf, flt, f0, Qltb.
    repeat split; intros H1 H2; try discriminate H1;
      apply negb_true_iff in H2; apply Qle_bool_false in H2;
      qcases; simpl; try reflexivity; exfalso; lra.
  - (* a * -inf *)
    unfold scale_inf, flt, f0, Qltb.
    repeat split; intros H1 H2; try discriminate H2;
      apply negb_true_iff in H1; apply Qle_bool_false in H1;
      qcases; simpl; try reflexivity; exfalso; lra.
  - (* a * b *)
    destruct (overflow64_sign (a * b)) as (Sn & Sp & _).
    unfold flt at 1 2 3 5 6 7 9 10. unfold f0 at 1 2 3 5 6 7 9 10.
    unfold Qltb.
    repeat split; intros H1 H2;
      apply negb_true_iff in H1, H2; apply Qle_bool_false in H1, H2;
      first [apply Sn | apply Sp]; nra.
  - (* a * +inf *)
    unfold scale_inf, flt, f0, Qltb.
    repeat split; intros H1 H2; try discriminate H2;
      apply negb_true_iff in H1; apply Qle_bool_false in H1;
      qcases; simpl; try reflexivity; exfalso; lra.
  - (* +inf * b *)
    unfold scale_inf, flt, f0, Qltb.
    repeat split; intros H1 H2; try discriminate H1;
      apply negb_true_iff in H2; apply Qle_bool_false in H2;
      qcases; simpl; try reflexivity; exfalso; lra.
Qed.

(** A number is NaN, below zero, above zero, or zero. *)
Lemma float_sign (x : float64) :
  x = NaN \/ flt x f0 = true \/ flt f0 x = true \/
  exists q, x = Fin q /\ (q == 0)%Q.
Proof.
  destruct x as [| |q|]; auto.
  unfold flt, f0, Qltb.
  destruct (Qle_bool 0 q) eqn:E1; destruct (Qle_bool q 0) eqn:E2; simpl; auto.
  right; right; right. exists q. split; [reflexivity|].
  apply Qle_bool_iff in E1, E2. lra.
Qed.

(** The product of a number with zero is zero or NaN. *)
Lemma fmul_zero (x : float64) (q : Q) :
  (q == 0)%Q ->
  fmul x (Fin q) = NaN \/ exists z, fmul x (Fin q) = Fin z /\ (z == 0)%Q.
Proof.
  intros Hq. destruct x as [| |a|]; cbn [fmul]; auto.
  - left. unfold scale_inf. apply Qeq_bool_iff in Hq. rewrite Hq. reflexivity.
  - right. exists (a * q)%Q.
    assert (Hz : (a * q == 0)%Q) by (rewrite Hq; ring).
    split; [|exact Hz]. apply (proj2 (proj2 (overflow64_sign (a * q)))).
    exact Hz.
  - left. unfold scale_inf. apply Qeq_bool_iff in Hq. rewrite Hq. reflexivity.
Qed.

Lemma fmin_fmax_signs (a b : float64) :
  flt a f0 = true -> flt f0 b = true ->
  fle (fmin a b) f0 = true /\ fle f0 (fmax a b) = true /\
  fle (fmin b a) f0 = true /\ fle f0 (fmax b a) = true.
Proof. intros Ha Hb. destruct a, b; fsolve. Qed.

Lemma fmin_fmax_zeros (a b : float64) :
  (a = NaN \/ exists z, a = Fin z /\ (z == 0)%Q) ->
  (b = NaN \/ exists z, b = Fin z /\ (z == 0)%Q) ->
  (is_nan (fmin a b) = true \/ fle (fmin a b) f0 = true) /\
  (is_nan (fmax a b) = true \/ fle f0 (fmax a b) = true).
Proof.
  intros [-> | (x & -> & Hx)] [-> | (y & -> & Hy)];
    unfold fmin, fmax, flt, fle, f0, Qltb; cbn [is_nan];
    split; try (left; reflexivity); right;
    repeat (progress (qcases; simpl)); try reflexivity; exfalso; lra.
Qed.

(** With the origin strictly between the two planes of an axis, the entry
    distance is not above 0 and the exit distance not below 0, when they are
    numbers at all. *)
Lemma slab_straddles_origin (l o r inv : float64) :
  flt l o = true -> flt o r = true ->
  let t1 := fmul (fsub l o) inv in
  let t2 := fmul (fsub r o) inv in
  (is_nan (fmin t1 t2) = true \/ fle (fmin t1 t2) f0 = true) /\
  (is_nan (fmax t1 t2) = true \/ fle f0 (fmax t1 t2) = true).
Proof.
  intros Hl Hr. cbv zeta.
  apply fsub_below in Hl. apply fsub_above in Hr.
  generalize dependent (fsub l o). intros A HA.
  generalize dependent (fsub r o). intros B HB.
  destruct (float_sign inv) as [-> | [Hi | [Hi | (q & -> & Hq)]]].
  - replace (fmul A NaN) with NaN by (destruct A; reflexivity).
    replace (fmul B NaN) with NaN by (destruct B; reflexivity).
    split; left; reflexivity.
  - destruct (fmul_sign A inv) as (_ & _ & P1 & _).
    destruct (fmul_sign B inv) as (_ & _ & _ & P2).
    destruct (fmin_fmax_signs _ _ (P2 HB Hi) (P1 HA Hi)) as (_ & _ & M1 & M2).
    split; right; assumption.
  - destruct (fmul_sign A inv) as (P1 & _).
    destruct (fmul_sign B inv) as (_ & P2 & _).
    destruct (fmin_fmax_signs _ _ (P1 HA Hi) (P2 HB Hi)) as (M1 & M2 & _).
    split; right; assumption.
  - apply fmin_fmax_zeros; apply fmul_zero; exact Hq.
Qed.

Lemma fmax_below (a b : float64) :
  non_nan a -> fle a f0 = true ->
  is_nan b = true \/ fle b f0 = true ->
  non_nan (fmax a b) /\ fle (fmax a b) f0 = true.
Proof.
  unfold non_nan. intros Ha H0 [Hb | Hb]; destruct a, b; split; fsolve.
Qed.

Lemma fmin_above (a b : float64) :
  non_nan a -> fle f0 a = true ->
  is_nan b = true \/ fle f0 b = true ->
  non_nan (fmin a b) /\ fle f0 (fmin a b) = true.
Proof.
  unfold non_nan. intros Ha H0 [Hb | Hb]; destruct a, b; split; fsolve.
Qed.

Lemma slab_accepts (tmin tmax : float64) :
  fle tmin f0 = true -> fle f0 tmax = true -> fge tmax (fmax tmin f0) = true.
Proof. destruct tmin, tmax; fsolve. Qed.

(** X9.  A ray whose origin lies strictly inside a box passes
    [ray_bbox_intersect], whatever its direction and reciprocal direction
    are: zero, infinite or NaN components included. *)
Theorem ray_bbox_intersect_from_inside (ray : Ray) (bbox : BBox) :
  (forall i, 0 <= i <= 2 ->
     flt (vget (left_edge bbox) i) (vget (origin ray) i) = true /\
     flt (vget (origin ray) i) (vget (right_edge bbox) i) = true) ->
  ray_bbox_intersect ray bbox = true.
Proof.
  intros Hin. unfold ray_bbox_intersect. rewrite slab_interval_eq.
  destruct (Hin 0 ltac:(lia)) as [L0 R0].
  destruct (Hin 1 ltac:(lia)) as [L1 R1].
  destruct (Hin 2 ltac:(lia)) as [L2 R2].
  pose proof (slab_straddles_origin _ _ _ (vget (inv_dir ray) 0) L0 R0) as [E0 X0].
  pose proof (slab_straddles_origin _ _ _ (vget (inv_dir ray) 1) L1 R1) as [E1 X1].
  pose proof (slab_straddles_origin _ _ _ (vget (inv_dir ray) 2) L2 R2) as [E2 X2].
  fold (slab_t ray (left_edge bbox) 0) (slab_t ray (right_edge bbox) 0) in E0, X0.
  fold (slab_t ray (left_edge bbox) 1) (slab_t ray (right_edge bbox) 1) in E1, X1.
  fold (slab_t ray (left_edge bbox) 2) (slab_t ray (right_edge bbox) 2) in E2, X2.
  fold (slab_entry ray bbox 0) in E0. fold (slab_exit ray bbox 0) in X0.
  fold (slab_entry ray bbox 1) in E1. fold (slab_exit ray bbox 1) in X1.
  fold (slab_entry ray bbox 2) in E2. fold (slab_exit ray bbox 2) in X2.
  assert (A0 : non_nan (fneg INF) /\ fle (fneg INF) f0 = true)
    by (split; [discriminate | reflexivity]).
  assert (B0 : non_nan INF /\ fle f0 INF = true)
    by (split; [discriminate | reflexivity]).
  destruct A0 as [A0 A0']. destruct B0 as [B0 B0'].
  destruct (fmax_below _ _ A0 A0' E0) as [A1 A1'].
  destruct (fmax_below _ _ A1 A1' E1) as [A2 A2'].
  destruct (fmax_below _ _ A2 A2' E2) as [_ A3'].
  destruct (fmin_above _ _ B0 B0' X0) as [B1 B1'].
  destruct (fmin_above _ _ B1 B1' X1) as [B2 B2'].
  destruct (fmin_above _ _ B2 B2' X2) as [_ B3'].
  apply slab_accepts; assumption.
Qed.

Lemma ray_bbox_intersect_from_inside_witness :
  ray_bbox_intersect
    (mkRay (Vec3 (Fin (1 # 2)) (Fin 1) (Fin 1)) (Vec3 f0 f0 f1)
           (Vec3 (fdiv f1 f0) (fdiv f1 f0) (fdiv f1 f1)) f0 f0 INF (-1) 0)
    (node_bbox (snd box_built)) = true.
Proof.
  apply ray_bbox_intersect_from_inside.
  intros i Hi.
  assert (Hc : i = 0 \/ i = 1 \/ i = 2) by lia.
  destruct Hc as [-> | [-> | ->]]; split; reflexivity.
Defined.

(** ** The driver, pixel by pixel *)

Lemma ray_triangle_intersect_near_boundary (ray : Ray) (tri : Triangle)
  (nb : Z) :
  ray_triangle_intersect (with_near_boundary ray nb) tri
  = (fst (ray_triangle_intersect ray tri),
     with_near_boundary (snd (ray_triangle_intersect ray tri)) nb).
Proof.
  rewrite !ray_triangle_intersect_eq.
  change (mt_accepts (with_near_boundary ray nb) tri) with (mt_accepts ray tri).
  destruct (mt_accepts ray tri); reflexivity.
Qed.

Lemma leaf_fold_near_boundary (tris : list Triangle) (l : list Z) (nb : Z) :
  forall ray,
    fold_left (leaf_step tris) l (Ok (with_near_boundary ray nb))
    = match fold_left (leaf_step tris) l (Ok ray) with
      | Ok r => Ok (with_near_boundary r nb)
      | Err e => Err e
      end.
Proof.
  induction l as [|i l IH]; intros ray; simpl; [reflexivity|].
  destruct (aget tris i) as [tri|]; simpl.
  - rewrite ray_triangle_intersect_near_boundary. simpl. apply IH.
  - rewrite !leaf_fold_Err. reflexivity.
Qed.

(** The walk does not look at [near_boundary]. *)
Lemma _recursive_intersect_near_boundary (tris : list Triangle)
  (node : BVHNode) (nb : Z) :
  forall ray,
    _recursive_intersect tris (with_near_boundary ray nb) node
    = match _recursive_intersect tris ray node with
      | Ok r => Ok (with_near_boundary r nb)
      | Err e => Err e
      end.
Proof.
  induction node as [b e bb l r IHl IHr] using BVHNode_tree_ind.
  intros ray. simpl.
  change (ray_bbox_intersect (with_near_boundary ray nb) bb)
    with (ray_bbox_intersect ray bb).
  destruct (negb (ray_bbox_intersect ray bb)); [reflexivity|].
  destruct (e - b <=? LEAF_SIZE); [apply leaf_fold_near_boundary|].
  destruct l as [ln|]; [|reflexivity]. simpl in IHl.
  destruct r as [rn|]; simpl in IHr.
  - rewrite IHl. destruct (_recursive_intersect tris ray ln); simpl;
      [apply IHr | reflexivity].
  - rewrite IHl. destruct (_recursive_intersect tris ray ln); reflexivity.
Qed.

(** [intersect] gives the same value and makes the same sampler calls
    whatever [near_boundary] holds. *)
Lemma intersect_near_boundary
  (sample : ElementSampler -> list float64 -> list float64 -> vec3 -> float64)
  (bvh : BVH) (ray ray2 : Ray) (nb : Z) (made : list SamplerCall) :
  intersect sample bvh (with_near_boundary ray nb) = Ok (ray2, made) ->
  exists ray3,
    intersect sample bvh ray = Ok (ray3, made) /\ data_val ray3 = data_val ray2.
Proof.
  unfold intersect. rewrite _recursive_intersect_near_boundary.
  destruct (_recursive_intersect (triangles bvh) ray (root bvh)) as [ray1|];
    simpl; [|discriminate].
  destruct (elem_id ray1 <? 0).
  - intros H. inversion H; subst. eexists. split; reflexivity.
  - destruct (sampler bvh); [|discriminate].
    intros H. inversion H; subst. eexists. split; reflexivity.
Qed.

Lemma intersect_keeps_direction
  (sample : ElementSampler -> list float64 -> list float64 -> vec3 -> float64)
  (bvh : BVH) (ray ray2 : Ray) (made : list SamplerCall) :
  intersect sample bvh ray = Ok (ray2, made) ->
  direction ray2 = direction ray /\ inv_dir ray2 = inv_dir ray.
Proof.
  unfold intersect.
  destruct (_recursive_intersect (triangles bvh) ray (root bvh)) as [ray1|] eqn:W;
    simpl; [|discriminate].
  apply _recursive_intersect_same_query in W. destruct W as (_ & Hd & Hi & _).
  destruct (elem_id ray1 <? 0).
  - intros H. inversion H; subst. auto.
  - destruct (sampler bvh); [|discriminate].
    intros H. inversion H; subst. simpl. auto.
Qed.

Lemma cast_fold_Err
  (sample : ElementSampler -> list float64 -> list float64 -> vec3 -> float64)
  (bvh : BVH) (origins : list float64) (N : Z) (l : list Z) (e : error) :
  fold_left (cast_step sample bvh origins N) l (Err e) = Err e.
Proof. induction l as [|i l IH]; simpl; auto. Qed.

(** The value one pass of the loop writes for pixel [i], for a worker ray
    with direction [d] and reciprocal direction [inv]. *)
Lemma cast_step_Ok
  (sample : ElementSampler -> list float64 -> list float64 -> vec3 -> float64)
  (bvh : BVH) (origins : list float64) (N i : Z)
  (ray ray' : Ray) (image image' : list float64)
  (calls calls' : list SamplerCall) :
  cast_step sample bvh origins N (Ok (ray, image, calls)) i
  = Ok (ray', image', calls') ->
  direction ray' = direction ray /\ inv_dir ray' = inv_dir ray /\
  0 <= i < Z.of_nat (length image) /\
  exists o0 o1 o2 ray3 made,
    oget origins N 0 i = Ok o0 /\
    oget origins N 1 i = Ok o1 /\
    oget origins N 2 i = Ok o2 /\
    intersect sample bvh
      (pixel_ray (Vec3 o0 o1 o2) (direction ray) (inv_dir ray))
    = Ok (ray3, made) /\
    image' = put image (Z.to_nat i) (data_val ray3).
Proof.
  unfold cast_step, setup_ray. simpl.
  destruct (oget origins N 0 i) as [o0|]; simpl; [|discriminate].
  destruct (oget origins N 1 i) as [o1|]; simpl; [|discriminate].
  destruct (oget origins N 2 i) as [o2|]; simpl; [|discriminate].
  match goal with
  | |- context [intersect sample bvh ?r] =>
      change r with (with_near_boundary
                       (pixel_ray (Vec3 o0 o1 o2) (direction ray) (inv_dir ray))
                       (near_boundary ray));
      destruct (intersect sample bvh
                  (with_near_boundary
                     (pixel_ray (Vec3 o0 o1 o2) (direction ray) (inv_dir ray))
                     (near_boundary ray))) as [[ray2 made]|] eqn:Hint;
      simpl; [|discriminate]
  end.
  destruct (aset image i (data_val ray2)) as [image1|] eqn:Hset; simpl;
    [|discriminate].
  intros H. inversion H; subst; clear H.
  pose proof (intersect_keeps_direction _ _ _ _ _ Hint) as [Hd Hi].
  simpl in Hd, Hi.
  destruct (intersect_near_boundary _ _ _ _ _ _ Hint) as (ray3 & H3 & Hv).
  assert (Hb : 0 <= i < Z.of_nat (length image)).
  { unfold aset in Hset.
    destruct (i <? 0) eqn:E1; [discriminate|].
    destruct (Z.of_nat (length image) <=? i) eqn:E2; [discriminate|].
    apply Z.ltb_ge in E1. apply Z.leb_gt in E2. lia. }
  rewrite aset_in_bounds in Hset by exact Hb. inversion Hset; subst.
  split; [exact Hd|]. split; [exact Hi|]. split; [exact Hb|].
  exists o0, o1, o2, ray3, made. rewrite Hv. auto.
Qed.

Lemma zrange_NoDup (a b : Z) : NoDup (zrange a b).
Proof.
  unfold zrange. apply Finite.Injective_map_NoDup; [|apply seq_NoDup].
  intros x y H. lia.
Qed.

(** The loop of [cast_rays] over the pixels [l], none of them twice. *)
Lemma cast_fold_spec
  (sample : ElementSampler -> list float64 -> list float64 -> vec3 -> float64)
  (bvh : BVH) (origins : list float64) (N : Z) (d inv : vec3) (l : list Z) :
  NoDup l ->
  forall ray image calls ray' image' calls',
    direction ray = d -> inv_dir ray = inv ->
    fold_left (cast_step sample bvh origins N) l (Ok (ray, image, calls))
    = Ok (ray', image', calls') ->
    length image' = length image /\
    (forall i, ~ In i l -> aget image' i = aget image i) /\
    (forall i, In i l ->
       exists o0 o1 o2 ray3 made,
         oget origins N 0 i = Ok o0 /\
         oget origins N 1 i = Ok o1 /\
         oget origins N 2 i = Ok o2 /\
         intersect sample bvh (pixel_ray (Vec3 o0 o1 o2) d inv)
         = Ok (ray3, made) /\
         aget image' i = Ok (data_val ray3)).
Proof.
  induction 1 as [|x l Hx Hnd IH];
    intros ray image calls ray' image' calls' Hd Hi H.
  - inversion H; subst. repeat split; auto. intros i [].
  - cbn [fold_left] in H.
    destruct (cast_step sample bvh origins N (Ok (ray, image, calls)) x)
      as [[[ray1 image1] calls1]|] eqn:Hstep;
      [|rewrite cast_fold_Err in H; discriminate].
    apply cast_step_Ok in Hstep.
    destruct Hstep as (Hd1 & Hi1 & Hb & o0 & o1 & o2 & ray3 & made
                       & A0 & A1 & A2 & Hint & Himg).
    rewrite Hd, Hi in *.
    apply IH in H; [|congruence | congruence].
    destruct H as (Hlen & Hout & Hin).
    assert (Hlen1 : length image1 = length image)
      by (subst image1; apply put_length).
    split; [congruence|]. split.
    + intros i Hni. rewrite Hout by (intros Hc; apply Hni; right; exact Hc).
      subst image1. apply aget_put_other; [lia|].
      intros ->. apply Hni. left. reflexivity.
    + intros i [<- | Hil]; [|apply (Hin i Hil)].
      exists o0, o1, o2, ray3, made. repeat split; try assumption.
      rewrite Hout by exact Hx. subst image1. apply aget_put_same. exact Hb.
Qed.

(** X10.  [cast_rays] writes to slot [i] of the image, for every pixel
    [0 <= i < N], the value that pixel gives on its own (its ray set up from
    the origins and the direction, handed to [intersect]): the result of a
    pixel does not depend on the pixels cast before it, and the slots outside
    [0, N) and the length of the image are as they were. *)
Theorem cast_rays_pixelwise
  (sample : ElementSampler -> list float64 -> list float64 -> vec3 -> float64)
  (fresh : Ray) (image origins direction : list float64) (N : Z) (bvh : BVH)
  (image' : list float64) (calls : list SamplerCall) :
  cast_rays sample fresh image origins direction N bvh = Ok (image', calls) ->
  length image' = length image /\
  (forall i, i < 0 \/ N <= i -> aget image' i = aget image i) /\
  (forall i, 0 <= i < N ->
     exists v, pixel_value sample bvh origins direction N i = Ok v /\
               aget image' i = Ok v).
Proof.
  unfold cast_rays, pixel_value.
  destruct (aget direction 0) as [d0|]; cbn [bind]; [|discriminate].
  destruct (aget direction 1) as [d1|]; cbn [bind]; [|discriminate].
  destruct (aget direction 2) as [d2|]; cbn [bind]; [|discriminate].
  match goal with
  | |- context [fold_left ?f ?l (Ok (?r, image, []))] =>
      destruct (fold_left f l (Ok (r, image, [])))
        as [[[ray1 image1] calls1]|] eqn:Hfold; cbn [bind]; [|discriminate]
  end.
  intros H. inversion H; subst; clear H.
  apply (cast_fold_spec sample bvh origins N (Vec3 d0 d1 d2)
           (Vec3 (fdiv f1 d0) (fdiv f1 d1) (fdiv f1 d2))) in Hfold;
    [|apply zrange_NoDup | reflexivity | reflexivity].
  destruct Hfold as (Hlen & Hout & Hin).
  split; [exact Hlen|]. split.
  - intros i Hi. apply Hout. rewrite in_zrange. lia.
  - intros i Hi.
    destruct (Hin i) as (o0 & o1 & o2 & ray3 & made & A0 & A1 & A2 & Hint & Hv);
      [apply in_zrange; lia|].
    exists (data_val ray3). rewrite A0, A1, A2. cbn [bind]. rewrite Hint.
    cbn [bind]. auto.
Qed.

Lemma cast_rays_pixelwise_witness :
  length (fst box_cast) = length [fz 9; fz 9] /\
  (forall i, i < 0 \/ 2 <= i -> aget (fst box_cast) i = aget [fz 9; fz 9] i) /\
  (forall i, 0 <= i < 2 ->
     exists v,
       pixel_value fourth_value box_bvh two_origins [f0; f0; f1] 2 i = Ok v /\
       aget (fst box_cast) i = Ok v).
Proof.
  apply (cast_rays_pixelwise fourth_value upward_ray [fz 9; fz 9] two_origins
           [f0; f0; f1] 2 box_bvh (fst box_cast) (snd box_cast)).
  vm_compute. reflexivity.
Defined.

(** ** The constructor *)

Lemma zrange_length (a b : Z) : length (zrange a b) = Z.to_nat (b - a).
Proof. unfold zrange. rewrite length_map, length_seq. reflexivity. Qed.

Lemma for_each_length {A B : Type} (f : A -> result (list B)) (c : nat)
  (l : list A) :
  (forall x ys, In x l -> f x = Ok ys -> length ys = c) ->
  forall r, for_each f l = Ok r -> length r = (length l * c)%nat.
Proof.
  induction l as [|x l IH]; intros Hc r H; simpl in H.
  - inversion H. reflexivity.
  - destruct (f x) as [ys|] eqn:Fx; simpl in H; [|discriminate].
    destruct (for_each f l) as [rest|] eqn:Fl; simpl in H; [|discriminate].
    inversion H; subst. rewrite length_app.
    rewrite (Hc x ys) by (simpl; auto).
    rewrite (IH (fun y zs Hy => Hc y zs (or_intror Hy)) rest eq_refl).
    simpl. lia.
Qed.

Lemma for_each_Forall {A B : Type} (P : B -> Prop)
  (f : A -> result (list B)) (l : list A) :
  (forall x ys, In x l -> f x = Ok ys -> Forall P ys) ->
  forall r, for_each f l = Ok r -> Forall P r.
Proof.
  induction l as [|x l IH]; intros Hc r H; simpl in H.
  - inversion H. constructor.
  - destruct (f x) as [ys|] eqn:Fx; simpl in H; [|discriminate].
    destruct (for_each f l) as [rest|] eqn:Fl; simpl in H; [|discriminate].
    inversion H; subst. apply Forall_app. split.
    + apply (Hc x); simpl; auto.
    + apply IH; [|reflexivity]. intros y zs Hy. apply Hc. right. exact Hy.
Qed.

Lemma for_each_one_length {A B : Type} (g : A -> result B) (l : list A)
  (r : list B) :
  for_each (fun x => do y <- g x; Ok [y]) l = Ok r -> length r = length l.
Proof.
  intros H. apply (for_each_length _ 1%nat) in H; [lia|].
  intros x ys _ Hx. destruct (g x); simpl in Hx; [|discriminate].
  inversion Hx. reflexivity.
Qed.

(** The parts of a BVH that [__cinit__] returns. *)
Lemma cinit_Ok_parts (hex_nt tetra_nt wedge_nt : Z)
  (hex tetra wedge : list (list Z)) (verts : mview float64)
  (indices : mview Z) (fdata : mview float64) (bvh : BVH) :
  __cinit__ hex_nt tetra_nt wedge_nt hex tetra wedge verts indices fdata
  = Ok bvh ->
  exists tri_array tris,
    fill_triangles verts indices tri_array (shape0 indices)
                   (num_tri_per_elem bvh) = Ok tris /\
    _recursive_build tris 0 (num_tri_per_elem bvh * shape0 indices)
    = Ok (triangles bvh, root bvh) /\
    num_elem bvh = shape0 indices /\
    num_verts_per_elem bvh = shape1 indices /\
    num_tri bvh = num_tri_per_elem bvh * shape0 indices /\
    (exists s, sampler bvh = Some s) /\
    (shape1 indices = 8 \/ shape1 indices = 6 \/ shape1 indices = 4) /\
    length (field_data bvh)
    = (Z.to_nat (shape0 indices) * Z.to_nat (shape1 indices))%nat /\
    length (vertices bvh)
    = (Z.to_nat (shape0 indices) * (Z.to_nat (shape1 indices) * 3))%nat.
Proof.
  unfold __cinit__.
  set (fb := for_each _ (zrange 0 (shape0 indices))).
  set (vb := for_each (fun i => for_each (fun j => do v <- mget indices i j; _)
                                         (zrange 0 (shape1 indices)))
                      (zrange 0 (shape0 indices))).
  assert (Hfb : forall r, fb = Ok r ->
            length r = (Z.to_nat (shape0 indices)
                        * Z.to_nat (shape1 indices))%nat).
  { intros r Hr. subst fb. apply (for_each_length _ (Z.to_nat (shape1 indices)))
      in Hr; [rewrite Hr, zrange_length; f_equal; lia|].
    intros x ys _ Hx. apply for_each_one_length in Hx.
    rewrite Hx, zrange_length. f_equal. lia. }
  assert (Hvb : forall r, vb = Ok r ->
            length r = (Z.to_nat (shape0 indices)
                        * (Z.to_nat (shape1 indices) * 3))%nat).
  { intros r Hr. subst vb.
    apply (for_each_length _ (Z.to_nat (shape1 indices) * 3)%nat) in Hr;
      [rewrite Hr, zrange_length; f_equal; lia|].
    intros x ys _ Hx.
    apply (for_each_length _ 3%nat) in Hx;
      [rewrite Hx, zrange_length; f_equal; lia|].
    intros j zs _ Hj. destruct (mget indices x j); cbn [bind] in Hj;
      [|discriminate].
    apply for_each_one_length in Hj. rewrite Hj. reflexivity. }
  destruct (Z.eqb_spec (shape1 indices) 8) as [E8 | E8];
    [|destruct (Z.eqb_spec (shape1 indices) 6) as [E6 | E6];
      [|destruct (Z.eqb_spec (shape1 indices) 4) as [E4 | E4]]];
    intros H;
    (destruct fb as [fbuf|]; cbn [bind] in H; [|discriminate]);
    (destruct vb as [vbuf|]; cbn [bind] in H; [|discriminate]);
    match type of H with
    | bind ?r _ = Ok _ => destruct r as [tris|] eqn:Hfill; cbn [bind] in H;
                          [|discriminate]
    end;
    match type of H with
    | bind ?r _ = Ok _ => destruct r as [[tris1 node]|] eqn:Hbuild;
                          cbn [bind] in H; [|discriminate]
    end;
    inversion H; subst; clear H; cbn [num_tri_per_elem triangles root num_elem
      num_verts_per_elem num_tri sampler field_data vertices];
    try (eexists; exists tris;
         repeat split; eauto; try (apply Hfb; reflexivity);
         try (apply Hvb; reflexivity); fail).
  exfalso. rewrite Z.mul_0_l in Hbuild.
  unfold fill_triangles in Hfill.
  assert (tris = []).
  { apply (for_each_length _ 0%nat) in Hfill;
      [destruct tris; [reflexivity | simpl in Hfill; lia]|].
    intros x ys _ Hx. simpl in Hx. inversion Hx. reflexivity. }
  subst tris. discriminate.
Qed.

Lemma mget_real (m : mview float64) (i j : Z) (x : float64) :
  mview_real m -> mget m i j = Ok x -> non_nan x.
Proof.
  unfold mview_real, mget. intros Hm H.
  destruct (aget (rows m) i) as [row|] eqn:Hrow; simpl in H; [|discriminate].
  apply aget_In in Hrow. apply aget_In in H.
  rewrite Forall_forall in Hm. specialize (Hm row Hrow).
  rewrite Forall_forall in Hm. apply Hm. exact H.
Qed.

(** What [make_triangle] returns: the element id is [i], the fields are
    filled from the three vertices, and the vertices are entries of the
    vertex array. *)
Lemma make_triangle_Ok (verts : mview float64) (indices : mview Z)
  (tri_array : list (list Z)) (i j : Z) (t : Triangle) :
  make_triangle verts indices tri_array i j = Ok t ->
  tri_elem_id t = i /\ triangle_filled t /\
  (mview_real verts -> triangle_real t).
Proof.
  unfold make_triangle. intros H.
  repeat match type of H with
         | bind ?r _ = Ok _ =>
             let E := fresh "E" in
             destruct r eqn:E; cbn [bind] in H; [|discriminate]
         end.
  inversion H; subst; clear H. split; [reflexivity|].
  split; [split; reflexivity|].
  intros Hreal. unfold triangle_real, vec_real. simpl.
  repeat split; eapply mget_real; eassumption.
Qed.

Lemma fill_triangles_Ok (verts : mview float64) (indices : mview Z)
  (tri_array : list (list Z)) (ne ntpe : Z) (tris : list Triangle) :
  fill_triangles verts indices tri_array ne ntpe = Ok tris ->
  length tris = (Z.to_nat ne * Z.to_nat ntpe)%nat /\
  Forall (fun t => 0 <= tri_elem_id t < ne /\ triangle_filled t /\
                   (mview_real verts -> triangle_real t)) tris.
Proof.
  unfold fill_triangles. intros H. split.
  - apply (for_each_length _ (Z.to_nat ntpe)) in H;
      [rewrite H, zrange_length; f_equal; lia|].
    intros x ys _ Hx. apply for_each_one_length in Hx.
    rewrite Hx, zrange_length. f_equal. lia.
  - revert H. apply for_each_Forall. intros i ys Hi.
    apply in_zrange in Hi.
    apply for_each_Forall. intros j zs _ Hj.
    destruct (make_triangle verts indices tri_array i j) as [t|] eqn:Ht;
      cbn [bind] in Hj; [|discriminate].
    inversion Hj; subst. constructor; [|constructor].
    apply make_triangle_Ok in Ht. destruct Ht as (-> & Hf & Hr).
    split; [lia | split; assumption].
Qed.

(** The layout of a BVH that [__cinit__] returns. *)
Lemma cinit_Ok_layout (hex_nt tetra_nt wedge_nt : Z)
  (hex tetra wedge : list (list Z)) (verts : mview float64)
  (indices : mview Z) (fdata : mview float64) (bvh : BVH) :
  __cinit__ hex_nt tetra_nt wedge_nt hex tetra wedge verts indices fdata
  = Ok bvh ->
  0 < num_elem bvh /\ 0 < num_tri_per_elem bvh /\
  0 < num_verts_per_elem bvh /\
  num_tri bvh = num_tri_per_elem bvh * num_elem bvh /\
  Z.of_nat (length (triangles bvh)) = num_tri bvh /\
  Forall (fun t => 0 <= tri_elem_id t < num_elem bvh /\ triangle_filled t /\
                   (mview_real verts -> triangle_real t)) (triangles bvh) /\
  tree_ok (num_tri bvh) (root bvh) /\
  node_begin (root bvh) = 0 /\ node_end (root bvh) = num_tri bvh /\
  Z.of_nat (length (field_data bvh))
  = num_elem bvh * num_verts_per_elem bvh /\
  Z.of_nat (length (vertices bvh))
  = num_elem bvh * num_verts_per_elem bvh * 3 /\
  (exists s, sampler bvh = Some s).
Proof.
  intros H. apply cinit_Ok_parts in H.
  destruct H as (tri_array & tris & Hfill & Hbuild & -> & -> & -> & Hs & Hk
                 & Hfd & Hvt).
  apply fill_triangles_Ok in Hfill. destruct Hfill as [Hlen Hall].
  assert (Hne : tris <> []).
  { intros ->. unfold _recursive_build in Hbuild. simpl in Hbuild.
    discriminate. }
  assert (Hpos : 0 < shape0 indices /\ 0 < num_tri_per_elem bvh).
  { destruct tris; [congruence|]. simpl in Hlen.
    destruct (Z.to_nat (shape0 indices)) eqn:E0; [simpl in Hlen; lia|].
    destruct (Z.to_nat (num_tri_per_elem bvh)) eqn:E1; [lia|]. lia. }
  assert (HlenZ : Z.of_nat (length tris)
                  = num_tri_per_elem bvh * shape0 indices).
  { rewrite Hlen. rewrite Nat2Z.inj_mul, !Z2Nat.id by lia. lia. }
  pose proof (recursive_build_perm_helper tris (triangles bvh) 0
                (num_tri_per_elem bvh * shape0 indices) (root bvh)
                ltac:(lia) Hbuild) as Hperm.
  assert (Hfit : num_tri_per_elem bvh * shape0 indices
                 <= Z.of_nat (length tris)) by lia.
  pose proof (_recursive_build_tree_ok tris (triangles bvh) 0
                (num_tri_per_elem bvh * shape0 indices) (root bvh)
                ltac:(lia) Hfit Hbuild) as [Hlen' Hok].
  pose proof (_recursive_build_Ok _ _ _ _ _ Hbuild) as (_ & Hrb & Hre & _).
  split; [lia|]. split; [lia|]. split; [lia|]. split; [reflexivity|].
  split; [rewrite Hlen'; exact HlenZ|].
  split; [eapply Permutation_Forall; eassumption|].
  split; [rewrite <- HlenZ, <- Hlen'; exact Hok|].
  split; [exact Hrb|]. split; [exact Hre|].
  split; [rewrite Hfd, Nat2Z.inj_mul, !Z2Nat.id by lia; reflexivity|].
  split; [rewrite Hvt, !Nat2Z.inj_mul, !Z2Nat.id by lia; simpl; lia|].
  exact Hs.
Qed.

Lemma fmin3_le (a b c : float64) :
  non_nan a -> non_nan b -> non_nan c ->
  non_nan (fmin (fmin a b) c) /\
  fle (fmin (fmin a b) c) a = true /\
  fle (fmin (fmin a b) c) b = true /\
  fle (fmin (fmin a b) c) c = true.
Proof.
  intros Ha Hb Hc.
  assert (Hab : non_nan (fmin a b)) by (apply fmin_non_nan; exact Ha).
  destruct (fmin_le a b Ha Hb) as [H1 H2].
  destruct (fmin_le (fmin a b) c Hab Hc) as [H3 H4].
  split; [apply fmin_non_nan; exact Hab|].
  split; [exact (fle_trans _ _ _ H3 H1)|].
  split; [exact (fle_trans _ _ _ H3 H2) | exact H4].
Qed.

Lemma fmax3_ge (a b c : float64) :
  non_nan a -> non_nan b -> non_nan c ->
  non_nan (fmax (fmax a b) c) /\
  fle a (fmax (fmax a b) c) = true /\
  fle b (fmax (fmax a b) c) = true /\
  fle c (fmax (fmax a b) c) = true.
Proof.
  intros Ha Hb Hc.
  assert (Hab : non_nan (fmax a b)) by (apply fmax_non_nan; exact Ha).
  destruct (fmax_ge a b Ha Hb) as [H1 H2].
  destruct (fmax_ge (fmax a b) c Hab Hc) as [H3 H4].
  split; [apply fmax_non_nan; exact Hab|].
  split; [exact (fle_trans _ _ _ H1 H3)|].
  split; [exact (fle_trans _ _ _ H2 H3) | exact H4].
Qed.

(** The box of a filled triangle without NaN holds its three vertices. *)
Lemma triangle_filled_box (t : Triangle) :
  triangle_filled t -> triangle_real t ->
  box_real (tri_bbox t) /\
  point_inside (p0 t) (tri_bbox t) = true /\
  point_inside (p1 t) (tri_bbox t) = true /\
  point_inside (p2 t) (tri_bbox t) = true.
Proof.
  intros [_ Hbox] ((A0 & A1 & A2) & (B0 & B1 & B2) & (D0 & D1 & D2)).
  rewrite Hbox. unfold box_real, vec_real, point_inside, vec_le. simpl.
  destruct (fmin3_le _ _ _ A0 B0 D0) as (N0 & -> & -> & ->).
  destruct (fmin3_le _ _ _ A1 B1 D1) as (N1 & -> & -> & ->).
  destruct (fmin3_le _ _ _ A2 B2 D2) as (N2 & -> & -> & ->).
  destruct (fmax3_ge _ _ _ A0 B0 D0) as (M0 & -> & -> & ->).
  destruct (fmax3_ge _ _ _ A1 B1 D1) as (M1 & -> & -> & ->).
  destruct (fmax3_ge _ _ _ A2 B2 D2) as (M2 & -> & -> & ->).
  repeat split; assumption.
Qed.

Lemma point_in_outer_box (p : vec3) (inner outer : BBox) :
  point_inside p inner = true -> box_inside inner outer = true ->
  point_inside p outer = true.
Proof.
  unfold point_inside, box_inside. rewrite !andb_true_iff.
  intros [P1 P2] [B1 B2]. split; eapply vec_le_trans; eassumption.
Qed.

(** X11.  A BVH that [__cinit__] returns has [num_tri_per_elem * num_elem]
    triangles, at least one; every triangle carries the id of an element of
    the mesh, a centroid that is the mean of its vertices and the box spanned
    by its vertices; the root covers the range of all triangles; and the
    field and vertex buffers hold [num_verts_per_elem] values, and three
    times as many, for each element. *)
Theorem cinit_layout (hex_nt tetra_nt wedge_nt : Z)
  (hex tetra wedge : list (list Z)) (verts : mview float64)
  (indices : mview Z) (fdata : mview float64) (bvh : BVH) :
  __cinit__ hex_nt tetra_nt wedge_nt hex tetra wedge verts indices fdata
  = Ok bvh ->
  num_elem bvh = shape0 indices /\
  num_tri bvh = num_tri_per_elem bvh * num_elem bvh /\
  0 < num_tri bvh /\
  Z.of_nat (length (triangles bvh)) = num_tri bvh /\
  Forall (fun t => 0 <= tri_elem_id t < num_elem bvh /\ triangle_filled t)
         (triangles bvh) /\
  node_begin (root bvh) = 0 /\ node_end (root bvh) = num_tri bvh /\
  Z.of_nat (length (field_data bvh))
  = num_elem bvh * num_verts_per_elem bvh /\
  Z.of_nat (length (vertices bvh))
  = num_elem bvh * num_verts_per_elem bvh * 3.
Proof.
  intros H.
  pose proof (cinit_Ok_parts _ _ _ _ _ _ _ _ _ _ H)
    as (_ & _ & _ & _ & He & _).
  apply cinit_Ok_layout in H.
  destruct H as (H1 & H2 & H3 & H4 & H5 & H6 & H7 & H8 & H9 & H10 & H11 & _).
  split; [exact He|]. split; [exact H4|]. split; [nia|].
  split; [exact H5|]. split.
  - eapply Forall_impl; [|exact H6]. simpl. tauto.
  - auto.
Qed.

Lemma cinit_layout_witness :
  num_elem box_bvh = shape0 box_tets /\
  num_tri box_bvh = num_tri_per_elem box_bvh * num_elem box_bvh /\
  0 < num_tri box_bvh /\
  Z.of_nat (length (triangles box_bvh)) = num_tri box_bvh /\
  Forall (fun t => 0 <= tri_elem_id t < num_elem box_bvh /\ triangle_filled t)
         (triangles box_bvh) /\
  node_begin (root box_bvh) = 0 /\ node_end (root box_bvh) = num_tri box_bvh /\
  Z.of_nat (length (field_data box_bvh))
  = num_elem box_bvh * num_verts_per_elem box_bvh /\
  Z.of_nat (length (vertices box_bvh))
  = num_elem box_bvh * num_verts_per_elem box_bvh * 3.
Proof.
  apply (cinit_layout 12 4 8 [] tetra_faces [] box_vertices box_tets box_field
           box_bvh).
  vm_compute. reflexivity.
Defined.

(** X12.  In a BVH that [__cinit__] returns for a vertex array without NaN,
    the box of every node contains the box and the three vertices of every
    triangle in the range of the node. *)
Theorem cinit_boxes_bound (hex_nt tetra_nt wedge_nt : Z)
  (hex tetra wedge : list (list Z)) (verts : mview float64)
  (indices : mview Z) (fdata : mview float64) (bvh : BVH) :
  mview_real verts ->
  __cinit__ hex_nt tetra_nt wedge_nt hex tetra wedge verts indices fdata
  = Ok bvh ->
  forall n, In n (nodes_of (root bvh)) ->
    forall i t, node_begin n <= i < node_end n ->
                aget (triangles bvh) i = Ok t ->
                box_inside (tri_bbox t) (node_bbox n) = true /\
                point_inside (p0 t) (node_bbox n) = true /\
                point_inside (p1 t) (node_bbox n) = true /\
                point_inside (p2 t) (node_bbox n) = true.
Proof.
  intros Hreal H n Hn i t Hi Hget.
  pose proof (cinit_Ok_layout _ _ _ _ _ _ _ _ _ _ H)
    as (P1 & P2 & _ & _ & _ & Hall & _).
  apply cinit_Ok_parts in H.
  destruct H as (tri_array & tris & Hfill & Hbuild & He & _).
  apply fill_triangles_Ok in Hfill. destruct Hfill as [_ Htris].
  rewrite He in P1.
  apply _recursive_build_fuel_boxes in Hbuild; [|nia|].
  - rewrite Forall_forall in Hbuild. destruct (Hbuild n Hn) as [_ Hin].
    specialize (Hin i t Hi Hget). simpl in Hin.
    rewrite Forall_forall in Hall.
    destruct (Hall t (aget_In _ _ _ Hget)) as (_ & Hf & Hr).
    destruct (triangle_filled_box t Hf (Hr Hreal)) as (_ & I0 & I1 & I2).
    split; [exact Hin|].
    repeat split; eapply point_in_outer_box; eassumption.
  - intros k tk _ Hk. rewrite Forall_forall in Htris.
    destruct (Htris tk (aget_In _ _ _ Hk)) as (_ & Hf & Hr).
    apply (triangle_filled_box tk Hf (Hr Hreal)).
Qed.

Lemma box_vertices_real : mview_real box_vertices.
Proof.
  unfold mview_real, box_vertices. simpl.
  repeat constructor; unfold non_nan; discriminate.
Qed.

Lemma cinit_boxes_bound_witness :
  mview_real box_vertices /\
  forall n, In n (nodes_of (root box_bvh)) ->
    forall i t, node_begin n <= i < node_end n ->
                aget (triangles box_bvh) i = Ok t ->
                box_inside (tri_bbox t) (node_bbox n) = true /\
                point_inside (p0 t) (node_bbox n) = true /\
                point_inside (p1 t) (node_bbox n) = true /\
                point_inside (p2 t) (node_bbox n) = true.
Proof.
  split; [exact box_vertices_real|].
  apply (cinit_boxes_bound 12 4 8 [] tetra_faces [] box_vertices box_tets
           box_field box_bvh).
  - exact box_vertices_real.
  - vm_compute. reflexivity.
Defined.

(** ** Queries on a constructed BVH *)

Lemma cinit_bvh_ok (hex_nt tetra_nt wedge_nt : Z)
  (hex tetra wedge : list (list Z)) (verts : mview float64)
  (indices : mview Z) (fdata : mview float64) (bvh : BVH) :
  __cinit__ hex_nt tetra_nt wedge_nt hex tetra wedge verts indices fdata
  = Ok bvh ->
  bvh_ok bvh.
Proof.
  intros H. apply cinit_Ok_layout in H.
  destruct H as (H1 & H2 & H3 & H4 & H5 & H6 & H7 & H8 & H9 & H10 & H11 & H12).
  unfold bvh_ok. rewrite H5.
  split; [exact H7|]. split.
  - eapply Forall_impl; [|exact H6]. simpl. tauto.
  - auto.
Qed.

(** On a BVH whose parts fit together, [intersect] returns for every ray
    that comes with no element id or with the id of an element. *)
Lemma intersect_total
  (sample : ElementSampler -> list float64 -> list float64 -> vec3 -> float64)
  (bvh : BVH) (ray : Ray) :
  bvh_ok bvh -> elem_id ray < num_elem bvh ->
  exists ray2 calls,
    intersect sample bvh ray = Ok (ray2, calls) /\ Forall (call_ok bvh) calls.
Proof.
  intros (Htree & Hids & Hk & Hfd & Hvt & s & Hs) Hid.
  unfold intersect.
  destruct (_recursive_intersect_total (triangles bvh) (root bvh) Htree ray)
    as [ray1 Hwalk].
  rewrite Hwalk. cbn [bind].
  apply _recursive_intersect_hit_from in Hwalk. destruct Hwalk as [_ Hhit].
  destruct (elem_id ray1 <? 0) eqn:E; [eauto|].
  apply Z.ltb_ge in E. rewrite Hs.
  do 2 eexists. split; [reflexivity|].
  constructor; [|constructor].
  exists (elem_id ray1). cbn [call_field_ptr call_vertex_ptr].
  assert (Hrange : 0 <= elem_id ray1 < num_elem bvh).
  { destruct Hhit as [[_ Hi] | (tri & Hin & _ & Hi & _)].
    - lia.
    - rewrite Forall_forall in Hids. rewrite Hi. apply (Hids tri Hin). }
  split; [exact Hrange|]. split; [reflexivity|]. split; [reflexivity|].
  assert (Hp : 0 <= elem_id ray1 * num_verts_per_elem bvh /\
               elem_id ray1 * num_verts_per_elem bvh + num_verts_per_elem bvh
               <= num_elem bvh * num_verts_per_elem bvh) by nia.
  rewrite !length_skipn. split; lia.
Qed.

(** X13.  On a BVH that [__cinit__] returns, [intersect] returns for every
    ray that comes with [elem_id] below the number of elements (the driver
    sets -1): the walk stays inside the array of triangles, a sampler is set,
    and the pointers of the sampler call address the data of one whole
    element inside the field and vertex buffers. *)
Theorem intersect_on_constructed_bvh
  (sample : ElementSampler -> list float64 -> list float64 -> vec3 -> float64)
  (hex_nt tetra_nt wedge_nt : Z)
  (hex tetra wedge : list (list Z)) (verts : mview float64)
  (indices : mview Z) (fdata : mview float64) (bvh : BVH) (ray : Ray) :
  __cinit__ hex_nt tetra_nt wedge_nt hex tetra wedge verts indices fdata
  = Ok bvh ->
  elem_id ray < num_elem bvh ->
  exists ray2 calls,
    intersect sample bvh ray = Ok (ray2, calls) /\
    (length calls <= 1)%nat /\
    forall c, In c calls ->
      exists id,
        0 <= id < num_elem bvh /\
        call_field_ptr c
        = skipn (Z.to_nat (id * num_verts_per_elem bvh)) (field_data bvh) /\
        call_vertex_ptr c
        = skipn (Z.to_nat (id * num_verts_per_elem bvh * 3)) (vertices bvh) /\
        num_verts_per_elem bvh <= Z.of_nat (length (call_field_ptr c)) /\
        3 * num_verts_per_elem bvh <= Z.of_nat (length (call_vertex_ptr c)).
Proof.
  intros H Hid. apply cinit_bvh_ok in H.
  destruct (intersect_total sample bvh ray H Hid) as (ray2 & calls & Hint & Hc).
  exists ray2, calls. split; [exact Hint|]. split.
  - unfold intersect in Hint.
    destruct (_recursive_intersect (triangles bvh) ray (root bvh)) as [r1|];
      cbn [bind] in Hint; [|discriminate].
    destruct (elem_id r1 <? 0); [inversion Hint; simpl; lia|].
    destruct (sampler bvh); inversion Hint; simpl; lia.
  - rewrite Forall_forall in Hc. exact Hc.
Qed.

Lemma intersect_on_constructed_bvh_witness :
  elem_id box_ray < num_elem box_bvh /\
  exists ray2 calls,
    intersect fourth_value box_bvh box_ray = Ok (ray2, calls) /\
    (length calls <= 1)%nat /\
    forall c, In c calls ->
      exists id,
        0 <= id < num_elem box_bvh /\
        call_field_ptr c
        = skipn (Z.to_nat (id * num_verts_per_elem box_bvh))
                (field_data box_bvh) /\
        call_vertex_ptr c
        = skipn (Z.to_nat (id * num_verts_per_elem box_bvh * 3))
                (vertices box_bvh) /\
        num_verts_per_elem box_bvh <= Z.of_nat (length (call_field_ptr c)) /\
        3 * num_verts_per_elem box_bvh
        <= Z.of_nat (length (call_vertex_ptr c)).
Proof.
  assert (H : elem_id box_ray < num_elem box_bvh) by (vm_compute; reflexivity).
  split; [exact H|].
  apply (intersect_on_constructed_bvh fourth_value 12 4 8 [] tetra_faces []
           box_vertices box_tets box_field box_bvh box_ray).
  - vm_compute. reflexivity.
  - exact H.
Defined.

Lemma cint_in_range (z : Z) :
  INT_MIN <= z <= INT_MAX -> cint z = Ok z.
Proof.
  intros H. unfold cint.
  destruct (Z.leb_spec INT_MIN z); [|lia].
  destruct (Z.leb_spec z INT_MAX); [|lia]. reflexivity.
Qed.

(** A read of the origins with an index that fits in [int] and in the
    buffer. *)
Lemma oget_in_bounds (origins : list float64) (N j i : Z) :
  0 <= i < N -> 0 <= j <= 2 ->
  3 * N - 1 <= INT_MAX ->
  3 * N <= Z.of_nat (length origins) ->
  exists x, oget origins N j i = Ok x.
Proof.
  intros Hi Hj Hint Hlen. unfold oget.
  assert (Hmin : INT_MIN < 0) by reflexivity.
  rewrite (cint_in_range (N * j)) by nia. cbn [bind].
  rewrite (cint_in_range (N * j + i)) by nia. cbn [bind].
  apply aget_in_bounds. nia.
Qed.

Lemma cast_fold_total
  (sample : ElementSampler -> list float64 -> list float64 -> vec3 -> float64)
  (bvh : BVH) (origins : list float64) (N : Z) (l : list Z) :
  bvh_ok bvh -> 0 < num_elem bvh ->
  3 * N - 1 <= INT_MAX ->
  3 * N <= Z.of_nat (length origins) ->
  Forall (fun i => 0 <= i < N) l ->
  forall ray image calls,
    N <= Z.of_nat (length image) -> Forall (call_ok bvh) calls ->
    exists ray' image' calls',
      fold_left (cast_step sample bvh origins N) l (Ok (ray, image, calls))
      = Ok (ray', image', calls') /\
      Forall (call_ok bvh) calls'.
Proof.
  intros Hok Hne Hint Ho. induction 1 as [|i l Hi _ IH];
    intros ray image calls Himg Hcalls.
  - simpl. eauto.
  - cbn [fold_left]. unfold cast_step at 2. cbn [bind]. unfold setup_ray.
    destruct (oget_in_bounds origins N 0 i Hi ltac:(lia) Hint Ho) as [o0 ->].
    destruct (oget_in_bounds origins N 1 i Hi ltac:(lia) Hint Ho) as [o1 ->].
    destruct (oget_in_bounds origins N 2 i Hi ltac:(lia) Hint Ho) as [o2 ->].
    cbn [bind].
    match goal with
    | |- context [intersect sample bvh ?r] =>
        destruct (intersect_total sample bvh r Hok) as (ray2 & made & -> & Hm);
        [simpl; lia|]
    end.
    cbn [bind]. rewrite aset_in_bounds by lia. cbn [bind].
    apply IH; [rewrite put_length; exact Himg|].
    apply Forall_app. split; assumption.
Qed.

(** Each pass of the loop adds at most one sampler call. *)
Lemma cast_fold_calls
  (sample : ElementSampler -> list float64 -> list float64 -> vec3 -> float64)
  (bvh : BVH) (origins : list float64) (N : Z) (l : list Z) :
  forall ray image calls ray' image' calls',
    fold_left (cast_step sample bvh origins N) l (Ok (ray, image, calls))
    = Ok (ray', image', calls') ->
    (length calls' <= length calls + length l)%nat.
Proof.
  induction l as [|i l IH]; intros ray image calls ray' image' calls' H.
  - inversion H; subst. simpl. lia.
  - cbn [fold_left] in H.
    destruct (cast_step sample bvh origins N (Ok (ray, image, calls)) i)
      as [[[ray1 image1] calls1]|] eqn:Hstep;
      [|rewrite cast_fold_Err in H; discriminate].
    apply IH in H.
    assert (length calls1 <= length calls + 1)%nat; [|simpl; lia].
    unfold cast_step in Hstep. cbn [bind] in Hstep.
    destruct (setup_ray ray origins N i) as [r1|]; cbn [bind] in Hstep;
      [|discriminate].
    unfold intersect in Hstep.
    destruct (_recursive_intersect (triangles bvh) r1 (root bvh)) as [r2|];
      cbn [bind] in Hstep; [|discriminate].
    destruct (elem_id r2 <? 0); [|destruct (sampler bvh)];
      cbn [bind] in Hstep; try discriminate;
      (destruct (aset image i _); cbn [bind] in Hstep; [|discriminate]);
      inversion Hstep; subst; rewrite length_app; simpl; lia.
Qed.

(** X14.  On a BVH that [__cinit__] returns, [cast_rays] returns for every
    batch whose largest origin index [3 N - 1] fits in [int] and whose
    buffers are large enough (three components of the direction, [3 N] of
    the origins, [N] slots of the image): no index overflows, no access
    leaves a buffer, and every sampler call addresses the data of one whole
    element. *)
Theorem cast_rays_runs
  (sample : ElementSampler -> list float64 -> list float64 -> vec3 -> float64)
  (hex_nt tetra_nt wedge_nt : Z)
  (hex tetra wedge : list (list Z)) (verts : mview float64)
  (indices : mview Z) (fdata : mview float64) (bvh : BVH)
  (fresh : Ray) (image origins direction : list float64) (N : Z) :
  __cinit__ hex_nt tetra_nt wedge_nt hex tetra wedge verts indices fdata
  = Ok bvh ->
  3 * N - 1 <= INT_MAX ->
  3 <= Z.of_nat (length direction) ->
  3 * N <= Z.of_nat (length origins) ->
  N <= Z.of_nat (length image) ->
  exists image' calls,
    cast_rays sample fresh image origins direction N bvh = Ok (image', calls) /\
    length image' = length image /\
    (length calls <= Z.to_nat N)%nat /\
    Forall (call_ok bvh) calls.
Proof.
  intros H Hint Hd Ho Hi.
  pose proof (cinit_Ok_layout _ _ _ _ _ _ _ _ _ _ H) as (Hne & _).
  apply cinit_bvh_ok in H.
  unfold cast_rays.
  destruct (aget_in_bounds direction 0) as [d0 ->]; [lia|].
  destruct (aget_in_bounds direction 1) as [d1 ->]; [lia|].
  destruct (aget_in_bounds direction 2) as [d2 ->]; [lia|].
  cbn [bind].
  match goal with
  | |- context [fold_left ?f ?l (Ok (?r, image, []))] =>
      destruct (cast_fold_total sample bvh origins N l H Hne Hint Ho
                  (zrange_bounds 0 N) r image [] Hi (Forall_nil _))
        as (ray' & image' & calls' & Hfold & Hcalls)
  end.
  rewrite Hfold. cbn [bind].
  exists image', calls'. split; [reflexivity|].
  pose proof Hfold as Hfold2.
  eapply cast_fold_spec in Hfold;
    [|apply zrange_NoDup | reflexivity | reflexivity].
  destruct Hfold as (Hlen & _).
  split; [exact Hlen|]. split; [|exact Hcalls].
  apply cast_fold_calls in Hfold2. simpl in Hfold2.
  rewrite zrange_length in Hfold2. rewrite Z.sub_0_r in Hfold2. lia.
Qed.

Lemma cast_rays_runs_witness :
  3 * 2 - 1 <= INT_MAX /\
  exists image' calls,
    cast_rays fourth_value upward_ray [fz 9; fz 9] two_origins [f0; f0; f1] 2
              box_bvh = Ok (image', calls) /\
    length image' = length [fz 9; fz 9] /\
    (length calls <= Z.to_nat 2)%nat /\
    Forall (call_ok box_bvh) calls.
Proof.
  assert (Hint : 3 * 2 - 1 <= INT_MAX) by (vm_compute; discriminate).
  split; [exact Hint|].
  apply (cast_rays_runs fourth_value 12 4 8 [] tetra_faces [] box_vertices
           box_tets box_field box_bvh upward_ray [fz 9; fz 9] two_origins
           [f0; f0; f1] 2).
  - vm_compute. reflexivity.
  - exact Hint.
  - simpl. lia.
  - simpl. lia.
  - simpl. lia.
Defined.

(** ** The nearest hit *)

(** A triangle that the ray does not accept is not accepted after the hit
    record moved closer. *)
Lemma mt_accepts_hit_from (tris : list Triangle) (r r' : Ray) (tri : Triangle) :
  hit_from tris r r' -> mt_accepts r tri = false -> mt_accepts r' tri = false.
Proof.
  intros [Hq Hhit] Hacc.
  pose proof Hq as (Ho & Hd & _).
  unfold mt_accepts in *.
  assert (Hu : mt_u r' tri = mt_u r tri)
    by (unfold mt_u, mt_T, mt_P, mt_inv_det, mt_det, mt_P; rewrite Ho, Hd;
        reflexivity).
  assert (Hv : mt_v r' tri = mt_v r tri)
    by (unfold mt_v, mt_Q, mt_T, mt_inv_det, mt_det, mt_P; rewrite Ho, Hd;
        reflexivity).
  assert (Hdet : mt_det r' tri = mt_det r tri)
    by (unfold mt_det, mt_P; rewrite Hd; reflexivity).
  rewrite (mt_t_same_query r r' tri Hq), Hu, Hv, Hdet.
  destruct (negb (fgt (mt_det r tri) (fneg DETERMINANT_EPS)
                  && flt (mt_det r tri) DETERMINANT_EPS)
            && negb (flt (mt_u r tri) f0 || fgt (mt_u r tri) f1)
            && negb (flt (mt_v r tri) f0
                     || fgt (fadd (mt_u r tri) (mt_v r tri)) f1));
    [|reflexivity].
  cbn [andb] in *.
  destruct (fgt (mt_t r tri) DETERMINANT_EPS); [|reflexivity].
  cbn [andb] in *.
  destruct (flt (mt_t r tri) (t_far r')) eqn:Hlt; [|reflexivity].
  destruct Hhit as [[Ht _] | (_ & _ & _ & _ & _ & Hcloser)].
  - rewrite Ht in Hlt. congruence.
  - rewrite (flt_trans _ _ _ Hlt Hcloser) in Hacc. discriminate.
Qed.

(** Right after its own test a triangle is not accepted again. *)
Lemma mt_accepts_after_test (ray : Ray) (tri : Triangle) :
  mt_accepts (snd (ray_triangle_intersect ray tri)) tri = false.
Proof.
  rewrite ray_triangle_intersect_eq.
  destruct (mt_accepts ray tri) eqn:Hacc; simpl; [|exact Hacc].
  unfold mt_accepts.
  change (mt_t (set_hit ray (mt_t ray tri) (tri_elem_id tri)) tri)
    with (mt_t ray tri).
  change (t_far (set_hit ray (mt_t ray tri) (tri_elem_id tri)))
    with (mt_t ray tri).
  assert (flt (mt_t ray tri) (mt_t ray tri) = false)
    by (destruct (mt_t ray tri); fsolve).
  rewrite H. rewrite andb_false_r, andb_false_r. reflexivity.
Qed.

Lemma leaf_fold_nearest (tris : list Triangle) (l : list Z) :
  forall ray ray',
    fold_left (leaf_step tris) l (Ok ray) = Ok ray' ->
    forall i tri, In i l -> aget tris i = Ok tri ->
                  mt_accepts ray' tri = false.
Proof.
  induction l as [|k l IH]; intros ray ray' H i tri Hi Hget; [destruct Hi|].
  simpl in H.
  destruct (aget tris k) as [tk|] eqn:Ak; simpl in H;
    [|rewrite leaf_fold_Err in H; discriminate].
  destruct Hi as [<- | Hi].
  - assert (tk = tri) by congruence. subst tk.
    eapply mt_accepts_hit_from;
      [eapply leaf_fold_hit_from; exact H | apply mt_accepts_after_test].
  - exact (IH _ _ H i tri Hi Hget).
Qed.

Lemma scanned_cells_same_query (r r' : Ray) (node : BVHNode) :
  same_query r r' -> scanned_cells r' node = scanned_cells r node.
Proof.
  intros (Ho & _ & Hi & _).
  induction node as [b e bb l rr IHl IHr] using BVHNode_tree_ind.
  simpl.
  assert (Hb : ray_bbox_intersect r' bb = ray_bbox_intersect r bb).
  { unfold ray_bbox_intersect, slab_interval, slab_step. simpl.
    rewrite Ho, Hi. reflexivity. }
  rewrite Hb. destruct (negb (ray_bbox_intersect r bb)); [reflexivity|].
  destruct (e - b <=? LEAF_SIZE); [reflexivity|].
  destruct l, rr; simpl in *; rewrite ?IHl, ?IHr; reflexivity.
Qed.

Lemma _recursive_intersect_nearest (tris : list Triangle) (node : BVHNode) :
  forall ray ray',
    _recursive_intersect tris ray node = Ok ray' ->
    forall i tri, In i (scanned_cells ray node) -> aget tris i = Ok tri ->
                  mt_accepts ray' tri = false.
Proof.
  induction node as [b e bb l r IHl IHr] using BVHNode_tree_ind.
  intros ray ray' H i tri Hi Hget. simpl in H, Hi.
  destruct (negb (ray_bbox_intersect ray bb)); [destruct Hi|].
  destruct (e - b <=? LEAF_SIZE).
  - eapply leaf_fold_nearest; eassumption.
  - destruct l as [ln|]; [|discriminate].
    destruct r as [rn|].
    + destruct (_recursive_intersect tris ray ln) as [ray1|] eqn:H1;
        simpl in H; [|discriminate].
      simpl in IHl, IHr.
      apply in_app_or in Hi. destruct Hi as [Hi | Hi].
      * eapply mt_accepts_hit_from;
          [eapply _recursive_intersect_hit_from; exact H|].
        exact (IHl _ _ H1 i tri Hi Hget).
      * apply (IHr _ _ H i tri); [|exact Hget].
        rewrite (scanned_cells_same_query ray ray1 rn); [exact Hi|].
        eapply _recursive_intersect_same_query; exact H1.
    + destruct (_recursive_intersect tris ray ln); discriminate.
Qed.

(** X15.  The hit the walk reports is the nearest among the triangles it
    scans: testing the returned ray against any triangle in a leaf the walk
    reached (every box on the way passed the box test) reports a miss and
    leaves the ray as it is. *)
Theorem recursive_intersect_nearest_hit (tris : list Triangle)
  (node : BVHNode) (ray ray' : Ray) :
  _recursive_intersect tris ray node = Ok ray' ->
  forall i tri,
    In i (scanned_cells ray node) -> aget tris i = Ok tri ->
    ray_triangle_intersect ray' tri = (false, ray').
Proof.
  intros H i tri Hi Hget. rewrite ray_triangle_intersect_eq.
  rewrite (_recursive_intersect_nearest tris node ray ray' H i tri Hi Hget).
  reflexivity.
Qed.

Lemma recursive_intersect_nearest_hit_witness :
  In 3 (scanned_cells box_ray (root box_bvh)) /\
  forall i tri,
    In i (scanned_cells box_ray (root box_bvh)) ->
    aget (triangles box_bvh) i = Ok tri ->
    ray_triangle_intersect box_ray_walked tri = (false, box_ray_walked).
Proof.
  split; [vm_compute; tauto|].
  apply (recursive_intersect_nearest_hit (triangles box_bvh) (root box_bvh)
           box_ray box_ray_walked).
  vm_compute. reflexivity.
Defined.

(** ** The cells under a tree of the builder *)

Lemma map_seq_from {A : Type} (n : nat) :
  forall (f : nat -> A) s,
    map f (seq s n) = map (fun k => f (s + k)%nat) (seq 0 n).
Proof.
  induction n as [|n IH]; intros f s; simpl; [reflexivity|].
  f_equal; [f_equal; lia|].
  rewrite (IH f (S s)), (IH (fun k => f (s + k)%nat) 1%nat).
  apply map_ext. intros k. f_equal. lia.
Qed.

Lemma zrange_split (a m b : Z) :
  a <= m <= b -> zrange a m ++ zrange m b = zrange a b.
Proof.
  intros H. unfold zrange.
  replace (Z.to_nat (b - a)) with (Z.to_nat (m - a) + Z.to_nat (b - m))%nat
    by lia.
  rewrite seq_app, map_app. apply f_equal.
  rewrite (map_seq_from _ _ (0 + Z.to_nat (m - a))%nat).
  apply map_ext. intros k. lia.
Qed.

Lemma _recursive_build_fuel_cells (fuel : nat) :
  forall tris b e tris' n,
    b < e ->
    _recursive_build_fuel fuel tris b e = Ok (tris', n) ->
    all_cells n = zrange b e /\
    Z.of_nat (length (nodes_of n)) <= 2 * (e - b) - 1.
Proof.
  induction fuel as [|fuel IH]; intros tris b e tris' n Hbe H; simpl in H;
    [discriminate|].
  destruct (_get_node_bbox tris b e) as [bbox|]; simpl in H; [|discriminate].
  destruct (e - b <=? LEAF_SIZE) eqn:Hleaf.
  - inversion H; subst. split.
    + simpl. rewrite Hleaf. reflexivity.
    + change (nodes_of (mkNode b e bbox None None))
        with [mkNode b e bbox None None].
      change (Z.of_nat (length [mkNode b e bbox None None])) with 1. lia.
  - destruct (_partition tris b e _ _) as [[tris1 mid0]|] eqn:Hp; simpl in H;
      [|discriminate].
    pose proof Hleaf as Hbig. apply Z.leb_gt in Hbig. unfold LEAF_SIZE in Hbig.
    apply _partition_Ok in Hp; [|lia]. destruct Hp as [_ Hmid0].
    pose proof (fix_mid_bounds b e mid0 ltac:(lia) Hmid0) as Hmid.
    set (mid := fix_mid b e mid0) in *.
    destruct (_recursive_build_fuel fuel tris1 b mid) as [[tris2 l]|] eqn:Hl;
      simpl in H; [|discriminate].
    destruct (_recursive_build_fuel fuel tris2 mid e) as [[tris3 r]|] eqn:Hr;
      simpl in H; [|discriminate].
    inversion H; subst; clear H.
    apply IH in Hl; [|lia]. apply IH in Hr; [|lia].
    destruct Hl as [Cl Nl]. destruct Hr as [Cr Nr].
    split.
    + simpl. rewrite Hleaf, Cl, Cr. apply zrange_split. lia.
    + change (nodes_of (mkNode b e bbox (Some l) (Some r)))
        with (mkNode b e bbox (Some l) (Some r) :: nodes_of l ++ nodes_of r).
      rewrite length_cons, length_app. lia.
Qed.

Lemma scanned_in_all_cells (ray : Ray) (node : BVHNode) :
  forall i, In i (scanned_cells ray node) -> In i (all_cells node).
Proof.
  induction node as [b e bb l r IHl IHr] using BVHNode_tree_ind.
  intros i Hi. simpl in *.
  destruct (negb (ray_bbox_intersect ray bb)); [destruct Hi|].
  destruct (e - b <=? LEAF_SIZE); [exact Hi|].
  apply in_app_or in Hi. apply in_or_app.
  destruct l, r; simpl in *; destruct Hi as [Hi | Hi]; auto; destruct Hi.
Qed.

(** X16.  The leaves of the tree a build returns over a non-empty range
    tile the range: scanned from left to right without box tests they give
    every cell of [begin, end) once, in increasing order; the cells a walk
    scans are among them; and the tree has at most [2 (end - begin) - 1]
    nodes. *)
Theorem recursive_build_leaves_tile (tris tris' : list Triangle) (b e : Z)
  (root : BVHNode) :
  b < e ->
  _recursive_build tris b e = Ok (tris', root) ->
  all_cells root = zrange b e /\
  NoDup (all_cells root) /\
  (forall ray i, In i (scanned_cells ray root) -> b <= i < e) /\
  Z.of_nat (length (nodes_of root)) <= 2 * (e - b) - 1.
Proof.
  intros Hbe H. apply _recursive_build_fuel_cells in H; [|exact Hbe].
  destruct H as [Hc Hn].
  split; [exact Hc|]. split; [rewrite Hc; apply zrange_NoDup|].
  split; [|exact Hn].
  intros ray i Hi. apply scanned_in_all_cells in Hi. rewrite Hc in Hi.
  apply in_zrange in Hi. exact Hi.
Qed.

Lemma recursive_build_leaves_tile_witness :
  all_cells (snd box_built) = zrange 0 20 /\
  NoDup (all_cells (snd box_built)) /\
  (forall ray i, In i (scanned_cells ray (snd box_built)) -> 0 <= i < 20) /\
  Z.of_nat (length (nodes_of (snd box_built))) <= 2 * (20 - 0) - 1.
Proof.
  apply (recursive_build_leaves_tile box_triangles (fst box_built) 0 20
           (snd box_built)).
  - lia.
  - vm_compute. reflexivity.
Defined.

(** ** The hit of the walk is a triangle that the ray hits *)

(** The test accepts a triangle for a ray when it accepts it for the same
    ray with another hit record and the distance is below the [t_far] of the
    ray. *)
Lemma mt_accepts_nearer (r r' : Ray) (tri : Triangle) :
  same_query r r' ->
  mt_accepts r' tri = true -> flt (mt_t r tri) (t_far r) = true ->
  mt_accepts r tri = true.
Proof.
  intros (Ho & Hd & _) H1 H2.
  unfold mt_accepts, mt_u, mt_v, mt_t, mt_Q, mt_T, mt_inv_det, mt_det, mt_P
    in *.
  rewrite Ho, Hd in H1.
  apply andb_true_iff in H1. destruct H1 as [H1 Ht].
  apply andb_true_iff in H1. destruct H1 as [H1 Hv].
  apply andb_true_iff in H1. destruct H1 as [Hdet Hu].
  apply andb_true_iff in Ht. destruct Ht as [Ht1 _].
  rewrite Hdet, Hu, Hv, Ht1, H2. reflexivity.
Qed.

Lemma mt_accepts_below (r : Ray) (tri : Triangle) :
  mt_accepts r tri = true -> flt (mt_t r tri) (t_far r) = true.
Proof. intros H. apply mt_accepts_distance in H. tauto. Qed.

Lemma won_from_refl (tris : list Triangle) (r : Ray) : won_from tris r r.
Proof. split; [apply same_query_refl | left; auto]. Qed.

Lemma won_from_trans (tris : list Triangle) (r1 r2 r3 : Ray) :
  won_from tris r1 r2 -> won_from tris r2 r3 -> won_from tris r1 r3.
Proof.
  intros [Q12 H12] [Q23 H23].
  split; [eapply same_query_trans; eassumption|].
  destruct H23 as [[Ht Hi] | (tri & Hin & Hacc & Ht & Hi)].
  - rewrite Ht, Hi. exact H12.
  - right. exists tri. rewrite (mt_t_same_query r1 r2 tri Q12) in Ht.
    split; [exact Hin|]. split; [|split; assumption].
    apply (mt_accepts_nearer r1 r2 tri Q12 Hacc).
    apply mt_accepts_below in Hacc.
    rewrite (mt_t_same_query r1 r2 tri Q12) in Hacc.
    destruct H12 as [[Ht2 _] | (tri' & _ & Hacc' & Ht2 & _)].
    + rewrite <- Ht2. exact Hacc.
    + apply mt_accepts_below in Hacc'. rewrite Ht2 in Hacc.
      eapply flt_trans; eassumption.
Qed.

Lemma ray_triangle_intersect_won_from (tris : list Triangle) (ray : Ray)
  (tri : Triangle) :
  In tri tris -> won_from tris ray (snd (ray_triangle_intersect ray tri)).
Proof.
  intros Hin. split; [apply ray_triangle_intersect_same_query|].
  rewrite ray_triangle_intersect_eq.
  destruct (mt_accepts ray tri) eqn:Hacc; cbn [snd]; [|left; auto].
  right. exists tri. repeat split; assumption.
Qed.

Lemma leaf_fold_won_from (tris : list Triangle) (l : list Z) :
  forall ray ray',
    fold_left (leaf_step tris) l (Ok ray) = Ok ray' -> won_from tris ray ray'.
Proof.
  induction l as [|i l IH]; intros ray ray' H; simpl in H.
  - inversion H. apply won_from_refl.
  - destruct (aget tris i) as [tri|] eqn:A; simpl in H.
    + apply IH in H. eapply won_from_trans; [|exact H].
      apply ray_triangle_intersect_won_from. eapply aget_In; exact A.
    + rewrite leaf_fold_Err in H. discriminate.
Qed.

Lemma _recursive_intersect_won_from (tris : list Triangle) (node : BVHNode) :
  forall ray ray',
    _recursive_intersect tris ray node = Ok ray' -> won_from tris ray ray'.
Proof.
  induction node as [b e bb l r IHl IHr] using BVHNode_tree_ind.
  intros ray ray' H. simpl in H.
  destruct (negb (ray_bbox_intersect ray bb)).
  - inversion H. apply won_from_refl.
  - destruct (e - b <=? LEAF_SIZE).
    + eapply leaf_fold_won_from; exact H.
    + destruct l as [ln|]; [|discriminate].
      destruct r as [rn|].
      * destruct (_recursive_intersect tris ray ln) as [ray1|] eqn:H1;
          simpl in H; [|discriminate].
        eapply won_from_trans; [apply (IHl _ _ H1) | apply (IHr _ _ H)].
      * destruct (_recursive_intersect tris ray ln); discriminate.
Qed.

Lemma intersect_walk
  (sample : ElementSampler -> list float64 -> list float64 -> vec3 -> float64)
  (bvh : BVH) (ray ray2 : Ray) (calls : list SamplerCall) :
  intersect sample bvh ray = Ok (ray2, calls) ->
  exists ray1,
    _recursive_intersect (triangles bvh) ray (root bvh) = Ok ray1 /\
    t_far ray2 = t_far ray1 /\ elem_id ray2 = elem_id ray1 /\
    ((elem_id ray1 < 0 /\ ray2 = ray1 /\ calls = []) \/
     (0 <= elem_id ray1 /\
      exists s, sampler bvh = Some s /\
        data_val ray2
        = sample s
            (skipn (Z.to_nat (elem_id ray1 * num_verts_per_elem bvh * 3))
                   (vertices bvh))
            (skipn (Z.to_nat (elem_id ray1 * num_verts_per_elem bvh))
                   (field_data bvh))
            (ray_point ray1 (t_far ray1)))).
Proof.
  intros Hint. unfold intersect in Hint.
  destruct (_recursive_intersect (triangles bvh) ray (root bvh))
    as [ray1|]; cbn [bind] in Hint; [|discriminate].
  exists ray1. split; [reflexivity|].
  destruct (elem_id ray1 <? 0) eqn:E.
  - inversion Hint; subst. apply Z.ltb_lt in E.
    split; [reflexivity|]. split; [reflexivity|]. left. tauto.
  - apply Z.ltb_ge in E.
    destruct (sampler bvh) as [s|]; [|discriminate].
    inversion Hint; subst. split; [reflexivity|]. split; [reflexivity|].
    right. split; [exact E|]. exists s. split; reflexivity.
Qed.

(** X18.  When [intersect] makes its sampler call for a ray that came
    without a hit ([elem_id < 0]), the call is for a triangle of the array
    that [ray_triangle_intersect] reports as hit by the incoming ray: the
    position handed over is [origin + t * direction] as the code computes it
    at the distance [t] of that triangle, the field and vertex pointers are
    those of the element that triangle belongs to, and [data_val] of the
    returned ray is what the sampler returned. *)
Theorem intersect_samples_at_hit
  (sample : ElementSampler -> list float64 -> list float64 -> vec3 -> float64)
  (bvh : BVH) (ray ray2 : Ray) (calls : list SamplerCall) :
  elem_id ray < 0 ->
  intersect sample bvh ray = Ok (ray2, calls) ->
  forall c, In c calls ->
    exists tri,
      In tri (triangles bvh) /\
      fst (ray_triangle_intersect ray tri) = true /\
      call_position c
      = ray_point ray (t_far (snd (ray_triangle_intersect ray tri))) /\
      call_field_ptr c
      = skipn (Z.to_nat (tri_elem_id tri * num_verts_per_elem bvh))
              (field_data bvh) /\
      call_vertex_ptr c
      = skipn (Z.to_nat (tri_elem_id tri * num_verts_per_elem bvh * 3))
              (vertices bvh) /\
      data_val ray2
      = sample (call_sampler c) (call_vertex_ptr c) (call_field_ptr c)
               (call_position c).
Proof.
  intros Hneg H c Hc. unfold intersect in H.
  destruct (_recursive_intersect (triangles bvh) ray (root bvh)) as [ray1|] eqn:W;
    cbn [bind] in H; [|discriminate].
  destruct (elem_id ray1 <? 0) eqn:E; [inversion H; subst; destruct Hc|].
  apply Z.ltb_ge in E.
  destruct (sampler bvh) as [s|]; [|discriminate].
  inversion H; subst; clear H. destruct Hc as [<- | []].
  apply _recursive_intersect_won_from in W.
  destruct W as [(Ho & Hd & _) [[_ Hi] | (tri & Hin & Hacc & Ht & Hi)]]; [lia|].
  exists tri. rewrite ray_triangle_intersect_eq, Hacc. cbn [fst snd].
  change (t_far (set_hit ray (mt_t ray tri) (tri_elem_id tri)))
    with (mt_t ray tri).
  cbn [call_position call_field_ptr call_vertex_ptr call_sampler].
  split; [exact Hin|]. split; [reflexivity|]. split.
  - unfold ray_point. rewrite Ho, Hd, Ht. reflexivity.
  - rewrite Hi. repeat split; reflexivity.
Qed.

Lemma intersect_samples_at_hit_witness :
  elem_id box_ray < 0 /\
  forall c, In c (snd box_sampled) ->
    exists tri,
      In tri (triangles box_bvh) /\
      fst (ray_triangle_intersect box_ray tri) = true /\
      call_position c
      = ray_point box_ray (t_far (snd (ray_triangle_intersect box_ray tri))) /\
      call_field_ptr c
      = skipn (Z.to_nat (tri_elem_id tri * num_verts_per_elem box_bvh))
              (field_data box_bvh) /\
      call_vertex_ptr c
      = skipn (Z.to_nat (tri_elem_id tri * num_verts_per_elem box_bvh * 3))
              (vertices box_bvh) /\
      data_val (fst box_sampled)
      = fourth_value (call_sampler c) (call_vertex_ptr c) (call_field_ptr c)
                     (call_position c).
Proof.
  assert (Hneg : elem_id box_ray < 0) by reflexivity.
  split; [exact Hneg|].
  apply (intersect_samples_at_hit fourth_value box_bvh box_ray
           (fst box_sampled) (snd box_sampled) Hneg).
  vm_compute. reflexivity.
Defined.

(** ** The cells of a sound tree *)

(** ** The cells of a sound tree *)

Lemma all_cells_range (len : Z) (n : BVHNode) :
  tree_ok len n -> all_cells n = zrange (node_begin n) (node_end n).
Proof.
  induction n as [b e bb l r IHl IHr] using BVHNode_tree_ind.
  intros H. apply tree_ok_children in H.
  destruct H as (Hok & _ & _ & Hl & Hr).
  cbn [all_cells node_begin node_end].
  destruct (e - b <=? LEAF_SIZE) eqn:E; [reflexivity|].
  apply Z.leb_gt in E. destruct Hok as [_ Hok].
  destruct (Hok E) as [(ln & rn & El & Er & B1 & B2 & B3) Hshr].
  cbn [node_left node_right node_begin node_end] in El, Er, B1, B3.
  subst l r. cbn [on_child] in *.
  pose proof (Hshr ln (or_introl eq_refl)) as S1.
  pose proof (Hshr rn (or_intror eq_refl)) as S2.
  unfold node_size in S1, S2. cbn [node_begin node_end] in S1, S2.
  rewrite (IHl Hl), (IHr Hr), B1, B2, B3.
  apply zrange_split. lia.
Qed.

(** A cell of the tree that a walk does not scan lies in the range of a node
    whose box the ray failed. *)
Lemma unscanned_blocked (ray : Ray) (len : Z) (n : BVHNode) :
  tree_ok len n ->
  forall i, In i (all_cells n) -> ~ In i (scanned_cells ray n) ->
    exists m, In m (nodes_of n) /\ node_begin m <= i < node_end m /\
              ray_bbox_intersect ray (node_bbox m) = false.
Proof.
  induction n as [b e bb l r IHl IHr] using BVHNode_tree_ind.
  intros H i Hi Hno. pose proof H as Hrange. apply all_cells_range in Hrange.
  apply tree_ok_children in H. destruct H as (_ & _ & _ & Hl & Hr).
  cbn [scanned_cells] in Hno.
  destruct (ray_bbox_intersect ray bb) eqn:Hbox; cbn [negb] in Hno.
  - cbn [all_cells] in Hi.
    destruct (e - b <=? LEAF_SIZE); [contradiction|].
    apply in_app_or in Hi.
    assert (Hno1 : ~ In i (match l with
                           | Some ln => scanned_cells ray ln
                           | None => []
                           end))
      by (intros K; apply Hno; apply in_or_app; left; exact K).
    assert (Hno2 : ~ In i (match r with
                           | Some rn => scanned_cells ray rn
                           | None => []
                           end))
      by (intros K; apply Hno; apply in_or_app; right; exact K).
    destruct Hi as [Hi | Hi].
    + destruct l as [ln|]; [|destruct Hi]. cbn [on_child] in *.
      destruct (IHl Hl i Hi Hno1) as (m & Hm & Hr1 & Hb1).
      exists m. split; [|tauto].
      cbn [nodes_of]. right. apply in_or_app. left. exact Hm.
    + destruct r as [rn|]; [|destruct Hi]. cbn [on_child] in *.
      destruct (IHr Hr i Hi Hno2) as (m & Hm & Hr1 & Hb1).
      exists m. split; [|tauto].
      cbn [nodes_of]. right. apply in_or_app. right. exact Hm.
  - exists (mkNode b e bb l r). split; [cbn [nodes_of]; left; reflexivity|].
    rewrite Hrange in Hi. apply in_zrange in Hi.
    split; [exact Hi | exact Hbox].
Qed.

(** ** The walk misses no triangle *)

Lemma ray_bbox_intersect_same_query (r r' : Ray) (box : BBox) :
  same_query r r' -> ray_bbox_intersect r' box = ray_bbox_intersect r box.
Proof.
  intros (Ho & _ & Hi & _).
  unfold ray_bbox_intersect, slab_interval, slab_step. simpl.
  rewrite Ho, Hi. reflexivity.
Qed.

(** A triangle that the test accepts for a ray and no longer accepts for the
    same ray with another hit record lies at or beyond the [t_far] of that
    record. *)
Lemma mt_accepts_far (r r' : Ray) (tri : Triangle) :
  same_query r r' ->
  mt_accepts r tri = true -> mt_accepts r' tri = false ->
  flt (mt_t r tri) (t_far r') = false.
Proof.
  intros (Ho & Hd & _) H1 H2.
  unfold mt_accepts, mt_u, mt_v, mt_t, mt_Q, mt_T, mt_inv_det, mt_det, mt_P
    in *.
  rewrite Ho, Hd in H2.
  apply andb_true_iff in H1. destruct H1 as [H1 Ht].
  apply andb_true_iff in H1. destruct H1 as [H1 Hv].
  apply andb_true_iff in H1. destruct H1 as [Hdet Hu].
  apply andb_true_iff in Ht. destruct Ht as [Ht1 _].
  rewrite Hdet, Hu, Hv, Ht1 in H2. cbn [andb] in H2. exact H2.
Qed.

Lemma In_aget {A : Type} (a : list A) (x : A) :
  In x a -> exists i, 0 <= i < Z.of_nat (length a) /\ aget a i = Ok x.
Proof.
  intros H. apply In_nth_error in H. destruct H as [n Hn].
  exists (Z.of_nat n). split.
  - assert (n < length a)%nat
      by (apply nth_error_Some; rewrite Hn; discriminate).
    lia.
  - unfold aget. destruct (Z.of_nat n <? 0) eqn:E; [apply Z.ltb_lt in E; lia|].
    rewrite Nat2Z.id, Hn. reflexivity.
Qed.

(** When no box rejects the ray while the ray hits a triangle under it,
    the test of the returned ray accepts no triangle in the range of the
    root. *)
Lemma _recursive_intersect_complete (tris : list Triangle) (len : Z)
  (node : BVHNode) (ray ray' : Ray) :
  tree_ok len node ->
  boxes_pass tris ray node ->
  _recursive_intersect tris ray node = Ok ray' ->
  forall i tri, node_begin node <= i < node_end node ->
                aget tris i = Ok tri -> mt_accepts ray' tri = false.
Proof.
  intros Htree Hpass H i tri Hi Hget.
  pose proof (_recursive_intersect_hit_from _ _ _ _ H) as [Hq Hhit].
  destruct (in_dec Z.eq_dec i (scanned_cells ray node)) as [Hs | Hs].
  - exact (_recursive_intersect_nearest tris node ray ray' H i tri Hs Hget).
  - destruct (mt_accepts ray' tri) eqn:Hacc; [|reflexivity]. exfalso.
    assert (Hall : In i (all_cells node))
      by (rewrite (all_cells_range len node Htree); apply in_zrange; exact Hi).
    destruct (unscanned_blocked ray len node Htree i Hall Hs)
      as (m & Hm & Hr & Hbox).
    assert (Hray : mt_accepts ray tri = true).
    { apply (mt_accepts_nearer ray ray' tri Hq Hacc).
      apply mt_accepts_below in Hacc.
      rewrite (mt_t_same_query ray ray' tri Hq) in Hacc.
      destruct Hhit as [[Ht _] | (_ & _ & _ & _ & _ & Hlt)].
      - rewrite <- Ht. exact Hacc.
      - eapply flt_trans; eassumption. }
    rewrite (Hpass m i tri Hm Hr Hget) in Hbox; [discriminate Hbox|].
    rewrite ray_triangle_intersect_eq, Hray. reflexivity.
Qed.

Lemma boxes_pass_b_sound (tris : list Triangle) (ray : Ray) (node : BVHNode) :
  boxes_pass_b tris ray node = true -> boxes_pass tris ray node.
Proof.
  unfold boxes_pass_b, boxes_pass. intros H n i tri Hn Hi Hget Hhit.
  rewrite forallb_forall in H. specialize (H n Hn).
  apply orb_true_iff in H. destruct H as [H | H]; [exact H|].
  rewrite forallb_forall in H.
  specialize (H i (proj2 (in_zrange _ _ _) Hi)).
  rewrite Hget, Hhit in H. discriminate H.
Qed.

(** X20.  The walk misses no triangle as long as the box test misses none.
    On a sound tree, for a ray that no box of the tree rejects while
    [ray_triangle_intersect] reports a hit of the ray on a triangle in the
    range of its node, the returned hit is the nearest among all triangles
    in the range of the root, those in the subtrees the walk skipped
    included: testing the returned ray against any of them reports a miss
    and leaves the ray as it is. *)
Theorem recursive_intersect_misses_nothing (tris : list Triangle) (len : Z)
  (node : BVHNode) (ray ray' : Ray) :
  tree_ok len node ->
  boxes_pass tris ray node ->
  _recursive_intersect tris ray node = Ok ray' ->
  forall i tri, node_begin node <= i < node_end node ->
                aget tris i = Ok tri ->
                ray_triangle_intersect ray' tri = (false, ray').
Proof.
  intros Htree Hpass H i tri Hi Hget.
  rewrite ray_triangle_intersect_eq.
  rewrite (_recursive_intersect_complete tris len node ray ray'
             Htree Hpass H i tri Hi Hget).
  reflexivity.
Qed.

Lemma box_cinit_Ok :
  __cinit__ 12 4 8 [] tetra_faces [] box_vertices box_tets box_field
  = Ok box_bvh.
Proof. vm_compute. reflexivity. Qed.

Lemma box_tree_ok : tree_ok 20 (root box_bvh).
Proof.
  pose proof (cinit_Ok_layout _ _ _ _ _ _ _ _ _ _ box_cinit_Ok)
    as (_ & _ & _ & _ & _ & _ & H & _).
  exact H.
Qed.

Lemma box_ray_boxes_pass :
  boxes_pass (triangles box_bvh) box_ray (root box_bvh).
Proof. apply boxes_pass_b_sound. vm_compute. reflexivity. Qed.

Lemma recursive_intersect_misses_nothing_witness :
  boxes_pass (triangles box_bvh) box_ray (root box_bvh) /\
  forall i tri, node_begin (root box_bvh) <= i < node_end (root box_bvh) ->
                aget (triangles box_bvh) i = Ok tri ->
                ray_triangle_intersect box_ray_walked tri
                = (false, box_ray_walked).
Proof.
  split; [exact box_ray_boxes_pass|].
  apply (recursive_intersect_misses_nothing (triangles box_bvh) 20
           (root box_bvh) box_ray box_ray_walked).
  - exact box_tree_ok.
  - exact box_ray_boxes_pass.
  - vm_compute. reflexivity.
Defined.

(** ** The nearest hit on a constructed BVH *)

(** On a BVH that [__cinit__] returns, the walk of a ray that hits a
    triangle of the mesh, and that no box rejects while it hits a triangle
    under it, returns the hit record of a triangle that the ray hits, and no
    triangle that the ray hits is nearer. *)
Lemma walk_nearest (hex_nt tetra_nt wedge_nt : Z)
  (hex tetra wedge : list (list Z)) (verts : mview float64)
  (indices : mview Z) (fdata : mview float64) (bvh : BVH) (ray ray1 : Ray) :
  __cinit__ hex_nt tetra_nt wedge_nt hex tetra wedge verts indices fdata
  = Ok bvh ->
  boxes_pass (triangles bvh) ray (root bvh) ->
  _recursive_intersect (triangles bvh) ray (root bvh) = Ok ray1 ->
  (exists tri, In tri (triangles bvh) /\ mt_accepts ray tri = true) ->
  same_query ray ray1 /\
  exists hit,
    In hit (triangles bvh) /\ mt_accepts ray hit = true /\
    elem_id ray1 = tri_elem_id hit /\ t_far ray1 = mt_t ray hit /\
    forall tri, In tri (triangles bvh) -> mt_accepts ray tri = true ->
                fle (mt_t ray hit) (mt_t ray tri) = true.
Proof.
  intros Hc Hpass Hwalk Hsome.
  pose proof (cinit_Ok_layout _ _ _ _ _ _ _ _ _ _ Hc)
    as (_ & _ & _ & _ & Hlen & _ & Htree & Hb & He & _).
  pose proof (_recursive_intersect_won_from _ _ _ _ Hwalk) as [Hq Hhit].
  split; [exact Hq|].
  assert (Hfar : forall tri, In tri (triangles bvh) ->
                             mt_accepts ray tri = true ->
                             flt (mt_t ray tri) (t_far ray1) = false).
  { intros tri Hin Hacc.
    apply In_aget in Hin. destruct Hin as (i & Hi & Hget).
    apply (mt_accepts_far ray ray1 tri Hq Hacc).
    apply (_recursive_intersect_complete (triangles bvh) (num_tri bvh)
             (root bvh) ray ray1 Htree Hpass Hwalk i tri); [|exact Hget].
    rewrite Hb, He. lia. }
  destruct Hhit as [[Hsame _] | (hit & Hh & Hah & Et & Eid)].
  - destruct Hsome as (tri & Hin & Hacc).
    pose proof (Hfar tri Hin Hacc) as F.
    rewrite Hsame, (mt_accepts_below ray tri Hacc) in F. discriminate F.
  - exists hit. split; [exact Hh|]. split; [exact Hah|].
    split; [exact Eid|]. split; [exact Et|].
    intros tri Hin Hacc. pose proof (Hfar tri Hin Hacc) as F.
    pose proof (mt_accepts_distance ray hit Hah) as (Hlo & Hhi).
    pose proof (mt_accepts_distance ray tri Hacc) as (Ht1 & Ht2).
    pose proof (between_fin _ _ _ Hlo Hhi) as F1.
    pose proof (between_fin _ _ _ Ht1 Ht2) as F2.
    rewrite Et in F.
    destruct (mt_t ray hit); try contradiction.
    destruct (mt_t ray tri); try contradiction.
    unfold flt, Qltb in F. unfold fle.
    apply negb_false_iff in F. exact F.
Qed.

(** X21.  [intersect] finds the nearest hit of the mesh as long as the box
    test misses none.  On a BVH that [__cinit__] returns, for a ray that no
    box of the tree rejects while [ray_triangle_intersect] reports a hit of
    the ray on a triangle in the range of its node: when the ray hits some
    triangle of the mesh, [intersect] reports the element id and the
    distance of a triangle of the mesh that the ray hits, and no triangle of
    the mesh that the ray hits is nearer. *)
Theorem intersect_finds_nearest
  (sample : ElementSampler -> list float64 -> list float64 -> vec3 -> float64)
  (hex_nt tetra_nt wedge_nt : Z)
  (hex tetra wedge : list (list Z)) (verts : mview float64)
  (indices : mview Z) (fdata : mview float64) (bvh : BVH)
  (ray ray2 : Ray) (calls : list SamplerCall) :
  __cinit__ hex_nt tetra_nt wedge_nt hex tetra wedge verts indices fdata
  = Ok bvh ->
  boxes_pass (triangles bvh) ray (root bvh) ->
  intersect sample bvh ray = Ok (ray2, calls) ->
  (exists tri, In tri (triangles bvh) /\
               fst (ray_triangle_intersect ray tri) = true) ->
  exists hit,
    In hit (triangles bvh) /\
    fst (ray_triangle_intersect ray hit) = true /\
    elem_id ray2 = tri_elem_id hit /\
    t_far ray2 = t_far (snd (ray_triangle_intersect ray hit)) /\
    forall tri, In tri (triangles bvh) ->
      fst (ray_triangle_intersect ray tri) = true ->
      fle (t_far ray2) (t_far (snd (ray_triangle_intersect ray tri))) = true.
Proof.
  intros Hc Hpass Hint (tri0 & Hin0 & Hacc0).
  apply intersect_walk in Hint.
  destruct Hint as (ray1 & Hwalk & -> & -> & _).
  rewrite ray_triangle_intersect_eq in Hacc0.
  destruct (mt_accepts ray tri0) eqn:Hacc; cbn [fst] in Hacc0;
    [|discriminate].
  destruct (walk_nearest _ _ _ _ _ _ _ _ _ _ ray ray1 Hc Hpass Hwalk)
    as (_ & hit & Hh & Hah & Eid & Et & Hmin);
    [exists tri0; tauto|].
  exists hit. rewrite ray_triangle_intersect_eq, Hah. cbn [fst snd].
  change (t_far (set_hit ray (mt_t ray hit) (tri_elem_id hit)))
    with (mt_t ray hit).
  split; [exact Hh|]. split; [reflexivity|]. split; [exact Eid|].
  split; [exact Et|].
  intros tri Hin. rewrite ray_triangle_intersect_eq.
  destruct (mt_accepts ray tri) eqn:Hat; cbn [fst snd]; [|discriminate].
  intros _.
  change (t_far (set_hit ray (mt_t ray tri) (tri_elem_id tri)))
    with (mt_t ray tri).
  rewrite Et. exact (Hmin tri Hin Hat).
Qed.

Lemma box_sampled_Ok :
  intersect fourth_value box_bvh box_ray
  = Ok (fst box_sampled, snd box_sampled).
Proof. vm_compute. reflexivity. Qed.

Lemma box_ray_hits :
  In box_hit_triangle (triangles box_bvh) /\
  fst (ray_triangle_intersect box_ray box_hit_triangle) = true.
Proof. split; [vm_compute; tauto | vm_compute; reflexivity]. Qed.

Lemma intersect_finds_nearest_witness :
  boxes_pass (triangles box_bvh) box_ray (root box_bvh) /\
  exists hit,
    In hit (triangles box_bvh) /\
    fst (ray_triangle_intersect box_ray hit) = true /\
    elem_id (fst box_sampled) = tri_elem_id hit /\
    t_far (fst box_sampled)
    = t_far (snd (ray_triangle_intersect box_ray hit)) /\
    forall tri, In tri (triangles box_bvh) ->
      fst (ray_triangle_intersect box_ray tri) = true ->
      fle (t_far (fst box_sampled))
          (t_far (snd (ray_triangle_intersect box_ray tri))) = true.
Proof.
  split; [exact box_ray_boxes_pass|].
  apply (intersect_finds_nearest fourth_value 12 4 8 [] tetra_faces []
           box_vertices box_tets box_field box_bvh box_ray
           (fst box_sampled) (snd box_sampled)).
  - exact box_cinit_Ok.
  - exact box_ray_boxes_pass.
  - exact box_sampled_Ok.
  - exists box_hit_triangle. exact box_ray_hits.
Defined.

(** ** The image *)

(** ** The image *)

Lemma cast_rays_pixels
  (sample : ElementSampler -> list float64 -> list float64 -> vec3 -> float64)
  (fresh : Ray) (image origins direction : list float64) (N : Z) (bvh : BVH)
  (image' : list float64) (calls : list SamplerCall) (i : Z) (ray : Ray) :
  cast_rays sample fresh image origins direction N bvh = Ok (image', calls) ->
  0 <= i < N ->
  pixel_ray_at origins direction N i = Ok ray ->
  exists ray3 made,
    intersect sample bvh ray = Ok (ray3, made) /\
    aget image' i = Ok (data_val ray3).
Proof.
  unfold cast_rays, pixel_ray_at.
  destruct (aget direction 0) as [d0|]; cbn [bind]; [|discriminate].
  destruct (aget direction 1) as [d1|]; cbn [bind]; [|discriminate].
  destruct (aget direction 2) as [d2|]; cbn [bind]; [|discriminate].
  match goal with
  | |- context [fold_left ?f ?l (Ok (?r, image, []))] =>
      destruct (fold_left f l (Ok (r, image, [])))
        as [[[ray1 image1] calls1]|] eqn:Hfold; cbn [bind]; [|discriminate]
  end.
  intros H Hi Hray. inversion H; subst; clear H.
  apply (cast_fold_spec sample bvh origins N (Vec3 d0 d1 d2)
           (Vec3 (fdiv f1 d0) (fdiv f1 d1) (fdiv f1 d2))) in Hfold;
    [|apply zrange_NoDup | reflexivity | reflexivity].
  destruct Hfold as (_ & _ & Hin).
  destruct (Hin i) as (o0 & o1 & o2 & ray3 & made & A0 & A1 & A2 & Hint & Hv);
    [apply in_zrange; lia|].
  rewrite A0, A1, A2 in Hray. cbn [bind] in Hray.
  inversion Hray; subst. exists ray3, made. tauto.
Qed.

Lemma pixel_ray_at_record (origins direction : list float64) (N i : Z)
  (ray : Ray) :
  pixel_ray_at origins direction N i = Ok ray ->
  data_val ray = f0 /\ elem_id ray = -1 /\ t_far ray = INF.
Proof.
  unfold pixel_ray_at.
  destruct (aget direction 0) as [d0|]; cbn [bind]; [|discriminate].
  destruct (aget direction 1) as [d1|]; cbn [bind]; [|discriminate].
  destruct (aget direction 2) as [d2|]; cbn [bind]; [|discriminate].
  destruct (oget origins N 0 i) as [o0|]; cbn [bind]; [|discriminate].
  destruct (oget origins N 1 i) as [o1|]; cbn [bind]; [|discriminate].
  destruct (oget origins N 2 i) as [o2|]; cbn [bind]; [|discriminate].
  intros H. inversion H; subst. repeat split; reflexivity.
Qed.

(** X22.  [cast_rays] invents no hit: a pixel whose ray hits no triangle of
    the mesh gets the value 0, whatever the tree looks like. *)
Theorem cast_rays_background
  (sample : ElementSampler -> list float64 -> list float64 -> vec3 -> float64)
  (fresh : Ray) (image origins direction : list float64) (N : Z) (bvh : BVH)
  (image' : list float64) (calls : list SamplerCall) (i : Z) (ray : Ray) :
  cast_rays sample fresh image origins direction N bvh = Ok (image', calls) ->
  0 <= i < N ->
  pixel_ray_at origins direction N i = Ok ray ->
  (forall tri, In tri (triangles bvh) ->
               fst (ray_triangle_intersect ray tri) = false) ->
  aget image' i = Ok f0.
Proof.
  intros Hcast Hi Hray Hnone.
  destruct (cast_rays_pixels _ _ _ _ _ _ _ _ _ _ _ Hcast Hi Hray)
    as (ray3 & made & Hint & Hv).
  rewrite Hv. f_equal.
  destruct (pixel_ray_at_record _ _ _ _ _ Hray) as (Hdv & Hid & _).
  apply intersect_walk in Hint.
  destruct Hint as (ray1 & Hwalk & _ & _ & Hcase).
  pose proof (_recursive_intersect_won_from _ _ _ _ Hwalk)
    as [(_ & _ & _ & Hdata & _) Hhit].
  destruct Hhit as [[_ Hsame] | (hit & Hh & Hah & _)].
  - destruct Hcase as [(_ & -> & _) | (Hpos & _)]; [|lia].
    rewrite Hdata. exact Hdv.
  - specialize (Hnone hit Hh). rewrite ray_triangle_intersect_eq, Hah in Hnone.
    discriminate Hnone.
Qed.

Lemma far_ray_misses :
  forall tri, In tri (triangles box_bvh) ->
    fst (ray_triangle_intersect
           (pixel_ray (Vec3 (fz 5) (fz 5) (fz 5)) (Vec3 f0 f0 f1)
                      (Vec3 (fdiv f1 f0) (fdiv f1 f0) (fdiv f1 f1))) tri)
    = false.
Proof.
  intros tri Hin.
  assert (H : forallb (fun t =>
                negb (fst (ray_triangle_intersect
                  (pixel_ray (Vec3 (fz 5) (fz 5) (fz 5)) (Vec3 f0 f0 f1)
                     (Vec3 (fdiv f1 f0) (fdiv f1 f0) (fdiv f1 f1))) t)))
              (triangles box_bvh) = true) by (vm_compute; reflexivity).
  rewrite forallb_forall in H. apply negb_true_iff. exact (H tri Hin).
Qed.

Lemma cast_rays_background_witness :
  0 <= 1 < 2 /\ aget (fst box_cast) 1 = Ok f0.
Proof.
  split; [lia|].
  apply (cast_rays_background fourth_value upward_ray [fz 9; fz 9] two_origins
           [f0; f0; f1] 2 box_bvh (fst box_cast) (snd box_cast) 1
           (pixel_ray (Vec3 (fz 5) (fz 5) (fz 5)) (Vec3 f0 f0 f1)
                      (Vec3 (fdiv f1 f0) (fdiv f1 f0) (fdiv f1 f1)))).
  - vm_compute. reflexivity.
  - lia.
  - vm_compute. reflexivity.
  - exact far_ray_misses.
Defined.

(** X23.  [cast_rays] shades a pixel with the nearest hit as long as the
    box test misses none.  On a BVH that [__cinit__] returns, a pixel whose
    ray hits some triangle of the mesh, and is rejected by no box of the tree
    while [ray_triangle_intersect] reports a hit of the ray on a triangle in
    the range of its node, gets the value that the sampler returns for the
    element of a triangle that the ray hits and that no other hit triangle
    is nearer than, at the position [origin + t * direction] that the code
    computes for the distance [t] of that triangle. *)
Theorem cast_rays_shades_nearest
  (sample : ElementSampler -> list float64 -> list float64 -> vec3 -> float64)
  (hex_nt tetra_nt wedge_nt : Z)
  (hex tetra wedge : list (list Z)) (verts : mview float64)
  (indices : mview Z) (fdata : mview float64) (bvh : BVH)
  (fresh : Ray) (image origins direction : list float64) (N : Z)
  (image' : list float64) (calls : list SamplerCall) (i : Z) (ray : Ray) :
  __cinit__ hex_nt tetra_nt wedge_nt hex tetra wedge verts indices fdata
  = Ok bvh ->
  cast_rays sample fresh image origins direction N bvh = Ok (image', calls) ->
  0 <= i < N ->
  pixel_ray_at origins direction N i = Ok ray ->
  boxes_pass (triangles bvh) ray (root bvh) ->
  (exists tri, In tri (triangles bvh) /\
               fst (ray_triangle_intersect ray tri) = true) ->
  exists hit s,
    In hit (triangles bvh) /\
    fst (ray_triangle_intersect ray hit) = true /\
    (forall tri, In tri (triangles bvh) ->
       fst (ray_triangle_intersect ray tri) = true ->
       fle (t_far (snd (ray_triangle_intersect ray hit)))
           (t_far (snd (ray_triangle_intersect ray tri))) = true) /\
    sampler bvh = Some s /\
    aget image' i
    = Ok (sample s
            (skipn (Z.to_nat (tri_elem_id hit * num_verts_per_elem bvh * 3))
                   (vertices bvh))
            (skipn (Z.to_nat (tri_elem_id hit * num_verts_per_elem bvh))
                   (field_data bvh))
            (ray_point ray (t_far (snd (ray_triangle_intersect ray hit))))).
Proof.
  intros Hc Hcast Hi Hray Hpass (tri0 & Hin0 & Hacc0).
  destruct (cast_rays_pixels _ _ _ _ _ _ _ _ _ _ _ Hcast Hi Hray)
    as (ray3 & made & Hint & Hv).
  apply intersect_walk in Hint.
  destruct Hint as (ray1 & Hwalk & _ & _ & Hcase).
  rewrite ray_triangle_intersect_eq in Hacc0.
  destruct (mt_accepts ray tri0) eqn:Hacc; cbn [fst] in Hacc0;
    [|discriminate].
  destruct (walk_nearest _ _ _ _ _ _ _ _ _ _ ray ray1 Hc Hpass Hwalk)
    as (Hq & hit & Hh & Hah & Eid & Et & Hmin);
    [exists tri0; tauto|].
  pose proof (cinit_Ok_layout _ _ _ _ _ _ _ _ _ _ Hc)
    as (_ & _ & _ & _ & _ & Hids & _).
  rewrite Forall_forall in Hids. destruct (Hids hit Hh) as [Hid _].
  destruct Hcase as [(Hneg & _) | (_ & s & Hs & Hdata)]; [lia|].
  exists hit, s. rewrite ray_triangle_intersect_eq, Hah. cbn [fst snd].
  change (t_far (set_hit ray (mt_t ray hit) (tri_elem_id hit)))
    with (mt_t ray hit).
  split; [exact Hh|]. split; [reflexivity|]. split.
  - intros tri Hin. rewrite ray_triangle_intersect_eq.
    destruct (mt_accepts ray tri) eqn:Hat; cbn [fst snd]; [|discriminate].
    intros _. exact (Hmin tri Hin Hat).
  - split; [exact Hs|]. rewrite Hv, Hdata, Eid, Et. do 2 f_equal.
    destruct Hq as (Ho & Hd & _). unfold ray_point. rewrite Ho, Hd.
    reflexivity.
Qed.

Lemma cast_rays_shades_nearest_witness :
  boxes_pass (triangles box_bvh) box_ray (root box_bvh) /\
  exists hit s,
    In hit (triangles box_bvh) /\
    fst (ray_triangle_intersect box_ray hit) = true /\
    (forall tri, In tri (triangles box_bvh) ->
       fst (ray_triangle_intersect box_ray tri) = true ->
       fle (t_far (snd (ray_triangle_intersect box_ray hit)))
           (t_far (snd (ray_triangle_intersect box_ray tri))) = true) /\
    sampler box_bvh = Some s /\
    aget (fst box_cast) 0
    = Ok (fourth_value s
            (skipn (Z.to_nat (tri_elem_id hit * num_verts_per_elem box_bvh * 3))
                   (vertices box_bvh))
            (skipn (Z.to_nat (tri_elem_id hit * num_verts_per_elem box_bvh))
                   (field_data box_bvh))
            (ray_point box_ray
               (t_far (snd (ray_triangle_intersect box_ray hit))))).
Proof.
  split; [exact box_ray_boxes_pass|].
  apply (cast_rays_shades_nearest fourth_value 12 4 8 [] tetra_faces []
           box_vertices box_tets box_field box_bvh upward_ray [fz 9; fz 9]
           two_origins [f0; f0; f1] 2 (fst box_cast) (snd box_cast) 0 box_ray).
  - exact box_cinit_Ok.
  - vm_compute. reflexivity.
  - lia.
  - vm_compute. reflexivity.
  - exact box_ray_boxes_pass.
  - exists box_hit_triangle. exact box_ray_hits.
Defined.

(** ** A ray on a plane of the box *)

(** ** A ray on a plane of the box *)

Lemma fmax_PInf_l (x : float64) : fmax PInf x = PInf.
Proof. destruct x; reflexivity. Qed.

Lemma fmax_PInf_r (x : float64) : fmax x PInf = PInf.
Proof. destruct x; reflexivity. Qed.

Lemma fmin_NInf_l (x : float64) : fmin NInf x = NInf.
Proof. destruct x; reflexivity. Qed.

Lemma fmin_NInf_r (x : float64) : fmin x NInf = NInf.
Proof. destruct x; reflexivity. Qed.

Lemma fmin_below_inf (a b : float64) :
  flt a PInf = true \/ flt b PInf = true -> flt (fmin a b) PInf = true.
Proof. intros [H | H]; destruct a, b; fsolve. Qed.

(** The product of a number and plus infinity. *)
Lemma fmul_PInf (x : float64) :
  (flt f0 x = true -> fmul x PInf = PInf) /\
  (flt x f0 = true -> fmul x PInf = NInf).
Proof.
  destruct x as [| |a|]; cbn [fmul]; split; intros H; try discriminate H;
    try reflexivity;
    unfold scale_inf, flt, f0, Qltb in *;
    apply negb_true_iff in H; apply Qle_bool_false in H;
    qcases; simpl; try reflexivity; exfalso; lra.
Qed.

(** On an axis with the reciprocal direction [1 / 0] and the origin on a
    plane of a box with a width, both slab distances are the same infinity:
    the product of the zero difference and the infinity is NaN and is
    dropped by [fmin] and [fmax]. *)
Lemma slab_on_plane (ray : Ray) (bbox : BBox) (i : Z) :
  vget (inv_dir ray) i = fdiv f1 f0 ->
  flt (vget (left_edge bbox) i) (vget (right_edge bbox) i) = true ->
  feq (vget (origin ray) i) (vget (left_edge bbox) i) = true \/
  feq (vget (origin ray) i) (vget (right_edge bbox) i) = true ->
  (slab_entry ray bbox i = PInf /\ slab_exit ray bbox i = PInf) \/
  (slab_entry ray bbox i = NInf /\ slab_exit ray bbox i = NInf).
Proof.
  unfold slab_entry, slab_exit, slab_t. intros -> Hw Ho.
  change (fdiv f1 f0) with PInf.
  destruct (vget (origin ray) i) as [| |o|];
    try (destruct Ho as [Ho | Ho]; discriminate Ho).
  destruct Ho as [Ho | Ho].
  - (* the origin on the left plane *)
    destruct (vget (left_edge bbox) i) as [| |l|]; try discriminate Ho.
    unfold feq in Ho. apply Qeq_bool_iff in Ho.
    assert (Hw' : flt (Fin o) (vget (right_edge bbox) i) = true).
    { destruct (vget (right_edge bbox) i); try discriminate Hw;
        try reflexivity.
      unfold flt, Qltb in *. apply negb_true_iff in Hw.
      apply Qle_bool_false in Hw. apply negb_true_iff.
      destruct (Qle_bool q o) eqn:E; [|reflexivity].
      apply Qle_bool_iff in E. exfalso. lra. }
    apply fsub_above in Hw'.
    rewrite (proj1 (fmul_PInf _) Hw').
    assert (Hz : fsub (Fin l) (Fin o) = Fin (l + - o)).
    { unfold fsub. cbn [fneg fadd].
      apply (proj2 (proj2 (overflow64_sign (l + - o)))). lra. }
    rewrite Hz. cbn [fmul]. unfold scale_inf.
    assert (Hq : Qeq_bool (l + - o) 0 = true) by (apply Qeq_bool_iff; lra).
    rewrite Hq. left. split; reflexivity.
  - (* the origin on the right plane *)
    destruct (vget (right_edge bbox) i) as [| |r|]; try discriminate Ho.
    unfold feq in Ho. apply Qeq_bool_iff in Ho.
    assert (Hw' : flt (vget (left_edge bbox) i) (Fin o) = true).
    { destruct (vget (left_edge bbox) i); try discriminate Hw;
        try reflexivity.
      unfold flt, Qltb in *. apply negb_true_iff in Hw.
      apply Qle_bool_false in Hw. apply negb_true_iff.
      destruct (Qle_bool o q) eqn:E; [|reflexivity].
      apply Qle_bool_iff in E. exfalso. lra. }
    apply fsub_below in Hw'.
    rewrite (proj2 (fmul_PInf _) Hw').
    assert (Hz : fsub (Fin r) (Fin o) = Fin (r + - o)).
    { unfold fsub. cbn [fneg fadd].
      apply (proj2 (proj2 (overflow64_sign (r + - o)))). lra. }
    rewrite Hz. cbn [fmul]. unfold scale_inf.
    assert (Hq : Qeq_bool (r + - o) 0 = true) by (apply Qeq_bool_iff; lra).
    rewrite Hq. right. split; reflexivity.
Qed.

(** X24.  A ray on a plane of the box misses it.  When the reciprocal
    direction on an axis is [1 / 0], the origin lies on one of the two planes
    of the box for that axis and the box has a width there, and the exit
    distance that the test computes for some axis is below infinity,
    [ray_bbox_intersect] returns [False], also for a ray that runs inside the
    face of the box. *)
Theorem ray_bbox_intersect_misses_on_plane (ray : Ray) (bbox : BBox)
  (i j : Z) :
  0 <= i <= 2 -> 0 <= j <= 2 ->
  vget (inv_dir ray) i = fdiv f1 f0 ->
  flt (vget (left_edge bbox) i) (vget (right_edge bbox) i) = true ->
  feq (vget (origin ray) i) (vget (left_edge bbox) i) = true \/
  feq (vget (origin ray) i) (vget (right_edge bbox) i) = true ->
  flt (fmax (fmul (fsub (vget (left_edge bbox) j) (vget (origin ray) j))
                  (vget (inv_dir ray) j))
            (fmul (fsub (vget (right_edge bbox) j) (vget (origin ray) j))
                  (vget (inv_dir ray) j))) INF = true ->
  ray_bbox_intersect ray bbox = false.
Proof.
  intros Hi Hj Hinv Hw Ho Hx.
  change (flt (slab_exit ray bbox j) PInf = true) in Hx.
  pose proof (slab_on_plane ray bbox i Hinv Hw Ho) as Hp.
  unfold ray_bbox_intersect. rewrite slab_interval_eq.
  assert (Hi3 : i = 0 \/ i = 1 \/ i = 2) by lia.
  assert (Hj3 : j = 0 \/ j = 1 \/ j = 2) by lia.
  clear Hi Hj Hinv Hw Ho.
  destruct Hp as [[He _] | [_ He]].
  - assert (Hmin : fmax (fmax (fmax (fneg INF) (slab_entry ray bbox 0))
                              (slab_entry ray bbox 1))
                        (slab_entry ray bbox 2) = PInf).
    { destruct Hi3 as [-> | [-> | ->]]; rewrite He;
        rewrite ?fmax_PInf_r, ?fmax_PInf_l; reflexivity. }
    assert (Hmax : flt (fmin (fmin (fmin INF (slab_exit ray bbox 0))
                                   (slab_exit ray bbox 1))
                             (slab_exit ray bbox 2)) PInf = true).
    { destruct Hj3 as [-> | [-> | ->]].
      - apply fmin_below_inf. left. apply fmin_below_inf. left.
        apply fmin_below_inf. right. exact Hx.
      - apply fmin_below_inf. left. apply fmin_below_inf. right. exact Hx.
      - apply fmin_below_inf. right. exact Hx. }
    rewrite Hmin.
    destruct (fmin (fmin (fmin INF (slab_exit ray bbox 0))
                         (slab_exit ray bbox 1)) (slab_exit ray bbox 2));
      try discriminate Hmax; reflexivity.
  - assert (Hmax : fmin (fmin (fmin INF (slab_exit ray bbox 0))
                              (slab_exit ray bbox 1))
                        (slab_exit ray bbox 2) = NInf).
    { destruct Hi3 as [-> | [-> | ->]]; rewrite He;
        rewrite ?fmin_NInf_r, ?fmin_NInf_l; reflexivity. }
    rewrite Hmax.
    destruct (fmax (fmax (fmax (fneg INF) (slab_entry ray bbox 0))
                         (slab_entry ray bbox 1)) (slab_entry ray bbox 2));
      fsolve.
Qed.

Lemma ray_bbox_intersect_misses_on_plane_witness :
  point_inside (ray_point grazing_ray (Fin (3 # 2))) unit_box = true /\
  ray_bbox_intersect grazing_ray unit_box = false.
Proof.
  split; [vm_compute; reflexivity|].
  apply (ray_bbox_intersect_misses_on_plane grazing_ray unit_box 0 2);
    try lia; try reflexivity.
  left. reflexivity.
Defined.

(** ** The buffers of a constructed BVH *)

Lemma for_each_nth {A B : Type} (f : A -> result (list B)) (c : nat)
  (l : list A) :
  (forall x ys, In x l -> f x = Ok ys -> length ys = c) ->
  forall r, for_each f l = Ok r ->
  forall n x, nth_error l n = Some x ->
    exists ys, f x = Ok ys /\
      forall m, (m < c)%nat -> nth_error r (n * c + m) = nth_error ys m.
Proof.
  induction l as [|x0 l IH]; intros Hc r H n x Hn.
  - destruct n; discriminate Hn.
  - cbn [for_each] in H.
    destruct (f x0) as [ys0|] eqn:F0; cbn [bind] in H; [|discriminate].
    destruct (for_each f l) as [rest|] eqn:Fl; cbn [bind] in H; [|discriminate].
    inversion H; subst; clear H.
    pose proof (Hc x0 ys0 (or_introl eq_refl) F0) as L0.
    destruct n as [|n].
    + inversion Hn; subst. exists ys0. split; [exact F0|].
      intros m Hm. cbn [Nat.mul Nat.add]. apply nth_error_app1. lia.
    + cbn [nth_error] in Hn.
      destruct (IH (fun y zs Hy => Hc y zs (or_intror Hy)) rest eq_refl n x Hn)
        as (ys & Fx & Hys).
      exists ys. split; [exact Fx|]. intros m Hm.
      rewrite nth_error_app2 by lia.
      rewrite <- (Hys m Hm). f_equal. lia.
Qed.

Lemma nth_error_zrange (n : Z) (k : nat) :
  (k < Z.to_nat n)%nat -> nth_error (zrange 0 n) k = Some (Z.of_nat k).
Proof.
  intros Hk. unfold zrange. rewrite nth_error_map.
  rewrite Z.sub_0_r. rewrite nth_error_seq.
  destruct (Nat.ltb_spec k (Z.to_nat n)); [|lia]. reflexivity.
Qed.

(** [for i in range(n)] with [c] results per pass: the results of pass [i]
    are at the indices [i * c + m]. *)
Lemma for_each_aget {B : Type} (g : Z -> result (list B)) (c n : Z)
  (r : list B) :
  0 <= c ->
  (forall i ys, 0 <= i < n -> g i = Ok ys -> Z.of_nat (length ys) = c) ->
  for_each g (zrange 0 n) = Ok r ->
  forall i, 0 <= i < n ->
    exists ys, g i = Ok ys /\
      forall m, 0 <= m < c -> aget r (i * c + m) = aget ys m.
Proof.
  intros Hc Hlen H i Hi.
  destruct (for_each_nth g (Z.to_nat c) (zrange 0 n)) with
    (r := r) (n := Z.to_nat i) (x := i) as (ys & Hg & Hys).
  - intros x ys Hx Hgx. apply in_zrange in Hx.
    pose proof (Hlen x ys Hx Hgx). lia.
  - exact H.
  - rewrite nth_error_zrange by lia. f_equal. lia.
  - exists ys. split; [exact Hg|]. intros m Hm.
    rewrite !aget_nth_error by nia.
    replace (Z.to_nat (i * c + m))
      with (Z.to_nat i * Z.to_nat c + Z.to_nat m)%nat by nia.
    rewrite Hys by lia. reflexivity.
Qed.

Lemma for_each_one_aget {B : Type} (g : Z -> result B) (n : Z) (r : list B) :
  for_each (fun j => do x <- g j; Ok [x]) (zrange 0 n) = Ok r ->
  forall j, 0 <= j < n -> exists x, g j = Ok x /\ aget r j = Ok x.
Proof.
  intros H j Hj.
  destruct (for_each_aget (fun j => do x <- g j; Ok [x]) 1 n r) with (i := j)
    as (ys & Hg & Hys); try assumption; try lia.
  - intros i ys _ Hi. destruct (g i); cbn [bind] in Hi; [|discriminate].
    inversion Hi. reflexivity.
  - destruct (g j) as [x|]; cbn [bind] in Hg; [|discriminate].
    inversion Hg; subst. exists x. split; [reflexivity|].
    specialize (Hys 0 ltac:(lia)). rewrite Z.mul_1_r, Z.add_0_r in Hys.
    rewrite Hys. reflexivity.
Qed.

(** The two data buffers of a BVH that [__cinit__] returns, as the loops
    fill them. *)
Lemma cinit_Ok_buffers (hex_nt tetra_nt wedge_nt : Z)
  (hex tetra wedge : list (list Z)) (verts : mview float64)
  (indices : mview Z) (fdata : mview float64) (bvh : BVH) :
  __cinit__ hex_nt tetra_nt wedge_nt hex tetra wedge verts indices fdata
  = Ok bvh ->
  for_each (fun i =>
    for_each (fun j => do x <- mget fdata i j; Ok [x])
             (zrange 0 (shape1 indices)))
    (zrange 0 (shape0 indices)) = Ok (field_data bvh) /\
  for_each (fun i =>
    for_each (fun j =>
      do v <- mget indices i j;
      for_each (fun k => do x <- mget verts v k; Ok [x]) (zrange 0 3))
      (zrange 0 (shape1 indices)))
    (zrange 0 (shape0 indices)) = Ok (vertices bvh).
Proof.
  unfold __cinit__.
  set (fb := for_each _ (zrange 0 (shape0 indices))).
  set (vb := for_each (fun i => for_each (fun j => do v <- mget indices i j; _)
                                         (zrange 0 (shape1 indices)))
                      (zrange 0 (shape0 indices))).
  destruct ((shape1 indices =? 8)), (shape1 indices =? 6),
    (shape1 indices =? 4); intros H;
    (destruct fb as [fbuf|]; cbn [bind] in H; [|discriminate]);
    (destruct vb as [vbuf|]; cbn [bind] in H; [|discriminate]);
    match type of H with
    | bind ?r _ = Ok _ => destruct r as [tris|]; cbn [bind] in H;
                          [|discriminate]
    end;
    match type of H with
    | bind ?r _ = Ok _ => destruct r as [[tris1 node]|];
                          cbn [bind] in H; [|discriminate]
    end;
    inversion H; subst; clear H; cbn [field_data vertices];
    split; reflexivity.
Qed.

(** X25.  The buffers of a BVH that [__cinit__] returns hold the data of the
    mesh: for every element [i] and local vertex [j], slot
    [i * num_verts_per_elem + j] of the field buffer holds [field_data[i][j]]
    and the slots [i * num_verts_per_elem * 3 + j * 3 + k] of the vertex
    buffer hold the coordinates [vertices[indices[i][j]][k]]. *)
Theorem cinit_buffers_hold_mesh (hex_nt tetra_nt wedge_nt : Z)
  (hex tetra wedge : list (list Z)) (verts : mview float64)
  (indices : mview Z) (fdata : mview float64) (bvh : BVH) :
  __cinit__ hex_nt tetra_nt wedge_nt hex tetra wedge verts indices fdata
  = Ok bvh ->
  forall i j, 0 <= i < num_elem bvh -> 0 <= j < num_verts_per_elem bvh ->
    exists x v,
      mget fdata i j = Ok x /\
      aget (field_data bvh) (i * num_verts_per_elem bvh + j) = Ok x /\
      mget indices i j = Ok v /\
      forall k, 0 <= k < 3 ->
        exists y,
          mget verts v k = Ok y /\
          aget (vertices bvh) (i * num_verts_per_elem bvh * 3 + j * 3 + k)
          = Ok y.
Proof.
  intros H i j Hi Hj.
  pose proof (cinit_Ok_buffers _ _ _ _ _ _ _ _ _ _ H) as [Hfb Hvb].
  apply cinit_Ok_parts in H.
  destruct H as (_ & _ & _ & _ & He & Hv & _).
  rewrite He in Hi. rewrite Hv in *.
  assert (Hn : 0 <= shape1 indices) by lia.
  assert (L1 : forall i' ys',
             0 <= i' < shape0 indices ->
             for_each (fun j => do x <- mget fdata i' j; Ok [x])
                      (zrange 0 (shape1 indices)) = Ok ys' ->
             Z.of_nat (length ys') = shape1 indices).
  { intros i' ys' _ Hr. apply for_each_one_length in Hr.
    rewrite Hr, zrange_length. lia. }
  assert (L2 : forall i' j' ws,
             0 <= j' < shape1 indices ->
             (do v <- mget indices i' j';
              for_each (fun k => do x <- mget verts v k; Ok [x]) (zrange 0 3))
             = Ok ws ->
             Z.of_nat (length ws) = 3).
  { intros i' j' ws _ Hw. destruct (mget indices i' j'); cbn [bind] in Hw;
      [|discriminate].
    apply for_each_one_length in Hw. rewrite Hw. reflexivity. }
  assert (L3 : forall i' ys',
             0 <= i' < shape0 indices ->
             for_each (fun j =>
               do v <- mget indices i' j;
               for_each (fun k => do x <- mget verts v k; Ok [x])
                        (zrange 0 3))
               (zrange 0 (shape1 indices)) = Ok ys' ->
             Z.of_nat (length ys') = shape1 indices * 3).
  { intros i' ys' _ Hr.
    apply (for_each_length _ 3%nat) in Hr;
      [rewrite Hr, zrange_length; lia|].
    intros j' ws Hj' Hw. apply in_zrange in Hj'.
    pose proof (L2 i' j' ws Hj' Hw). lia. }
  destruct (for_each_aget _ (shape1 indices) _ _ Hn L1 Hfb i Hi)
    as (ys & Hys & Hrow).
  destruct (for_each_one_aget _ _ _ Hys j Hj) as (x & Hx & Hax).
  destruct (for_each_aget _ (shape1 indices * 3) _ _ ltac:(lia) L3 Hvb i Hi)
    as (zs & Hzs & Hrow3).
  destruct (for_each_aget _ 3 _ _ ltac:(lia) (L2 i) Hzs j Hj)
    as (ws & Hws & Hcol).
  destruct (mget indices i j) as [v|] eqn:Hiv; cbn [bind] in Hws;
    [|discriminate].
  exists x, v. split; [exact Hx|]. split.
  - rewrite (Hrow j Hj). exact Hax.
  - split; [reflexivity|]. intros k Hk.
    destruct (for_each_one_aget _ _ _ Hws k Hk) as (y & Hy & Hay).
    exists y. split; [exact Hy|].
    replace (i * shape1 indices * 3 + j * 3 + k)
      with (i * (shape1 indices * 3) + (j * 3 + k)) by ring.
    rewrite (Hrow3 (j * 3 + k)) by lia.
    rewrite (Hcol k Hk). exact Hay.
Qed.

Lemma cinit_buffers_hold_mesh_witness :
  num_elem box_bvh = 5 /\
  forall i j, 0 <= i < num_elem box_bvh ->
    0 <= j < num_verts_per_elem box_bvh ->
    exists x v,
      mget box_field i j = Ok x /\
      aget (field_data box_bvh) (i * num_verts_per_elem box_bvh + j) = Ok x /\
      mget box_tets i j = Ok v /\
      forall k, 0 <= k < 3 ->
        exists y,
          mget box_vertices v k = Ok y /\
          aget (vertices box_bvh)
               (i * num_verts_per_elem box_bvh * 3 + j * 3 + k)
          = Ok y.
Proof.
  split; [reflexivity|].
  apply (cinit_buffers_hold_mesh 12 4 8 [] tetra_faces [] box_vertices
           box_tets box_field box_bvh).
  vm_compute. reflexivity.
Defined.

(** ** The triangles of a constructed BVH *)

Lemma for_each_In {A B : Type} (f : A -> result (list B)) (l : list A) :
  forall r y, for_each f l = Ok r -> In y r ->
    exists x ys, In x l /\ f x = Ok ys /\ In y ys.
Proof.
  induction l as [|x0 l IH]; intros r y H Hy; cbn [for_each] in H.
  - inversion H; subst. destruct Hy.
  - destruct (f x0) as [ys0|] eqn:F0; cbn [bind] in H; [|discriminate].
    destruct (for_each f l) as [rest|] eqn:Fl; cbn [bind] in H; [|discriminate].
    inversion H; subst; clear H. apply in_app_or in Hy.
    destruct Hy as [Hy | Hy].
    + exists x0, ys0. split; [left; reflexivity|]. tauto.
    + destruct (IH rest y eq_refl Hy) as (x & ys & Hx & Fx & Hin).
      exists x, ys. split; [right; exact Hx|]. tauto.
Qed.

Lemma make_triangle_face (verts : mview float64) (indices : mview Z)
  (tri_array : list (list Z)) (i j : Z) (t : Triangle) :
  make_triangle verts indices tri_array i j = Ok t ->
  is_face verts indices tri_array i j t.
Proof.
  unfold make_triangle, is_face, vertex_at. intros H.
  repeat match type of H with
         | bind ?r _ = Ok _ =>
             let E := fresh "E" in
             destruct r eqn:E; cbn [bind] in H; [|discriminate]
         end.
  inversion H; subst; clear H. cbn [p0 p1 p2 tri_elem_id].
  do 7 eexists.
  repeat match goal with
         | |- _ /\ _ => split
         end; try eassumption; try reflexivity;
    repeat match goal with
           | E : ?r = Ok _ |- context [?r] => rewrite E; cbn [bind]
           end; reflexivity.
Qed.

Lemma fill_triangles_faces (verts : mview float64) (indices : mview Z)
  (tri_array : list (list Z)) (ne ntpe : Z) (tris : list Triangle) :
  0 <= ntpe ->
  fill_triangles verts indices tri_array ne ntpe = Ok tris ->
  (forall t, In t tris ->
     exists j, 0 <= j < ntpe /\
               is_face verts indices tri_array (tri_elem_id t) j t) /\
  (forall i j, 0 <= i < ne -> 0 <= j < ntpe ->
     exists t, In t tris /\ is_face verts indices tri_array i j t).
Proof.
  unfold fill_triangles. intros Hn H. split.
  - intros t Ht.
    destruct (for_each_In _ _ _ _ H Ht) as (i & ys & _ & Hys & Hin).
    destruct (for_each_In _ _ _ _ Hys Hin) as (j & zs & Hj & Hzs & Hin2).
    apply in_zrange in Hj.
    destruct (make_triangle verts indices tri_array i j) as [t'|] eqn:Hm;
      cbn [bind] in Hzs; [|discriminate].
    inversion Hzs; subst. destruct Hin2 as [<- | []].
    apply make_triangle_face in Hm. exists j. split; [exact Hj|].
    destruct Hm as (row & k0 & k1 & k2 & v0 & v1 & v2 & Hm).
    assert (Hid : tri_elem_id t' = i) by tauto. rewrite Hid.
    exists row, k0, k1, k2, v0, v1, v2. exact Hm.
  - intros i j Hi Hj.
    assert (L : forall i' ys',
               0 <= i' < ne ->
               for_each (fun j =>
                 do t <- make_triangle verts indices tri_array i' j; Ok [t])
                 (zrange 0 ntpe) = Ok ys' ->
               Z.of_nat (length ys') = ntpe).
    { intros i' ys' _ Hr. apply for_each_one_length in Hr.
      rewrite Hr, zrange_length. lia. }
    destruct (for_each_aget _ ntpe _ _ Hn L H i Hi) as (ys & Hys & Hrow).
    destruct (for_each_one_aget _ _ _ Hys j Hj) as (t & Ht & Hat).
    exists t. split.
    + rewrite <- (Hrow j Hj) in Hat. eapply aget_In. exact Hat.
    + apply make_triangle_face. exact Ht.
Qed.

Lemma cinit_Ok_faces (hex_nt tetra_nt wedge_nt : Z)
  (hex tetra wedge : list (list Z)) (verts : mview float64)
  (indices : mview Z) (fdata : mview float64) (bvh : BVH) :
  __cinit__ hex_nt tetra_nt wedge_nt hex tetra wedge verts indices fdata
  = Ok bvh ->
  num_tri_per_elem bvh
  = fst (faces_for hex_nt tetra_nt wedge_nt hex tetra wedge
                   (shape1 indices)) /\
  exists tris,
    fill_triangles verts indices
      (snd (faces_for hex_nt tetra_nt wedge_nt hex tetra wedge
                      (shape1 indices)))
      (shape0 indices) (num_tri_per_elem bvh) = Ok tris /\
    Permutation tris (triangles bvh).
Proof.
  intros H. pose proof (cinit_Ok_parts _ _ _ _ _ _ _ _ _ _ H)
    as (_ & _ & _ & _ & _ & _ & _ & _ & Hshape & _).
  revert H. unfold __cinit__, faces_for.
  set (fb := for_each _ (zrange 0 (shape0 indices))).
  set (vb := for_each (fun i => for_each (fun j => do v <- mget indices i j; _)
                                         (zrange 0 (shape1 indices)))
                      (zrange 0 (shape0 indices))).
  destruct (Z.eqb_spec (shape1 indices) 8) as [E8 | E8];
    [|destruct (Z.eqb_spec (shape1 indices) 6) as [E6 | E6];
      [|destruct (Z.eqb_spec (shape1 indices) 4) as [E4 | E4]]];
    intros H; try (exfalso; lia);
    (destruct fb as [fbuf|]; cbn [bind] in H; [|discriminate]);
    (destruct vb as [vbuf|]; cbn [bind] in H; [|discriminate]);
    match type of H with
    | bind ?r _ = Ok _ => destruct r as [tris|] eqn:Hfill; cbn [bind] in H;
                          [|discriminate]
    end;
    match type of H with
    | bind ?r _ = Ok _ => destruct r as [[tris1 node]|] eqn:Hbuild;
                          cbn [bind] in H; [|discriminate]
    end;
    inversion H; subst; clear H;
    cbn [num_tri_per_elem triangles fst snd];
    (split; [reflexivity|]); exists tris; (split; [exact Hfill|]);
    apply (recursive_build_perm_helper tris tris1 0 _ node (Z.le_refl 0)
             Hbuild).
Qed.

(** X26.  The triangles of a BVH that [__cinit__] returns are the faces of
    the elements of the mesh: with the table of faces selected for the
    number of vertices per element, every triangle is a face of the element
    whose id it carries (its vertices are the rows of the vertex array that
    the index row of the element names), and every face of every element is
    among the triangles. *)
Theorem cinit_triangles_are_faces (hex_nt tetra_nt wedge_nt : Z)
  (hex tetra wedge : list (list Z)) (verts : mview float64)
  (indices : mview Z) (fdata : mview float64) (bvh : BVH) :
  __cinit__ hex_nt tetra_nt wedge_nt hex tetra wedge verts indices fdata
  = Ok bvh ->
  let faces := faces_for hex_nt tetra_nt wedge_nt hex tetra wedge
                         (num_verts_per_elem bvh) in
  num_tri_per_elem bvh = fst faces /\
  (forall t, In t (triangles bvh) ->
     exists j, 0 <= j < num_tri_per_elem bvh /\
               is_face verts indices (snd faces) (tri_elem_id t) j t) /\
  (forall i j, 0 <= i < num_elem bvh -> 0 <= j < num_tri_per_elem bvh ->
     exists t, In t (triangles bvh) /\
               is_face verts indices (snd faces) i j t).
Proof.
  intros H. cbv zeta.
  pose proof (cinit_Ok_layout _ _ _ _ _ _ _ _ _ _ H) as (_ & Hpos & _).
  pose proof (cinit_Ok_parts _ _ _ _ _ _ _ _ _ _ H)
    as (_ & _ & _ & _ & He & Hv & _).
  destruct (cinit_Ok_faces _ _ _ _ _ _ _ _ _ _ H)
    as (Hn & tris & Hfill & Hperm).
  rewrite Hv, He. split; [exact Hn|].
  apply fill_triangles_faces in Hfill; [|lia].
  destruct Hfill as [F1 F2]. split.
  - intros t Ht. apply F1.
    apply (Permutation_in _ (Permutation_sym Hperm)). exact Ht.
  - intros i j Hi Hj. destruct (F2 i j Hi Hj) as (t & Ht & Hf).
    exists t. split; [|exact Hf].
    apply (Permutation_in _ Hperm). exact Ht.
Qed.

Lemma cinit_triangles_are_faces_witness :
  num_tri_per_elem box_bvh = 4 /\
  (forall t, In t (triangles box_bvh) ->
     exists j, 0 <= j < num_tri_per_elem box_bvh /\
               is_face box_vertices box_tets tetra_faces (tri_elem_id t) j t) /\
  (forall i j, 0 <= i < num_elem box_bvh ->
     0 <= j < num_tri_per_elem box_bvh ->
     exists t, In t (triangles box_bvh) /\
               is_face box_vertices box_tets tetra_faces i j t).
Proof.
  apply (cinit_triangles_are_faces 12 4 8 [] tetra_faces [] box_vertices
           box_tets box_field box_bvh).
  vm_compute. reflexivity.
Defined.
